(** * evolution-sim: a shallow embedding of the simulation core

    The development follows the TypeScript sources module by module:
    [utils/math.ts], [cfg.ts], [evolution/genome.ts], [evolution/mutation.ts],
    [evolution/species.ts], [evolution/lineage.ts], [entities/food.ts],
    [entities/obstacle.ts], [environment/zone.ts], [entities/agent.ts] and
    [core/sim.ts].

    Modelling conventions.
    - A JavaScript [number] that carries a measurement (energy, position,
      weight, rate) is an exact rational [Q]; rounding of IEEE doubles is
      abstracted away.  Counters, identifiers and array indices are [Z] or
      [nat].
    - [Math.random()] reads the next value of a finite tape of draws; every
      loop whose exit depends on a draw recurses on that tape.
    - [Math.sqrt], [Math.log], [Math.cos], [Math.PI] and the TensorFlow
      forward pass are external to the repository and are taken as the
      members of the classes [MathLib] and [NeuralEvaluator].
    - An exception is an [Error] outcome of the tape monad.
    - Objects that the code shares and mutates in place are threaded
      explicitly (the survivors of a generation, the food array), and the
      genome operators are also given on an explicit object store
      ([GenomeStore]) so that their frame can be stated. *)

From Stdlib Require Import ZArith QArith Qround Qminmax Lia Lqa List Sorted Znumtheory.
From stdpp Require Import base option list gmap strings pretty.

Local Open Scope Z_scope.

(* ================================================================== *)
(** * Part I: the model                                                *)
(* ================================================================== *)

(** ** Numbers *)

Definition Qltb (a b : Q) : bool := negb (Qle_bool b a).
Definition Qgtb (a b : Q) : bool := Qltb b a.

Notation "a <? b" := (Qltb a b) : Q_scope.
Notation "a >? b" := (Qgtb a b) (at level 70) : Q_scope.
Notation "a <=? b" := (Qle_bool a b) : Q_scope.
Notation "a =? b" := (Qeq_bool a b) : Q_scope.

(** [Math.ceil(n / 4)] on an array length. *)
Definition ceilDiv4 (n : nat) : nat := ((n + 3) / 4)%nat.

(** The members of JavaScript's [Math] object that the core calls and that
    have no exact rational counterpart. *)
Class MathLib := {
  Math_sqrt : Q → Q;
  Math_log : Q → Q;
  Math_cos : Q → Q;
  Math_PI : Q
}.

(** The forward pass of [NeuralNetwork.predict] (TensorFlow.js): the weights
    installed by [setWeights] and the input vector give the output vector. *)
Class NeuralEvaluator := {
  predict : list Q → list Q → list Q
}.

(** ** cfg.ts *)

Class Config := {
  worldWidth : Q;
  worldHeight : Q;
  initialAgentCount : nat;
  initialFoodCount : nat;
  agentSize : Q;
  agentMaxSpeed : Q;
  agentMaxForce : Q;
  agentMaxEnergy : Q;
  agentMetabolismRate : Q;
  agentReproductionEnergy : Q;
  inputNeurons : nat;
  hiddenNeurons : list nat;
  outputNeurons : nat;
  mutationRate : Q;
  mutationAmount : Q;
  agentColor : Z
}.

(** The values of [cfg.ts]. *)
Definition config : Config := {|
  worldWidth := 800;
  worldHeight := 600;
  initialAgentCount := 50;
  initialFoodCount := 100;
  agentSize := 10;
  agentMaxSpeed := 2;
  agentMaxForce := 1 # 10;
  agentMaxEnergy := 100;
  agentMetabolismRate := 1 # 10;
  agentReproductionEnergy := 70;
  inputNeurons := 12;
  hiddenNeurons := [16%nat; 12%nat];
  outputNeurons := 3;
  mutationRate := 5 # 100;
  mutationAmount := 1 # 10;
  agentColor := 65280
|}.

(** ** The random tape and the exception monad *)

Inductive Error : Type :=
  | OutOfRandomness   (* the tape of draws is exhausted *)
  | InvalidDraw       (* the tape holds a value outside [0, 1) *)
  | LengthMismatch    (* [throw new Error] of crossover and geneticDistance *)
  | TypeError.        (* a method call on [undefined] *)

Definition Tape : Type := list Q.

Inductive Outcome (A : Type) : Type :=
  | Returns (a : A) (rest : Tape)
  | Throws (e : Error).
Arguments Returns {A} a rest.
Arguments Throws {A} e.

Definition Rand (A : Type) : Type := Tape → Outcome A.

Definition ret {A} (a : A) : Rand A := λ tape, Returns a tape.

Definition bind {A B} (m : Rand A) (k : A → Rand B) : Rand B :=
  λ tape, match m tape with
          | Returns a rest => k a rest
          | Throws e => Throws e
          end.

Definition throw {A} (e : Error) : Rand A := λ _, Throws e.

Notation "'do' x <- m ; k" := (bind m (λ x, k))
  (at level 10, x name, m at level 100, k at level 200).
Notation "'do' ' p <- m ; k" := (bind m (λ x, match x with p => k end))
  (at level 10, p pattern, m at level 100, k at level 200).

(** A draw of [Math.random()] lies in [0, 1). *)
Definition validDraw (u : Q) : bool := ((0 <=? u) && (u <? 1))%Q.

(** [Math.random()]. *)
Definition Math_random : Rand Q :=
  λ tape, match tape with
          | [] => Throws OutOfRandomness
          | u :: rest => if validDraw u then Returns u rest else Throws InvalidDraw
          end.

(** [Array(n).fill(0).map(() => f())]: [n] successive runs of [f]. *)
Fixpoint replicateM {A} (n : nat) (f : Rand A) : Rand (list A) :=
  match n with
  | O => ret []
  | S n' => do a <- f; do l <- replicateM n' f; ret (a :: l)
  end.

(** [while (u === 0) u = Math.random()], entered with [u = 0]: the first
    non-zero draw. *)
Fixpoint drawNonZero (tape : Tape) : Outcome Q :=
  match tape with
  | [] => Throws OutOfRandomness
  | u :: rest =>
      if validDraw u
      then if (u =? 0)%Q then drawNonZero rest else Returns u rest
      else Throws InvalidDraw
  end.

(** ** Arrays *)

(** [Array.prototype.slice(start, end)] on integer arguments: a negative
    index counts from the end, and both are clamped to the array. *)
Definition sliceIndex (len k : Z) : Z :=
  if k <? 0 then Z.max (len + k) 0 else Z.min k len.

Definition Array_slice {A} (l : list A) (start end_ : Z) : list A :=
  let len := Z.of_nat (length l) in
  let k := sliceIndex len start in
  let final := sliceIndex len end_ in
  take (Z.to_nat (final - k)) (drop (Z.to_nat k) l).

Definition Array_sliceFrom {A} (l : list A) (start : Z) : list A :=
  Array_slice l start (Z.of_nat (length l)).

(** [Array.prototype.sort(compare)]: a stable sort; [compare a b <= 0]
    keeps [a] in front of [b]. *)
Fixpoint insertBy {A} (compare : A → A → Q) (a : A) (l : list A) : list A :=
  match l with
  | [] => [a]
  | b :: l' =>
      if (compare a b <=? 0)%Q then a :: b :: l' else b :: insertBy compare a l'
  end.

Definition Array_sort {A} (compare : A → A → Q) (l : list A) : list A :=
  foldr (insertBy compare) [] l.

(** [for (let i = from; i < length; i++) dst[i] = src[i]]: the writes are
    in place, [count] is the number of iterations left. *)
Fixpoint overwriteFrom {A} (dst src : list A) (i count : nat) : list A :=
  match count with
  | O => dst
  | S count' =>
      let dst' := match src !! i with
                  | Some v => <[i := v]> dst
                  | None => dst
                  end in
      overwriteFrom dst' src (S i) count'
  end.

(** [array[i]] for an integer [i]: [undefined] outside the array. *)
Definition Array_get {A} (l : list A) (i : Z) : option A :=
  if i <? 0 then None else l !! Z.to_nat i.

(** [Math.floor(Math.random() * length)]. *)
Definition randomIndex (length : nat) : Rand Z :=
  do u <- Math_random; ret (Qfloor (u * inject_Z (Z.of_nat length))).

(** [do { k = Math.floor(Math.random() * length) } while (k === avoid)]. *)
Fixpoint pickOtherIndex (length : nat) (avoid : Z) (tape : Tape) : Outcome Z :=
  match tape with
  | [] => Throws OutOfRandomness
  | u :: rest =>
      if validDraw u
      then
        let k := Qfloor (u * inject_Z (Z.of_nat length)) in
        if k =? avoid then pickOtherIndex length avoid rest else Returns k rest
      else Throws InvalidDraw
  end.

(** ** utils/math.ts *)

Module Vector2D.
Record t : Type := mk { x : Q; y : Q }.
End Vector2D.

Definition createVector (x y : Q) : Vector2D.t := Vector2D.mk x y.

Definition addVectors (v1 v2 : Vector2D.t) : Vector2D.t :=
  Vector2D.mk (Vector2D.x v1 + Vector2D.x v2) (Vector2D.y v1 + Vector2D.y v2).

Definition subtractVectors (v1 v2 : Vector2D.t) : Vector2D.t :=
  Vector2D.mk (Vector2D.x v1 - Vector2D.x v2) (Vector2D.y v1 - Vector2D.y v2).

Definition multiplyVector (v : Vector2D.t) (scalar : Q) : Vector2D.t :=
  Vector2D.mk (Vector2D.x v * scalar) (Vector2D.y v * scalar).

Definition divideVector (v : Vector2D.t) (scalar : Q) : Vector2D.t :=
  Vector2D.mk (Vector2D.x v / scalar) (Vector2D.y v / scalar).

Section VectorMath.
Context `{MathLib}.

Definition magnitudeVector (v : Vector2D.t) : Q :=
  Math_sqrt (Vector2D.x v * Vector2D.x v + Vector2D.y v * Vector2D.y v).

Definition normalizeVector (v : Vector2D.t) : Vector2D.t :=
  let mag := magnitudeVector v in
  if (mag =? 0)%Q then Vector2D.mk 0 0 else divideVector v mag.

Definition limitVector (v : Vector2D.t) (max : Q) : Vector2D.t :=
  let mag := magnitudeVector v in
  if (mag >? max)%Q then multiplyVector (normalizeVector v) max else v.

Definition distanceBetween (v1 v2 : Vector2D.t) : Q :=
  magnitudeVector (subtractVectors v1 v2).
End VectorMath.

(** ** evolution/genome.ts *)

Module Genome.
Record t : Type := mk { weights : list Q; mutationRate : Q }.

(** [new Genome(weights?, mutationRate = 0.05)]. *)
Definition defaultMutationRate : Q := 5 # 100.

Definition new (ws : option (list Q)) (rate : option Q) : t :=
  mk (default [] ws) (default defaultMutationRate rate).

Definition copy (g : t) : t := mk (weights g) (mutationRate g).

(** [Genome.random(size)]: weights uniform in [-1, 1). *)
Definition random (size : nat) : Rand t :=
  do ws <- replicateM size (do u <- Math_random; ret (u * 2 - 1)%Q);
  ret (new (Some ws) None).

Definition withMutationRate (g : t) (rate : Q) : t := mk (weights g) rate.
Definition withWeights (g : t) (ws : list Q) : t := mk ws (mutationRate g).

Section SelfAdaptive.
Context `{MathLib}.

(** Box-Muller transform. *)
Definition randomNormal : Rand Q :=
  do u <- drawNonZero;
  do v <- drawNonZero;
  ret (Math_sqrt (- (2) * Math_log u) * Math_cos (2 * Math_PI * v))%Q.

(** The weight loop of the self-adaptive [mutate]. *)
Fixpoint mutateWeights (rate : Q) (ws : list Q) : Rand (list Q) :=
  match ws with
  | [] => ret []
  | w :: ws' =>
      do u <- Math_random;
      do w' <- (if (u <? rate)%Q
                then do n <- randomNormal; ret (w + n * (2 # 10))%Q
                else ret w);
      do rest <- mutateWeights rate ws';
      ret (w' :: rest)
  end.

(** [mutate(genome)] of genome.ts: the mutation rate mutates itself. *)
Definition mutate (genome : t) : Rand t :=
  let newGenome := copy genome in
  do roll <- Math_random;
  do newGenome <- (if (roll <? 1 # 10)%Q
                   then
                     do u <- Math_random;
                     let rateChange :=
                       ((u * 2 - 1) * (5 # 10) * mutationRate genome)%Q in
                     ret (withMutationRate newGenome
                            (Qmax (1 # 1000)
                               (Qmin (3 # 10) (mutationRate genome + rateChange))))
                   else ret newGenome);
  do ws <- mutateWeights (mutationRate newGenome) (weights newGenome);
  ret (withWeights newGenome ws).

(** [n] successive self-adaptive mutations. *)
Fixpoint mutateTimes (n : nat) (genome : t) : Rand t :=
  match n with
  | O => ret genome
  | S n' => do g <- mutate genome; mutateTimes n' g
  end.
End SelfAdaptive.
End Genome.

(** ** evolution/mutation.ts *)

Inductive CrossoverType : Type := UNIFORM | SINGLE_POINT | MULTI_POINT.

Module Mutation.
(** The weight loop of the operator-level [mutate]. *)
Fixpoint mutateWeights (rate amount : Q) (ws : list Q) : Rand (list Q) :=
  match ws with
  | [] => ret []
  | w :: ws' =>
      do u <- Math_random;
      do w' <- (if (u <? rate)%Q
                then do r <- Math_random; ret (w + (r * 2 - 1) * amount)%Q
                else ret w);
      do rest <- mutateWeights rate amount ws';
      ret (w' :: rest)
  end.

(** [mutate(genome, rate, amount)] of mutation.ts. *)
Definition mutate (genome : Genome.t) (rate amount : Q) : Rand Genome.t :=
  let newGenome := Genome.copy genome in
  do ws <- mutateWeights rate amount (Genome.weights newGenome);
  ret (Genome.withWeights newGenome ws).

(** [parent1.weights.map((gene, i) => Math.random() < 0.5 ? gene :
    parent2.weights[i])], on arrays of one length. *)
Fixpoint uniformGenes (w1 w2 : list Q) : Rand (list Q) :=
  match w1, w2 with
  | gene :: r1, other :: r2 =>
      do u <- Math_random;
      do rest <- uniformGenes r1 r2;
      ret ((if (u <? 1 # 2)%Q then gene else other) :: rest)
  | _, _ => ret []
  end.

(** The [points.forEach] loop of the multi-point strategy: [currentParent]
    is [true] while the next point switches to parent 2. *)
Fixpoint applyPoints (child w1 w2 : list Q) (toSecond : bool) (points : list Z)
  : list Q :=
  match points with
  | [] => child
  | point :: points' =>
      let from := Z.to_nat point in
      let src := if toSecond then w2 else w1 in
      applyPoints (overwriteFrom child src from (length w1 - from)) w1 w2
        (negb toSecond) points'
  end.

Definition crossover (parent1 parent2 : Genome.t) (crossoverType : CrossoverType)
  : Rand Genome.t :=
  let child := Genome.new None None in
  if negb (length (Genome.weights parent1) =? length (Genome.weights parent2))%nat
  then throw LengthMismatch
  else
    let length_ := length (Genome.weights parent1) in
    match crossoverType with
    | UNIFORM =>
        do ws <- uniformGenes (Genome.weights parent1) (Genome.weights parent2);
        ret (Genome.withWeights child ws)
    | SINGLE_POINT =>
        do crossPoint <- randomIndex length_;
        ret (Genome.withWeights child
               (Array_slice (Genome.weights parent1) 0 crossPoint
                ++ Array_sliceFrom (Genome.weights parent2) crossPoint))
    | MULTI_POINT =>
        do u <- Math_random;
        let numPoints := Qfloor (u * 3) + 2 in
        do points <- replicateM (Z.to_nat numPoints) (randomIndex length_);
        let points := Array_sort (λ a b, inject_Z (a - b)) points in
        ret (Genome.withWeights child
               (applyPoints (Genome.weights parent1) (Genome.weights parent1)
                  (Genome.weights parent2) true points))
    end.
End Mutation.

(** ** evolution/species.ts *)

Module Species.
Record t : Type := mk {
  id : Z;
  name : string;
  members : list Z;
  representative : Genome.t;
  color : string;
  creationGeneration : Z;
  lastImprovedGeneration : Z;
  bestFitness : Q
}.

(** The constructor: the representative is a copy of the founder's genome,
    the colour takes one draw for its hue. *)
Definition new (id_ : Z) (representative_ : Genome.t) (creationGeneration_ : Z)
    (firstMemberId : Z) : Rand t :=
  do u <- Math_random;
  let hue := Qfloor (u * 360) in
  ret {| id := id_;
         name := "Species-" +:+ pretty id_;
         members := [firstMemberId];
         representative := Genome.copy representative_;
         color := "hsl(" +:+ pretty hue +:+ ", 70%, 60%)";
         creationGeneration := creationGeneration_;
         lastImprovedGeneration := creationGeneration_;
         bestFitness := 0 |}.

Definition withMembers (s : t) (ms : list Z) : t :=
  {| id := id s; name := name s; members := ms;
     representative := representative s; color := color s;
     creationGeneration := creationGeneration s;
     lastImprovedGeneration := lastImprovedGeneration s;
     bestFitness := bestFitness s |}.

Definition withBestFitness (s : t) (f : Q) : t :=
  {| id := id s; name := name s; members := members s;
     representative := representative s; color := color s;
     creationGeneration := creationGeneration s;
     lastImprovedGeneration := lastImprovedGeneration s;
     bestFitness := f |}.

Definition addMember (s : t) (agentId : Z) : t :=
  if bool_decide (agentId ∈ members s) then s
  else withMembers s (members s ++ [agentId]).

Definition updateFitness (s : t) (fitness : Q) : t :=
  if (fitness >? bestFitness s)%Q then withBestFitness s fitness else s.
End Species.

Section GeneticDistance.
Context `{MathLib}.

(** The loop that accumulates [sumSquaredDiff]. *)
Definition sumSquaredDiff (wa wb : list Q) : Q :=
  fold_left (λ acc p, (acc + (p.1 - p.2) * (p.1 - p.2))%Q) (zip wa wb) 0%Q.

Definition geneticDistance (genomeA genomeB : Genome.t) : Rand Q :=
  if negb (length (Genome.weights genomeA) =? length (Genome.weights genomeB))%nat
  then throw LengthMismatch
  else ret (Math_sqrt (sumSquaredDiff (Genome.weights genomeA) (Genome.weights genomeB))).
End GeneticDistance.

Module SpeciesManager.
Record t : Type := mk {
  species : list Species.t;
  nextSpeciesId : Z;
  currentGeneration : Z
}.

(** [private distanceThreshold: number = 4.0]; no method assigns it. *)
Definition distanceThreshold : Q := 4.

Definition new : t := mk [] 1 1.

Section Assign.
Context `{MathLib}.

(** The scan of [assignSpecies]: the position of the first species whose
    representative is closer than the threshold; [i] is the position of the
    head of [l] in the array. *)
Fixpoint findSpecies (genome : Genome.t) (l : list Species.t) (i : nat)
  : Rand (option nat) :=
  match l with
  | [] => ret None
  | existingSpecies :: l' =>
      do distance <- geneticDistance genome (Species.representative existingSpecies);
      if (distance <? distanceThreshold)%Q then ret (Some i)
      else findSpecies genome l' (S i)
  end.

(** [assignSpecies(genome, agentId)]: the manager after the call and the
    position, in its array, of the species object that is returned. *)
Definition assignSpecies (sm : t) (genome : Genome.t) (agentId : Z) : Rand (t * nat) :=
  do found <- findSpecies genome (species sm) 0;
  match found with
  | None =>
      do created <- Species.new (nextSpeciesId sm) genome (currentGeneration sm) agentId;
      ret (mk (species sm ++ [created]) (nextSpeciesId sm + 1) (currentGeneration sm),
           length (species sm))
  | Some i =>
      ret (mk (alter (λ s, Species.addMember s agentId) i (species sm))
              (nextSpeciesId sm) (currentGeneration sm), i)
  end.
End Assign.

Definition advanceGeneration (sm : t) : t :=
  mk (map (λ s, Species.withMembers s []) (species sm)) (nextSpeciesId sm)
     (currentGeneration sm + 1).

Definition getSpecies (sm : t) : list Species.t := species sm.

Definition getActiveSpecies (sm : t) : list Species.t :=
  filter (λ s, Species.members s ≠ []) (species sm).

Definition clearAllSpecies (sm : t) : t :=
  mk [] (nextSpeciesId sm) (currentGeneration sm).

Definition createSpecies (sm : t) (id_ : Z) (representative_ : Genome.t)
    (creationGeneration_ : Z) : Rand (t * nat) :=
  do created <- Species.new id_ representative_ creationGeneration_ 0;
  ret (mk (species sm ++ [created]) (nextSpeciesId sm) (currentGeneration sm),
       length (species sm)).

Definition getSpeciesById (sm : t) (id_ : Z) : option Species.t :=
  find (λ s, bool_decide (Species.id s = id_)) (species sm).

(** Every species of the array was numbered below the counter. *)
Definition idsBelowNext (sm : t) : Prop :=
  Forall (λ s, Species.id s < nextSpeciesId sm) (species sm).
End SpeciesManager.

(** ** evolution/lineage.ts *)

Module AgentAncestry.
Record t : Type := mk {
  id : Z;
  parentIds : list Z;
  generation : Z;
  speciesId : Z;
  birthTick : Z;
  deathTick : option Z;
  maxFitness : Q
}.
End AgentAncestry.

Module LineageTracker.
(** [ancestryRecords] is a [Map<number, AgentAncestry>]; its iteration order
    is not used by the operations below. *)
Record t : Type := mk {
  ancestryRecords : gmap Z AgentAncestry.t;
  nextAgentId : Z;
  currentGeneration : Z;
  currentTick : Z
}.

Definition new : t := mk ∅ 1 1 0.

Definition withRecords (lt : t) (records : gmap Z AgentAncestry.t) : t :=
  mk records (nextAgentId lt) (currentGeneration lt) (currentTick lt).

Definition registerBirth (lt : t) (parentIds : list Z) (speciesId : Z) : t * Z :=
  let id_ := nextAgentId lt in
  (mk (<[id_ := AgentAncestry.mk id_ parentIds (currentGeneration lt) speciesId
                  (currentTick lt) None 0]> (ancestryRecords lt))
      (nextAgentId lt + 1) (currentGeneration lt) (currentTick lt),
   id_).

Definition registerDeath (lt : t) (agentId : Z) (finalFitness : Q) : t :=
  match ancestryRecords lt !! agentId with
  | Some record =>
      withRecords lt
        (<[agentId := AgentAncestry.mk (AgentAncestry.id record)
                        (AgentAncestry.parentIds record)
                        (AgentAncestry.generation record)
                        (AgentAncestry.speciesId record)
                        (AgentAncestry.birthTick record)
                        (Some (currentTick lt))
                        (Qmax (AgentAncestry.maxFitness record) finalFitness)]>
           (ancestryRecords lt))
  | None => lt
  end.

Definition updateFitness (lt : t) (agentId : Z) (fitness : Q) : t :=
  match ancestryRecords lt !! agentId with
  | Some record =>
      withRecords lt
        (<[agentId := AgentAncestry.mk (AgentAncestry.id record)
                        (AgentAncestry.parentIds record)
                        (AgentAncestry.generation record)
                        (AgentAncestry.speciesId record)
                        (AgentAncestry.birthTick record)
                        (AgentAncestry.deathTick record)
                        (Qmax (AgentAncestry.maxFitness record) fitness)]>
           (ancestryRecords lt))
  | None => lt
  end.

Definition advanceGeneration (lt : t) : t :=
  mk (ancestryRecords lt) (nextAgentId lt) (currentGeneration lt + 1) (currentTick lt).

Definition updateTick (lt : t) (tick : Z) : t :=
  mk (ancestryRecords lt) (nextAgentId lt) (currentGeneration lt) tick.

Definition getAncestryRecord (lt : t) (agentId : Z) : option AgentAncestry.t :=
  ancestryRecords lt !! agentId.

(** The [while (queue.length > 0)] loop of [getAncestors]; every iteration
    takes one unit of [fuel]. *)
Fixpoint walkQueue (records : gmap Z AgentAncestry.t) (fuel : nat) (queue : list Z)
    (ancestors : list AgentAncestry.t) : option (list AgentAncestry.t) :=
  match queue with
  | [] => Some ancestors
  | parentId :: queue' =>
      match fuel with
      | O => None
      | S fuel' =>
          match records !! parentId with
          | Some parentRecord =>
              walkQueue records fuel' (queue' ++ AgentAncestry.parentIds parentRecord)
                (ancestors ++ [parentRecord])
          | None => walkQueue records fuel' queue' ancestors
          end
      end
  end.

(** [getAncestors(agentId)], [None] when the loop outlives the fuel. *)
Definition getAncestors (lt : t) (fuel : nat) (agentId : Z)
  : option (list AgentAncestry.t) :=
  match ancestryRecords lt !! agentId with
  | None => Some []
  | Some record => walkQueue (ancestryRecords lt) fuel (AgentAncestry.parentIds record) []
  end.

Definition clearAllRecords (lt : t) : t := withRecords lt ∅.

Definition addRecordDirect (lt : t) (record : AgentAncestry.t) : t :=
  withRecords lt (<[AgentAncestry.id record := record]> (ancestryRecords lt)).

(** The number of loop iterations that empty a queue: one for an id with
    no record, and for an id with a record one more than it takes to empty
    the queue of its parents. *)
Inductive QueueCost (records : gmap Z AgentAncestry.t) : list Z → nat → Prop :=
  | cost_empty : QueueCost records [] 0
  | cost_unknown p queue n :
      records !! p = None →
      QueueCost records queue n →
      QueueCost records (p :: queue) (S n)
  | cost_record p r queue m n :
      records !! p = Some r →
      QueueCost records (AgentAncestry.parentIds r) m →
      QueueCost records queue n →
      QueueCost records (p :: queue) (S (m + n)).

(** Every record is stored under its own id. *)
Definition keyedById (lt : t) : Prop :=
  ∀ k r, ancestryRecords lt !! k = Some r → AgentAncestry.id r = k.

(** The ancestry is a DAG: the parents of a record have smaller ids. *)
Definition parentsBelow (lt : t) : Prop :=
  ∀ k r, ancestryRecords lt !! k = Some r →
    Forall (λ p, p < AgentAncestry.id r) (AgentAncestry.parentIds r).
End LineageTracker.

(** ** entities/food.ts, entities/obstacle.ts, environment/zone.ts *)

Inductive FoodType : Type := BASIC | SUPER | POISON.

Module Food.
Record t : Type := mk {
  position : Vector2D.t;
  energy : Q;
  size : Q;
  isConsumed : bool;
  type : FoodType;
  color : Z
}.

Definition new (position_ : Vector2D.t) (type_ : FoodType) : t :=
  match type_ with
  | BASIC => mk position_ 20 5 false BASIC 8956671
  | SUPER => mk position_ 50 8 false SUPER 16755200
  | POISON => mk position_ (-30) 4 false POISON 11141290
  end.

Definition consume (f : t) : t :=
  mk (position f) (energy f) (size f) true (type f) (color f).

(** [update()] does nothing. *)
Definition update (f : t) : t := f.
End Food.

Module Obstacle.
Record t : Type := mk { position : Vector2D.t; size : Q; color : Z }.

Definition new (position_ : Vector2D.t) (size_ : Q) : t := mk position_ size_ 5592405.
End Obstacle.

Inductive ZoneType : Type := NORMAL | HARSH | FERTILE | BARREN.

Module Zone.
Record t : Type := mk { position : Vector2D.t; radius : Q; type : ZoneType }.

Definition contains (z : t) (point : Vector2D.t) : bool :=
  let dx := (Vector2D.x point - Vector2D.x (position z))%Q in
  let dy := (Vector2D.y point - Vector2D.y (position z))%Q in
  (dx * dx + dy * dy <=? radius z * radius z)%Q.

Definition getMetabolismMultiplier (z : t) : Q :=
  match type z with
  | HARSH => 15 # 10
  | FERTILE => 8 # 10
  | _ => 1
  end.

Definition getFoodSpawnMultiplier (z : t) : Q :=
  match type z with
  | FERTILE => 2
  | BARREN => 3 # 10
  | _ => 1
  end.
End Zone.

(** ** entities/agent.ts *)

Module Agent.
(** [brain] holds the weights that [createNetwork] installs in the network;
    [species] is the position of the agent's species object in the species
    manager's array; the back-reference to the simulation is only used for
    its generation number, which [reproduce] takes as an argument. *)
Record t : Type := mk {
  position : Vector2D.t;
  velocity : Vector2D.t;
  acceleration : Vector2D.t;
  size : Q;
  energy : Q;
  genome : Genome.t;
  brain : list Q;
  age : Z;
  dead : bool;
  fitness : Q;
  color : Z;
  metabolismMultiplier : Q;
  id : Z;
  species : option nat;
  parentIds : list Z
}.

Definition withPosition (a : t) (v : Vector2D.t) : t :=
  {| position := v; velocity := velocity a; acceleration := acceleration a;
     size := size a; energy := energy a; genome := genome a; brain := brain a;
     age := age a; dead := dead a; fitness := fitness a; color := color a;
     metabolismMultiplier := metabolismMultiplier a; id := id a; species := species a;
     parentIds := parentIds a |}.

Definition withVelocity (a : t) (v : Vector2D.t) : t :=
  {| position := position a; velocity := v; acceleration := acceleration a;
     size := size a; energy := energy a; genome := genome a; brain := brain a;
     age := age a; dead := dead a; fitness := fitness a; color := color a;
     metabolismMultiplier := metabolismMultiplier a; id := id a; species := species a;
     parentIds := parentIds a |}.

Definition withAcceleration (a : t) (v : Vector2D.t) : t :=
  {| position := position a; velocity := velocity a; acceleration := v; size := size a;
     energy := energy a; genome := genome a; brain := brain a; age := age a;
     dead := dead a; fitness := fitness a; color := color a;
     metabolismMultiplier := metabolismMultiplier a; id := id a; species := species a;
     parentIds := parentIds a |}.

Definition withEnergy (a : t) (v : Q) : t :=
  {| position := position a; velocity := velocity a; acceleration := acceleration a;
     size := size a; energy := v; genome := genome a; brain := brain a; age := age a;
     dead := dead a; fitness := fitness a; color := color a;
     metabolismMultiplier := metabolismMultiplier a; id := id a; species := species a;
     parentIds := parentIds a |}.

Definition withAge (a : t) (v : Z) : t :=
  {| position := position a; velocity := velocity a; acceleration := acceleration a;
     size := size a; energy := energy a; genome := genome a; brain := brain a;
     age := v; dead := dead a; fitness := fitness a; color := color a;
     metabolismMultiplier := metabolismMultiplier a; id := id a; species := species a;
     parentIds := parentIds a |}.

Definition withDead (a : t) (v : bool) : t :=
  {| position := position a; velocity := velocity a; acceleration := acceleration a;
     size := size a; energy := energy a; genome := genome a; brain := brain a;
     age := age a; dead := v; fitness := fitness a; color := color a;
     metabolismMultiplier := metabolismMultiplier a; id := id a; species := species a;
     parentIds := parentIds a |}.

Definition withFitness (a : t) (v : Q) : t :=
  {| position := position a; velocity := velocity a; acceleration := acceleration a;
     size := size a; energy := energy a; genome := genome a; brain := brain a;
     age := age a; dead := dead a; fitness := v; color := color a;
     metabolismMultiplier := metabolismMultiplier a; id := id a; species := species a;
     parentIds := parentIds a |}.

Definition withMetabolismMultiplier (a : t) (v : Q) : t :=
  {| position := position a; velocity := velocity a; acceleration := acceleration a;
     size := size a; energy := energy a; genome := genome a; brain := brain a;
     age := age a; dead := dead a; fitness := fitness a; color := color a;
     metabolismMultiplier := v; id := id a; species := species a;
     parentIds := parentIds a |}.

Definition withId (a : t) (v : Z) : t :=
  {| position := position a; velocity := velocity a; acceleration := acceleration a;
     size := size a; energy := energy a; genome := genome a; brain := brain a;
     age := age a; dead := dead a; fitness := fitness a; color := color a;
     metabolismMultiplier := metabolismMultiplier a; id := v; species := species a;
     parentIds := parentIds a |}.

Definition withSpecies (a : t) (v : option nat) : t :=
  {| position := position a; velocity := velocity a; acceleration := acceleration a;
     size := size a; energy := energy a; genome := genome a; brain := brain a;
     age := age a; dead := dead a; fitness := fitness a; color := color a;
     metabolismMultiplier := metabolismMultiplier a; id := id a; species := v;
     parentIds := parentIds a |}.

Definition withParentIds (a : t) (v : list Z) : t :=
  {| position := position a; velocity := velocity a; acceleration := acceleration a;
     size := size a; energy := energy a; genome := genome a; brain := brain a;
     age := age a; dead := dead a; fitness := fitness a; color := color a;
     metabolismMultiplier := metabolismMultiplier a; id := id a; species := species a;
     parentIds := v |}.

Section Methods.
Context `{MathLib} `{NeuralEvaluator} `{Config}.

(** The loop of the constructor over consecutive layers: weights and biases. *)
Fixpoint layerWeights (layerSizes : list nat) : nat :=
  match layerSizes with
  | a :: (b :: _) as rest => (a * b + b + layerWeights rest)%nat
  | _ => O
  end.

Definition expectedWeights : nat :=
  layerWeights (inputNeurons :: hiddenNeurons ++ [outputNeurons]).

(** [genome.createNetwork(...)]: a network whose weights are the genome's. *)
Definition createNetwork (g : Genome.t) : list Q := Genome.weights g.

(** [new Agent(position, genome, simulation, id)]. *)
Definition new (position_ : Vector2D.t) (genome_ : option Genome.t) (id_ : Z) : Rand t :=
  do genome' <- match genome_ with
                | Some g =>
                    if negb (length (Genome.weights g) =? expectedWeights)%nat
                    then Genome.random expectedWeights
                    else ret g
                | None => Genome.random expectedWeights
                end;
  ret {| position := position_;
         velocity := createVector 0 0;
         acceleration := createVector 0 0;
         size := agentSize;
         energy := (agentMaxEnergy / 2)%Q;
         genome := genome';
         brain := createNetwork genome';
         age := 0;
         dead := false;
         fitness := 0;
         color := agentColor;
         metabolismMultiplier := 1;
         id := id_;
         species := None;
         parentIds := [] |}.

(** [distance < closestDistance], where [None] is [Infinity]. *)
Definition closerThan (distance : Q) (closestDistance : option Q) : bool :=
  match closestDistance with
  | None => true
  | Some c => (distance <? c)%Q
  end.

Definition closestFood (a : t) (foods : list Food.t) : option Food.t * option Q :=
  fold_left
    (λ st food,
       if Food.isConsumed food then st
       else
         let distance := distanceBetween (position a) (Food.position food) in
         if closerThan distance st.2 then (Some food, Some distance) else st)
    foods (None, None).

Definition closestObstacle (a : t) (obstacles : list Obstacle.t)
  : option Obstacle.t * option Q :=
  fold_left
    (λ st obstacle,
       let distance := distanceBetween (position a) (Obstacle.position obstacle) in
       if closerThan distance st.2 then (Some obstacle, Some distance) else st)
    obstacles (None, None).

Definition foodTypeCode (ty : FoodType) : Q :=
  match ty with
  | BASIC => 5 # 10
  | SUPER => 1
  | POISON => 0
  end.

Definition getSensoryInputs (a : t) (foods : list Food.t) (obstacles : list Obstacle.t)
  : Rand (list Q) :=
  let speed := (magnitudeVector (velocity a) / agentMaxSpeed)%Q in
  let foodInputs :=
    match closestFood a foods with
    | (Some food, Some closestDistance) =>
        let directionVector :=
          normalizeVector (subtractVectors (Food.position food) (position a)) in
        [Vector2D.x directionVector; Vector2D.y directionVector;
         (closestDistance
          / Math_sqrt (worldWidth * worldWidth + worldHeight * worldHeight))%Q;
         foodTypeCode (Food.type food)]
    | _ => [0; 0; 1; 5 # 10]%Q
    end in
  let obstacleInputs :=
    match closestObstacle a obstacles with
    | (Some obstacle, Some closestDistance) =>
        if (closestDistance <? 150)%Q
        then
          let directionVector :=
            normalizeVector (subtractVectors (Obstacle.position obstacle) (position a)) in
          [Vector2D.x directionVector; Vector2D.y directionVector;
           (closestDistance / 150)%Q]
        else [0; 0; 1]%Q
    | _ => [0; 0; 1]%Q
    end in
  do noise <- Math_random;
  ret ([(Vector2D.x (position a) / worldWidth)%Q;
        (Vector2D.y (position a) / worldHeight)%Q;
        speed;
        (energy a / agentMaxEnergy)%Q]
       ++ foodInputs ++ obstacleInputs ++ [noise]).

(** [outputs[k]]; the evaluator returns three outputs. *)
Definition output (outputs : list Q) (k : nat) : Q := nth k outputs 0%Q.

Definition applyOutputs (a : t) (outputs : list Q) : t :=
  let forwardForce := (output outputs 0 * agentMaxForce)%Q in
  let forwardVector :=
    normalizeVector
      (if ((Vector2D.x (velocity a) =? 0) && (Vector2D.y (velocity a) =? 0))%Q
       then createVector 1 0
       else velocity a) in
  let turnForce := ((output outputs 1 * 2 - 1) * agentMaxForce)%Q in
  let turnVector :=
    createVector (- Vector2D.y forwardVector)%Q (Vector2D.x forwardVector) in
  let speedMultiplier := (output outputs 2 * 2)%Q in
  let movementForce :=
    addVectors
      (Vector2D.mk (Vector2D.x forwardVector * forwardForce)
                   (Vector2D.y forwardVector * forwardForce))
      (Vector2D.mk (Vector2D.x turnVector * turnForce)
                   (Vector2D.y turnVector * turnForce)) in
  withAcceleration a
    (Vector2D.mk (Vector2D.x movementForce * speedMultiplier)
                 (Vector2D.y movementForce * speedMultiplier)).

(** The first half of [updatePhysics]: the velocity after acceleration and
    limiting, and the position it leads to before the wrap. *)
Definition integratedVelocity (a : t) (movementMultiplier : Q) : Vector2D.t :=
  limitVector (addVectors (velocity a) (acceleration a))
    (agentMaxSpeed * movementMultiplier)%Q.

Definition integratedPosition (a : t) (movementMultiplier : Q) : Vector2D.t :=
  addVectors (position a)
    (multiplyVector (integratedVelocity a movementMultiplier) movementMultiplier).

(** The four [if] statements under "Wrap around edges", per axis. *)
Definition wrapAround (coordinate bound : Q) : Q :=
  let c := if (coordinate <? 0)%Q then bound else coordinate in
  if (c >? bound)%Q then 0%Q else c.

Definition updatePhysics (a : t) (movementMultiplier : Q) : t :=
  let v := integratedVelocity a movementMultiplier in
  let p := integratedPosition a movementMultiplier in
  withPosition (withVelocity a v)
    (Vector2D.mk (wrapAround (Vector2D.x p) worldWidth)
                 (wrapAround (Vector2D.y p) worldHeight)).

(** The test of [checkObstacleCollisions]. *)
Definition collides (a : t) (obstacle : Obstacle.t) : bool :=
  (distanceBetween (position a) (Obstacle.position obstacle)
   <? size a + Obstacle.size obstacle)%Q.

Definition bounce (a : t) (obstacle : Obstacle.t) : t :=
  let distance := distanceBetween (position a) (Obstacle.position obstacle) in
  let awayVector :=
    normalizeVector (subtractVectors (position a) (Obstacle.position obstacle)) in
  let overlapDistance := (size a + Obstacle.size obstacle - distance)%Q in
  let position' :=
    addVectors (position a) (multiplyVector awayVector (overlapDistance * (11 # 10))%Q) in
  let dotProduct :=
    (Vector2D.x (velocity a) * Vector2D.x awayVector
     + Vector2D.y (velocity a) * Vector2D.y awayVector)%Q in
  let velocity' :=
    subtractVectors (velocity a) (multiplyVector awayVector (2 * dotProduct)%Q) in
  withEnergy (withVelocity (withPosition a position') velocity') (energy a - 5)%Q.

Definition checkObstacleCollisions (a : t) (obstacles : list Obstacle.t) : t :=
  fold_left (λ a obstacle, if collides a obstacle then bounce a obstacle else a)
    obstacles a.

(** The broad-phase filter of [checkFoodConsumption]. *)
Definition isNearby (a : t) (food : Food.t) : bool :=
  if Food.isConsumed food then false
  else
    let dx := (Vector2D.x (Food.position food) - Vector2D.x (position a))%Q in
    let dy := (Vector2D.y (Food.position food) - Vector2D.y (position a))%Q in
    let squareDistance := (dx * dx + dy * dy)%Q in
    (squareDistance <? (size a + Food.size food + 10) * (size a + Food.size food + 10))%Q.

(** [nearbyFoods]: the food objects that pass the filter, by their position
    in [foods]. *)
Definition nearbyFoods (a : t) (foods : list Food.t) : list nat :=
  map fst (List.filter (λ p, isNearby a p.2) (imap (λ i food, (i, food)) foods)).

(** The test of the precise phase. *)
Definition reaches (a : t) (food : Food.t) : bool :=
  (distanceBetween (position a) (Food.position food) <? size a + Food.size food)%Q.

Definition eat (a : t) (food : Food.t) : t :=
  let e := (energy a + Food.energy food)%Q in
  let isPoison := match Food.type food with POISON => true | _ => false end in
  let e := if (e <? 1)%Q && isPoison then 1%Q else e in
  let e := if (e >? agentMaxEnergy)%Q then agentMaxEnergy else e in
  withEnergy a e.

Definition checkFoodConsumption (a : t) (foods : list Food.t) : t * list Food.t :=
  fold_left
    (λ st i,
       match st.2 !! i with
       | Some food =>
           if reaches st.1 food
           then (eat st.1 food, <[i := Food.consume food]> st.2)
           else st
       | None => st
       end)
    (nearbyFoods a foods) (a, foods).

(** The first statements of [update]: ageing and metabolism. *)
Definition metabolise (a : t) : t :=
  withEnergy (withAge a (age a + 1))
    (energy a - agentMetabolismRate * metabolismMultiplier a)%Q.

(** [update(foods, obstacles, movementMultiplier)]: the agent and the food
    array after the call. *)
Definition update (a : t) (foods : list Food.t) (obstacles : list Obstacle.t)
    (movementMultiplier : Q) : Rand (t * list Food.t) :=
  let a := metabolise a in
  if (energy a <=? 0)%Q then ret (withDead a true, foods)
  else
    do inputs <- getSensoryInputs a foods obstacles;
    let outputs := predict (brain a) inputs in
    let a := applyOutputs a outputs in
    let a := updatePhysics a movementMultiplier in
    let '(a, foods) := checkFoodConsumption a foods in
    let a := checkObstacleCollisions a obstacles in
    ret (withFitness a (inject_Z (age a) + energy a)%Q, foods).

Definition canReproduce (a : t) : bool := (energy a >? agentReproductionEnergy)%Q.

Definition crossoverTypeFor (generation : Z) : CrossoverType :=
  if generation <? 5 then UNIFORM
  else if generation <? 15 then SINGLE_POINT
  else MULTI_POINT.

(** The genome of the child before mutation. *)
Definition childGenomeOf (generation : Z) (self : t) (partner : option t) : Rand Genome.t :=
  match partner with
  | Some p =>
      if canReproduce p
      then
        do g <- Mutation.crossover (genome self) (genome p) (crossoverTypeFor generation);
        ret (Genome.withMutationRate g
               ((Genome.mutationRate (genome self) + Genome.mutationRate (genome p)) / 2)%Q)
      else ret (Genome.copy (genome self))
  | None => ret (Genome.copy (genome self))
  end.

(** The parents after [reproduce]: the energy is halved before anything
    that can throw or draw. *)
Definition afterReproduce (self : t) (partner : option t) : t * option t :=
  (withEnergy self (energy self / 2)%Q,
   match partner with
   | Some p => if canReproduce p then Some (withEnergy p (energy p / 2)%Q) else Some p
   | None => None
   end).

(** [this.reproduce(partner)] for two distinct objects: the invoking agent
    and the partner after the call, and the child or the exception. *)
Definition reproduce (generation : Z) (self : t) (partner : option t) (tape : Tape)
  : (t * option t) * Outcome t :=
  (afterReproduce self partner,
   (do childGenome <- childGenomeOf generation self partner;
    do childGenome <- Mutation.mutate childGenome mutationRate mutationAmount;
    do dx <- Math_random;
    do dy <- Math_random;
    let childPosition :=
      addVectors (position self) (Vector2D.mk (dx * 20 - 10) (dy * 20 - 10))%Q in
    do childAgent <- new childPosition (Some childGenome) 0;
    ret (withParentIds childAgent
           (match partner with
            | Some p => [id self; id p]
            | None => [id self]
            end))) tape).
End Methods.
End Agent.

(** ** environment/cycle.ts *)

Inductive TimeOfDay : Type := DAY | NIGHT.

Module EnvironmentCycle.
Record t : Type := mk { totalTicks : Z }.

(** [private dayLength: number = 500]. *)
Definition dayLength : Z := 500.

Definition new : t := mk 0.

Definition update (c : t) : t := mk (totalTicks c + 1).

Definition getTimeOfDay (c : t) : TimeOfDay :=
  let cyclePosition := Z.rem (totalTicks c) (dayLength * 2) in
  if cyclePosition <? dayLength then DAY else NIGHT.

Definition getMovementMultiplier (c : t) : Q :=
  match getTimeOfDay c with
  | DAY => 1
  | NIGHT => 7 # 10
  end.

Definition getDayNightRatio (c : t) : Q :=
  let cyclePosition := Z.rem (totalTicks c) (dayLength * 2) in
  if cyclePosition <? dayLength
  then (inject_Z cyclePosition / inject_Z dayLength)%Q
  else (1 - (inject_Z cyclePosition - inject_Z dayLength) / inject_Z dayLength)%Q.

Definition getVisibilityMultiplier (c : t) : Q :=
  match getTimeOfDay c with
  | DAY => 1
  | NIGHT => 3 # 10
  end.

(** [setTimeOfDay]: [Math.floor(dayLength / 2)] and
    [Math.floor(dayLength * 1.5)]. *)
Definition setTimeOfDay (c : t) (timeOfDay : TimeOfDay) : t :=
  match timeOfDay with
  | DAY => mk (dayLength / 2)
  | NIGHT => mk (Qfloor (inject_Z dayLength * (15 # 10)))
  end.

Definition setTotalTicks (c : t) (ticks : Z) : t := mk ticks.
End EnvironmentCycle.

(** ** core/sim.ts *)

Module Simulation.
Record t : Type := mk {
  generation : Z;
  tickCount : Z;
  agents : list Agent.t;
  foods : list Food.t;
  obstacles : list Obstacle.t;
  zones : list Zone.t;
  environmentCycle : EnvironmentCycle.t;
  speciesManager : SpeciesManager.t;
  lineageTracker : LineageTracker.t;
  deadAgents : list Agent.t
}.

(** [const agentBatchSize = 10]. *)
Definition agentBatchSize : Z := 10.

(** [startIdx] and [endIdx] of the batch of a tick. *)
Definition batchWindow (tickCount_ agentCount : Z) : Z * Z :=
  let startIdx := Z.rem (tickCount_ * agentBatchSize) agentCount in
  let endIdx := Z.min (startIdx + agentBatchSize) agentCount in
  (startIdx, endIdx).

(** [i >= startIdx && i < endIdx]. *)
Definition inBatch (tickCount_ agentCount i : Z) : bool :=
  (fst (batchWindow tickCount_ agentCount) <=? i)
  && (i <? snd (batchWindow tickCount_ agentCount)).

(** Whether the agent at position [i] of a roster of [agentCount] agents
    gets the full update in the tick numbered [tickCount_]. *)
Definition receivesFullUpdate (tickCount_ agentCount i : Z) : bool :=
  if agentCount <=? 20 then true else inBatch tickCount_ agentCount i.

(** The number of full updates of position [i] over [ticks] consecutive
    ticks from [firstTick] on, for a roster of constant size. *)
Definition fullUpdateCount (agentCount i firstTick : Z) (ticks : nat) : nat :=
  length (List.filter (λ tick, receivesFullUpdate tick agentCount i)
            (seqZ firstTick (Z.of_nat ticks))).

(** The number of ticks after which the batch window returns to where it
    started. *)
Definition rotationPeriod (agentCount : Z) : Z :=
  agentCount / Z.gcd agentCount agentBatchSize.

Definition applyEnvironmentEffects (zones_ : list Zone.t) (agent : Agent.t) : Agent.t :=
  match List.find (λ zone, Zone.contains zone (Agent.position agent)) zones_ with
  | Some zone => Agent.withMetabolismMultiplier agent (Zone.getMetabolismMultiplier zone)
  | None => Agent.withMetabolismMultiplier agent 1
  end.

(** [spawnFood(count)]: the new items are pushed onto the food array. *)
Fixpoint spawnFood `{Config} (count : nat) (foods_ : list Food.t) : Rand (list Food.t) :=
  match count with
  | O => ret foods_
  | S count' =>
      do ux <- Math_random;
      do uy <- Math_random;
      let position := createVector (ux * worldWidth) (uy * worldHeight) in
      do roll <- Math_random;
      let foodType :=
        if (roll <? 1 # 10)%Q then SUPER
        else if (roll <? 2 # 10)%Q then POISON
        else BASIC in
      spawnFood count' (foods_ ++ [Food.new position foodType])
  end.

Section Tick.
Context `{MathLib} `{NeuralEvaluator} `{Config}.

(** The two agent loops of [update]: [full i] tells whether position [i]
    gets [applyEnvironmentEffects] and [agent.update], or only
    [agent.updatePhysics]; the food array is shared by all the calls. *)
Fixpoint processAgents (full : Z → bool) (zones_ : list Zone.t)
    (obstacles_ : list Obstacle.t) (movementMultiplier : Q) (i : Z)
    (agents_ : list Agent.t) (foods_ : list Food.t)
  : Rand (list Agent.t * list Food.t) :=
  match agents_ with
  | [] => ret ([], foods_)
  | agent :: rest =>
      do '(agent', foods') <-
        (if full i
         then Agent.update (applyEnvironmentEffects zones_ agent) foods_ obstacles_
                movementMultiplier
         else ret (Agent.updatePhysics agent movementMultiplier, foods_));
      do '(rest', foods'') <-
        processAgents full zones_ obstacles_ movementMultiplier (i + 1) rest foods';
      ret (agent' :: rest', foods'')
  end.

Definition updateAgents (tickCount_ : Z) (zones_ : list Zone.t)
    (obstacles_ : list Obstacle.t) (movementMultiplier : Q)
    (agents_ : list Agent.t) (foods_ : list Food.t)
  : Rand (list Agent.t * list Food.t) :=
  let agentCount := Z.of_nat (length agents_) in
  if agentCount <=? 20
  then processAgents (λ _, true) zones_ obstacles_ movementMultiplier 0 agents_ foods_
  else processAgents (inBatch tickCount_ agentCount) zones_ obstacles_
         movementMultiplier 0 agents_ foods_.

(** The fitness loop of [update]. *)
Definition trackFitness (agents_ : list Agent.t)
    (trackers : LineageTracker.t * SpeciesManager.t)
  : LineageTracker.t * SpeciesManager.t :=
  fold_left
    (λ tr agent,
       (LineageTracker.updateFitness tr.1 (Agent.id agent) (Agent.fitness agent),
        match Agent.species agent with
        | Some k =>
            SpeciesManager.mk
              (alter (λ sp, Species.updateFitness sp (Agent.fitness agent)) k
                 (SpeciesManager.species tr.2))
              (SpeciesManager.nextSpeciesId tr.2)
              (SpeciesManager.currentGeneration tr.2)
        | None => tr.2
        end))
    agents_ trackers.

(** The loop that seeds a fresh population ([reset] and total extinction). *)
Fixpoint seedAgents (count : nat)
    (st : list Agent.t * LineageTracker.t * SpeciesManager.t)
  : Rand (list Agent.t * LineageTracker.t * SpeciesManager.t) :=
  match count with
  | O => ret st
  | S count' =>
      let '(agents_, lt, sm) := st in
      do ux <- Math_random;
      do uy <- Math_random;
      let position := createVector (ux * worldWidth) (uy * worldHeight) in
      do agent <- Agent.new position None 0;
      let '(lt, id_) := LineageTracker.registerBirth lt [] 0 in
      let agent := Agent.withId agent id_ in
      do '(sm, sp) <- SpeciesManager.assignSpecies sm (Agent.genome agent) (Agent.id agent);
      seedAgents count' (agents_ ++ [Agent.withSpecies agent (Some sp)], lt, sm)
  end.

(** One iteration of the offspring loop: [survivors] is the array whose
    objects [reproduce] mutates, [offspring] the agents pushed so far. *)
Definition breedOne (generation_ : Z)
    (st : list Agent.t * list Agent.t * LineageTracker.t * SpeciesManager.t)
  : Rand (list Agent.t * list Agent.t * LineageTracker.t * SpeciesManager.t) :=
  let '(survivors, offspring, lt, sm) := st in
  do parentIndex <- randomIndex (length survivors);
  do u <- Math_random;
  do partnerIndex <-
    (if (u <? 7 # 10)%Q && (1 <? length survivors)%nat
     then λ tape, match pickOtherIndex (length survivors) parentIndex tape with
                  | Returns k rest => Returns (Some k) rest
                  | Throws e => Throws e
                  end
     else ret None);
  match Array_get survivors parentIndex with
  | None => throw TypeError
  | Some parent =>
      let partner := partnerIndex ≫= Array_get survivors in
      λ tape,
        let '((parent', partner'), child) :=
          Agent.reproduce generation_ parent partner tape in
        match child with
        | Throws e => Throws e
        | Returns child rest =>
            let survivors := <[Z.to_nat parentIndex := parent']> survivors in
            let survivors :=
              match partnerIndex, partner' with
              | Some k, Some p' => <[Z.to_nat k := p']> survivors
              | _, _ => survivors
              end in
            let '(lt, id_) :=
              LineageTracker.registerBirth lt
                (match partner with
                 | Some p => [Agent.id parent; Agent.id p]
                 | None => [Agent.id parent]
                 end) 0 in
            let child := Agent.withId child id_ in
            (do '(sm, sp) <-
               SpeciesManager.assignSpecies sm (Agent.genome child) (Agent.id child);
             ret (survivors, offspring ++ [Agent.withSpecies child (Some sp)], lt, sm))
              rest
        end
  end.

(** [while (newAgents.length < config.initialAgentCount)]: every iteration
    pushes one agent, so [missing] iterations fill the roster. *)
Fixpoint breed (generation_ : Z) (missing : nat)
    (st : list Agent.t * list Agent.t * LineageTracker.t * SpeciesManager.t)
  : Rand (list Agent.t * list Agent.t * LineageTracker.t * SpeciesManager.t) :=
  match missing with
  | O => ret st
  | S missing' => do st' <- breedOne generation_ st; breed generation_ missing' st'
  end.

(** [sortedAgents.slice(0, Math.ceil(sortedAgents.length / 4))] of the
    roster sorted by [(a, b) => b.fitness - a.fitness]. *)
Definition sortByFitness (agents_ : list Agent.t) : list Agent.t :=
  Array_sort (λ a b, (Agent.fitness b - Agent.fitness a)%Q) agents_.

Definition selectSurvivors (agents_ : list Agent.t) : list Agent.t :=
  let sortedAgents := sortByFitness agents_ in
  Array_slice sortedAgents 0 (Z.of_nat (ceilDiv4 (length sortedAgents))).

Definition startNewGeneration (s : t) : Rand t :=
  let generation_ := generation s + 1 in
  let sm := SpeciesManager.advanceGeneration (speciesManager s) in
  let lt := LineageTracker.advanceGeneration (lineageTracker s) in
  do '(agents_, lt, sm) <-
    (match agents s with
     | [] => seedAgents initialAgentCount ([], lt, sm)
     | _ =>
         let survivors := selectSurvivors (agents s) in
         do '(survivors, offspring, lt, sm) <-
           breed generation_ (initialAgentCount - length survivors)
             (survivors, [], lt, sm);
         ret (survivors ++ offspring, lt, sm)
     end);
  do foods_ <- spawnFood initialFoodCount [];
  ret {| generation := generation_;
         tickCount := 0;
         agents := agents_;
         foods := foods_;
         obstacles := obstacles s;
         zones := zones s;
         environmentCycle := environmentCycle s;
         speciesManager := sm;
         lineageTracker := lt;
         deadAgents := deadAgents s |}.

Definition checkGenerationEnd (s : t) : Rand t :=
  if bool_decide (agents s = []) || (1000 <=? tickCount s)
  then startNewGeneration s
  else ret s.

(** [update()]: one tick. *)
Definition update (s : t) : Rand t :=
  let tickCount_ := tickCount s + 1 in
  let lt := LineageTracker.updateTick (lineageTracker s) tickCount_ in
  let cycle := EnvironmentCycle.update (environmentCycle s) in
  let movementMultiplier := EnvironmentCycle.getMovementMultiplier cycle in
  do '(agents_, foods_) <-
    updateAgents tickCount_ (zones s) (obstacles s) movementMultiplier
      (agents s) (foods s);
  let foods_ := map Food.update foods_ in
  let consumedCount := length (List.filter Food.isConsumed foods_) in
  do foods_ <-
    (if (0 <? consumedCount)%nat
     then
       do spawned <- spawnFood consumedCount foods_;
       ret (List.filter (λ food, negb (Food.isConsumed food)) spawned)
     else ret foods_);
  let '(lt, sm) := trackFitness agents_ (lt, speciesManager s) in
  let deadAgents_ := List.filter Agent.dead agents_ in
  let lt :=
    fold_left
      (λ lt agent,
         LineageTracker.registerDeath lt (Agent.id agent) (Agent.fitness agent))
      deadAgents_ lt in
  let agents_ := List.filter (λ agent, negb (Agent.dead agent)) agents_ in
  checkGenerationEnd
    {| generation := generation s;
       tickCount := tickCount_;
       agents := agents_;
       foods := foods_;
       obstacles := obstacles s;
       zones := zones s;
       environmentCycle := cycle;
       speciesManager := sm;
       lineageTracker := lt;
       deadAgents := deadAgents_ |}.
End Tick.
End Simulation.

(** ** Instances for the examples *)

(** A rational stand-in for [Math]: the square root is exact on the squares
    of rationals (and rounds down elsewhere); the examples below never reach
    the logarithm and the cosine. *)
Definition rationalMath : MathLib := {|
  Math_sqrt q := Z.sqrt (Qnum q * Z.pos (Qden q)) # Qden q;
  Math_log _ := 0%Q;
  Math_cos _ := 1%Q;
  Math_PI := 355 # 113
|}.

(** An evaluator that answers one half on every output. *)
Definition steadyEvaluator : NeuralEvaluator := {|
  predict _ _ := [1 # 2; 1 # 2; 1 # 2]
|}.

(** An agent as the constructor leaves it, at a given place. *)
Definition restingAgent (px py energy_ : Q) : Agent.t := {|
  Agent.position := createVector px py;
  Agent.velocity := createVector 0 0;
  Agent.acceleration := createVector 0 0;
  Agent.size := 10;
  Agent.energy := energy_;
  Agent.genome := Genome.mk [] (5 # 100);
  Agent.brain := [];
  Agent.age := 0;
  Agent.dead := false;
  Agent.fitness := 0;
  Agent.color := 65280;
  Agent.metabolismMultiplier := 1;
  Agent.id := 1;
  Agent.species := None;
  Agent.parentIds := []
|}.

(** A ledger with three births: 1, then 2 born of 1, then 3 born of 1
    and 2. *)
Definition exampleLedger : LineageTracker.t :=
  let lt := (LineageTracker.registerBirth LineageTracker.new [] 0).1 in
  let lt := (LineageTracker.registerBirth lt [1] 0).1 in
  (LineageTracker.registerBirth lt [1; 2] 0).1.

(** A genome of two weights with the default rate. *)
Definition exampleGenome : Genome.t := Genome.mk [1; 2]%Q (5 # 100).

(** Every record of the ledger sits below the id counter. *)
Definition issuedBelowCounter (lt : LineageTracker.t) : Prop :=
  ∀ k r, LineageTracker.ancestryRecords lt !! k = Some r → k < LineageTracker.nextAgentId lt.

(** A species founded by the agent [id_] on the weights [ws]. *)
Definition speciesAt (id_ : Z) (ws : list Q) : Species.t := {|
  Species.id := id_;
  Species.name := "Species-" +:+ pretty id_;
  Species.members := [id_];
  Species.representative := Genome.mk ws (5 # 100);
  Species.color := "hsl(0, 70%, 60%)";
  Species.creationGeneration := 1;
  Species.lastImprovedGeneration := 1;
  Species.bestFitness := 0
|}.

(** A manager with three species, the last two close to each other. *)
Definition exampleManager : SpeciesManager.t :=
  SpeciesManager.mk
    [speciesAt 1 [0; 0]%Q; speciesAt 2 [10; 0]%Q; speciesAt 3 [10; 1]%Q] 4 1.

(** [geneticDistance] of [genome] to the representative of [s] returns [d]. *)
Definition distanceIs `{MathLib} (genome : Genome.t) (s : Species.t) (d : Q) : Prop :=
  ∀ tape, geneticDistance genome (Species.representative s) tape = Returns d tape.

(** The ids of the species array are below the counter and pairwise distinct. *)
Definition speciesIdsUnique (sm : SpeciesManager.t) : Prop :=
  SpeciesManager.idsBelowNext sm ∧ NoDup (map Species.id (SpeciesManager.species sm)).

(** [reachable records p a]: the record [a] is filed under [p] or under an
    id that a chain of [parentIds] leads to from [p]. *)
Inductive reachable (records : gmap Z AgentAncestry.t) : Z → AgentAncestry.t → Prop :=
  | reach_here p r :
      records !! p = Some r → reachable records p r
  | reach_up p r p' a :
      records !! p = Some r →
      p' ∈ AgentAncestry.parentIds r →
      reachable records p' a →
      reachable records p a.

(** The records of the parents of [k], of their parents, and so on. *)
Definition isAncestor (records : gmap Z AgentAncestry.t) (k : Z) (a : AgentAncestry.t)
  : Prop :=
  ∃ r p, records !! k = Some r ∧ p ∈ AgentAncestry.parentIds r ∧ reachable records p a.

(** Every weight of [child] is the weight of [w1] or of [w2] at the same
    position, and [child] is as long as [w1]. *)
Definition genesFromParents (w1 w2 child : list Q) : Prop :=
  length child = length w1
  ∧ ∀ i g, child !! i = Some g → w1 !! i = Some g ∨ w2 !! i = Some g.

(** A tape all of whose values are draws of [Math.random()]. *)
Definition validTape (tape : Tape) : Prop := Forall (λ u, validDraw u = true) tape.



(** An agent as it enters the roster of a new generation: fresh from the
    constructor, with parents among [parentPool] and with its birth on
    record in the ledger [lt']. *)
Definition registeredNewcomer `{Config} (parentPool : list Z) (lt' : LineageTracker.t)
    (birthGeneration birthTick : Z) (a : Agent.t) : Prop :=
  Agent.dead a = false
  ∧ Agent.age a = 0
  ∧ Agent.energy a = (agentMaxEnergy / 2)%Q
  ∧ length (Genome.weights (Agent.genome a)) = Agent.expectedWeights
  ∧ Forall (λ parentId, parentId ∈ parentPool) (Agent.parentIds a)
  ∧ LineageTracker.ancestryRecords lt' !! Agent.id a
    = Some (AgentAncestry.mk (Agent.id a) (Agent.parentIds a) birthGeneration 0
              birthTick None 0).



(** ** utils/spatial-grid.ts *)

(** [SpatialGrid<T extends { position: Vector2D }>]. The key of a cell, the
    string made of its two integer coordinates, is kept as the pair of the
    coordinates. *)
Module SpatialGrid.
Section Grid.
Context {T : Type} (position : T → Vector2D.t).

Record t : Type := mk { cells : gmap (Z * Z) (list T); cellSize : Q }.

(** [constructor(cellSize = 50)]. *)
Definition new (cellSize_ : option Q) : t := mk ∅ (default 50%Q cellSize_).

Definition getCellKey (g : t) (x y : Q) : Z * Z :=
  let cellX := Qfloor (x / cellSize g) in
  let cellY := Qfloor (y / cellSize g) in
  (cellX, cellY).

(** [this.cells.get(key)], where a missing cell holds nothing. *)
Definition cellAt (g : t) (key : Z * Z) : list T := default [] (cells g !! key).

Definition insert (g : t) (item : T) : t :=
  let key := getCellKey g (Vector2D.x (position item)) (Vector2D.y (position item)) in
  mk (<[key := cellAt g key ++ [item]]> (cells g)) (cellSize g).


(** [for (let c = min; c <= max; c++)]. *)
Definition cellRange (min max : Z) : list Z := seqZ min (max - min + 1).

Definition getNearby (g : t) (position_ : Vector2D.t) (radius : Q) : list T :=
  let minCellX := Qfloor ((Vector2D.x position_ - radius) / cellSize g) in
  let maxCellX := Qfloor ((Vector2D.x position_ + radius) / cellSize g) in
  let minCellY := Qfloor ((Vector2D.y position_ - radius) / cellSize g) in
  let maxCellY := Qfloor ((Vector2D.y position_ + radius) / cellSize g) in
  flat_map
    (λ cellX, flat_map (λ cellY, cellAt g (cellX, cellY)) (cellRange minCellY maxCellY))
    (cellRange minCellX maxCellX).

(** The grid after the items of a list have been inserted in order. *)
Definition insertAll (g : t) (items : list T) : t := fold_left insert items g.
End Grid.
End SpatialGrid.

(** ** core/time.ts *)

(** [TimeController]: the callbacks act on a state of type [S];
    [performance.now()] and the frames of [requestAnimationFrame] come from
    outside, as the argument of [start] and of [loop]. *)
Module TimeController.
Section Controller.
Context {S : Type} (tickRate simulationSpeed : Q).

Record t : Type := mk {
  lastTime : Q;
  accumulator : Q;
  running : bool;
  tickCallbacks : list (S → S);
  renderCallbacks : list (S → S)
}.


Definition new : t := mk 0 0 false [] [].

Definition start (c : t) (now : Q) : t :=
  if running c then c
  else mk now (accumulator c) true (tickCallbacks c) (renderCallbacks c).

Definition pause (c : t) : t :=
  mk (lastTime c) (accumulator c) false (tickCallbacks c) (renderCallbacks c).

Definition onTick (c : t) (callback : S → S) : t :=
  mk (lastTime c) (accumulator c) (running c) (tickCallbacks c ++ [callback])
     (renderCallbacks c).

Definition onRender (c : t) (callback : S → S) : t :=
  mk (lastTime c) (accumulator c) (running c) (tickCallbacks c)
     (renderCallbacks c ++ [callback]).



End Controller.
End TimeController.

(* ================================================================== *)
(** * Part II: the properties                                          *)
(* ================================================================== *)
(* ================================================================== *)

(** ** Order on rationals, as booleans *)

Lemma Qltb_lt (a b : Q) : (a <? b)%Q = true ↔ (a < b)%Q.
Proof.
  unfold Qltb. rewrite negb_true_iff, <- not_true_iff_false, Qle_bool_iff.
  split; [apply Qnot_le_lt | apply Qlt_not_le].
Qed.

Lemma Qltb_ge (a b : Q) : (a <? b)%Q = false ↔ (b <= a)%Q.
Proof.
  unfold Qltb. rewrite negb_false_iff. apply Qle_bool_iff.
Qed.

Lemma Qgtb_gt (a b : Q) : (a >? b)%Q = true ↔ (b < a)%Q.
Proof. apply Qltb_lt. Qed.

Lemma Qgtb_le (a b : Q) : (a >? b)%Q = false ↔ (a <= b)%Q.
Proof. apply Qltb_ge. Qed.

Lemma Qleb_gt (a b : Q) : (a <=? b)%Q = false ↔ (b < a)%Q.
Proof.
  rewrite <- not_true_iff_false, Qle_bool_iff.
  split; [apply Qnot_le_lt | apply Qlt_not_le].
Qed.

(** ** The batch window of a tick (core/sim.ts, [update]) *)

Section BatchWindow.
Import Simulation.

Lemma receivesFullUpdate_window tick agentCount i :
  20 < agentCount → 0 <= tick →
  receivesFullUpdate tick agentCount i = true ↔
  (tick * 10) mod agentCount <= i
  < Z.min ((tick * 10) mod agentCount + 10) agentCount.
Proof.
  intros HN Ht. unfold receivesFullUpdate, inBatch, batchWindow, agentBatchSize.
  destruct (Z.leb_spec agentCount 20); [lia|]. simpl.
  rewrite Z.rem_mod_nonneg by lia.
  rewrite andb_true_iff, Z.leb_le, Z.ltb_lt. tauto.
Qed.

Lemma rotationPeriod_pos agentCount : 20 < agentCount → 0 < rotationPeriod agentCount.
Proof.
  intros HN. unfold rotationPeriod, agentBatchSize.
  pose proof (Z.gcd_nonneg agentCount 10) as Hg0.
  destruct (Z.gcd_divide_l agentCount 10) as [P HP].
  assert (Z.gcd agentCount 10 <> 0) by (intros E; apply Z.gcd_eq_0 in E; lia).
  rewrite HP at 1. rewrite Z.div_mul by done. nia.
Qed.

(** Among [rotationPeriod] consecutive ticks one starts its batch at the
    multiple of [gcd agentCount 10] just below [i]. *)
Lemma window_reaches_every_index agentCount i firstTick :
  20 < agentCount → 0 <= i < agentCount → 0 <= firstTick →
  ∃ tick, firstTick <= tick < firstTick + rotationPeriod agentCount
          ∧ receivesFullUpdate tick agentCount i = true.
Proof.
  intros HN Hi Ht0.
  pose proof (rotationPeriod_pos agentCount HN) as HPpos.
  unfold rotationPeriod, agentBatchSize in *.
  set (g := Z.gcd agentCount 10) in *.
  assert (Hg0 : 0 <= g) by apply Z.gcd_nonneg.
  assert (Hgne : g <> 0) by (intros E; apply Z.gcd_eq_0 in E; lia).
  destruct (Z.gcd_divide_l agentCount 10) as [P HP]. fold g in HP.
  destruct (Z.gcd_divide_r agentCount 10) as [d Hd]. fold g in Hd.
  assert (HPeq : agentCount / g = P) by (rewrite HP; apply Z.div_mul; done).
  rewrite HPeq in *.
  destruct (Z.gcd_bezout agentCount 10 g eq_refl) as [v [u Hbez]].
  assert (Hud : u * d + v * P = 1).
  { apply (Z.mul_cancel_r _ _ g); [done|].
    transitivity (v * (P * g) + u * (d * g)); [ring|]. rewrite <- HP, <- Hd. lia. }
  set (c := i / g).
  set (k := (u * c - firstTick) / P).
  set (tick := firstTick + (u * c - firstTick) mod P).
  assert (Htk : tick = u * c - P * k).
  { unfold tick, k. rewrite Z.mod_eq by lia. lia. }
  assert (Hrange : 0 <= (u * c - firstTick) mod P < P) by (apply Z.mod_pos_bound; lia).
  exists tick. split; [unfold tick; lia|].
  apply receivesFullUpdate_window; [lia | unfold tick; lia |].
  assert (Hg10 : g <= 10).
  { apply Z.divide_pos_le; [lia|]. apply Z.gcd_divide_r. }
  assert (Hc : g * c <= i < g * c + g).
  { unfold c. pose proof (Z.mul_div_le i g) as H1.
    pose proof (Z.mul_succ_div_gt i g) as H2. lia. }
  assert (Hc0 : 0 <= g * c).
  { apply Z.mul_nonneg_nonneg; [done|]. apply Z.div_pos; lia. }
  assert (Hs : (tick * 10) mod agentCount = g * c).
  { symmetry. apply (Z.mod_unique_pos _ _ (c * v * (-1) - d * k)); [lia|].
    rewrite Htk.
    transitivity (g * c * (u * d) - (g * P) * (d * k)); [rewrite Hd; ring|].
    replace (u * d) with (1 - v * P) by lia. rewrite HP. ring. }
  rewrite Hs. lia.
Qed.

Lemma fullUpdateCount_split agentCount i firstTick (m n : nat) :
  fullUpdateCount agentCount i firstTick (m + n)
  = (fullUpdateCount agentCount i firstTick m
     + fullUpdateCount agentCount i (firstTick + Z.of_nat m) n)%nat.
Proof.
  unfold fullUpdateCount.
  rewrite Nat2Z.inj_add, seqZ_app by lia.
  rewrite List.filter_app, length_app. done.
Qed.

Lemma fullUpdateCount_positive agentCount i firstTick (n : nat) tick :
  firstTick <= tick < firstTick + Z.of_nat n →
  receivesFullUpdate tick agentCount i = true →
  (1 <= fullUpdateCount agentCount i firstTick n)%nat.
Proof.
  intros Hin Hfull. unfold fullUpdateCount.
  assert (Hel : In tick (List.filter (λ t, receivesFullUpdate t agentCount i)
                           (seqZ firstTick (Z.of_nat n)))).
  { apply List.filter_In. split; [|done].
    apply list_elem_of_In, elem_of_seqZ. lia. }
  destruct (List.filter _ _); [destruct Hel | simpl; lia].
Qed.

Lemma fullUpdateCount_blocks agentCount i (k : nat) :
  20 < agentCount → 0 <= i < agentCount →
  ∀ firstTick (ticks : nat), 0 <= firstTick →
    Z.of_nat k * rotationPeriod agentCount <= Z.of_nat ticks →
    (k <= fullUpdateCount agentCount i firstTick ticks)%nat.
Proof.
  intros HN Hi. pose proof (rotationPeriod_pos agentCount HN) as HP.
  induction k as [|k IH]; intros firstTick ticks Ht0 Hlen; [lia|].
  set (p := Z.to_nat (rotationPeriod agentCount)).
  assert (Hp : Z.of_nat p = rotationPeriod agentCount) by (unfold p; lia).
  replace ticks with (p + (ticks - p))%nat by lia.
  rewrite fullUpdateCount_split.
  destruct (window_reaches_every_index agentCount i firstTick HN Hi Ht0)
    as (tick & Hrange & Hfull).
  pose proof (fullUpdateCount_positive agentCount i firstTick p tick
                ltac:(lia) Hfull) as H1.
  pose proof (IH (firstTick + Z.of_nat p) (ticks - p)%nat ltac:(lia) ltac:(lia)) as H2.
  lia.
Qed.
End BatchWindow.

(** C1 (amended). With more than 20 agents the full-update window of tick
    [t] is the index range from [(t * 10) mod N] up to
    [min ((t * 10) mod N + 10, N)]; every index lies in the window of at
    least one tick of any [N / gcd (N, 10)] consecutive ticks, and so is
    fully updated at least [floor (M / (N / gcd (N, 10)))] times in [M]
    consecutive ticks. *)
Theorem batch_fairness_rotation (agentCount i firstTick : Z) (ticks : nat) :
  20 < agentCount → 0 <= i < agentCount → 0 <= firstTick →
  (∀ tick, 0 <= tick →
     Simulation.receivesFullUpdate tick agentCount i = true ↔
     (tick * 10) mod agentCount <= i
     < Z.min ((tick * 10) mod agentCount + 10) agentCount)
  ∧ (∃ tick, firstTick <= tick < firstTick + Simulation.rotationPeriod agentCount
             ∧ Simulation.receivesFullUpdate tick agentCount i = true)
  ∧ Z.of_nat ticks / Simulation.rotationPeriod agentCount
    <= Z.of_nat (Simulation.fullUpdateCount agentCount i firstTick ticks).
Proof.
  intros HN Hi Ht0. split; [|split].
  - intros tick Ht. by apply receivesFullUpdate_window.
  - by apply window_reaches_every_index.
  - pose proof (rotationPeriod_pos agentCount HN) as HP.
    set (k := Z.to_nat (Z.of_nat ticks / Simulation.rotationPeriod agentCount)).
    assert (Hk0 : 0 <= Z.of_nat ticks / Simulation.rotationPeriod agentCount)
      by (apply Z.div_pos; lia).
    assert (Hk : Z.of_nat k = Z.of_nat ticks / Simulation.rotationPeriod agentCount)
      by (unfold k; lia).
    rewrite <- Hk. apply inj_le.
    apply fullUpdateCount_blocks; [done..|].
    rewrite Hk, Z.mul_comm. apply Z.mul_div_le. done.
Qed.

Lemma batch_fairness_rotation_witness :
  (∃ tick, 1 <= tick < 1 + Simulation.rotationPeriod 25
           ∧ Simulation.receivesFullUpdate tick 25 0 = true)
  ∧ 7 / Simulation.rotationPeriod 25
    <= Z.of_nat (Simulation.fullUpdateCount 25 0 1 7).
Proof.
  exact (proj2 (batch_fairness_rotation 25 0 1 7 ltac:(lia) ltac:(lia) ltac:(lia))).
Defined.

(** C1 as stated fails: with 25 agents, index 0 is in none of the windows
    of ticks 1, 2 and 3, although [ceil (25 / 10) = 3]. *)
Lemma batch_fairness_ceil_fails :
  ¬ (∀ (agentCount i firstTick : Z) (ticks : nat),
       20 < agentCount → 0 <= i < agentCount → 1 <= firstTick →
       Z.of_nat ticks / ((agentCount + 9) / 10)
       <= Z.of_nat (Simulation.fullUpdateCount agentCount i firstTick ticks)).
Proof.
  intros Hclaim.
  specialize (Hclaim 25 0 1 3%nat ltac:(lia) ltac:(lia) ltac:(lia)).
  vm_compute in Hclaim. by apply Hclaim.
Qed.

(** ** The wrap at the world's edges (entities/agent.ts, [updatePhysics]) *)

Section Wrap.
Context `{MathLib} `{Config}.

Lemma wrapAround_boundary (c bound : Q) :
  (c == bound)%Q → (Agent.wrapAround c bound == bound)%Q.
Proof.
  intros Hc. unfold Agent.wrapAround.
  destruct (c <? 0)%Q.
  - destruct (bound >? bound)%Q eqn:E; [|reflexivity].
    apply Qgtb_gt in E. lra.
  - destruct (c >? bound)%Q eqn:E; [|done].
    apply Qgtb_gt in E. lra.
Qed.

Lemma wrapAround_above (c bound : Q) :
  (0 <= bound)%Q → (bound < c)%Q → Agent.wrapAround c bound = 0%Q.
Proof.
  intros Hb Hc. unfold Agent.wrapAround.
  destruct (c <? 0)%Q eqn:E1; [apply Qltb_lt in E1; lra|].
  destruct (c >? bound)%Q eqn:E2; [done|]. apply Qgtb_le in E2. lra.
Qed.

Lemma wrapAround_below (c bound : Q) :
  (c < 0)%Q → Agent.wrapAround c bound = bound.
Proof.
  intros Hc. unfold Agent.wrapAround.
  apply Qltb_lt in Hc. rewrite Hc.
  destruct (bound >? bound)%Q eqn:E; [|done]. apply Qgtb_gt in E. lra.
Qed.

Lemma wrapAround_inside (c bound : Q) :
  (0 <= c)%Q → (c <= bound)%Q → Agent.wrapAround c bound = c.
Proof.
  intros Hlo Hb. unfold Agent.wrapAround.
  apply Qltb_ge in Hlo. rewrite Hlo. apply Qgtb_le in Hb. by rewrite Hb.
Qed.

Lemma updatePhysics_position (a : Agent.t) (movementMultiplier : Q) :
  Agent.position (Agent.updatePhysics a movementMultiplier)
  = Vector2D.mk
      (Agent.wrapAround (Vector2D.x (Agent.integratedPosition a movementMultiplier))
         worldWidth)
      (Agent.wrapAround (Vector2D.y (Agent.integratedPosition a movementMultiplier))
         worldHeight).
Proof. reflexivity. Qed.
End Wrap.

(** C2 (amended). After the integration step of [updatePhysics], a
    coordinate that equals the world's bound stays at the bound (the tests
    are strict), a coordinate strictly above the bound is mapped to 0, a
    negative coordinate is mapped to the bound, and a coordinate within the
    bounds is kept; the same on both axes. *)
Theorem toroidal_wrap_strict `{MathLib} `{Config} (a : Agent.t) (movementMultiplier : Q) :
  let p := Agent.integratedPosition a movementMultiplier in
  let p' := Agent.position (Agent.updatePhysics a movementMultiplier) in
  ((Vector2D.x p == worldWidth)%Q → (Vector2D.x p' == worldWidth)%Q)
  ∧ ((0 <= worldWidth)%Q → (worldWidth < Vector2D.x p)%Q → Vector2D.x p' = 0%Q)
  ∧ ((Vector2D.x p < 0)%Q → Vector2D.x p' = worldWidth)
  ∧ ((0 <= Vector2D.x p)%Q → (Vector2D.x p <= worldWidth)%Q → Vector2D.x p' = Vector2D.x p)
  ∧ ((Vector2D.y p == worldHeight)%Q → (Vector2D.y p' == worldHeight)%Q)
  ∧ ((0 <= worldHeight)%Q → (worldHeight < Vector2D.y p)%Q → Vector2D.y p' = 0%Q)
  ∧ ((Vector2D.y p < 0)%Q → Vector2D.y p' = worldHeight)
  ∧ ((0 <= Vector2D.y p)%Q → (Vector2D.y p <= worldHeight)%Q → Vector2D.y p' = Vector2D.y p).
Proof.
  intros p p'. subst p p'. rewrite updatePhysics_position. simpl.
  repeat split.
  - apply wrapAround_boundary.
  - apply wrapAround_above.
  - apply wrapAround_below.
  - apply wrapAround_inside.
  - apply wrapAround_boundary.
  - apply wrapAround_above.
  - apply wrapAround_below.
  - apply wrapAround_inside.
Qed.

(** An agent at rest on the right edge, one beyond it and one left of the
    left edge, in the world of [cfg.ts]. *)
Lemma toroidal_wrap_strict_witness :
  (Vector2D.x (Agent.position
     (@Agent.updatePhysics rationalMath config (restingAgent 800 300 50) 1)) == 800)%Q
  ∧ Vector2D.x (Agent.position
      (@Agent.updatePhysics rationalMath config (restingAgent 801 300 50) 1)) = 0%Q
  ∧ Vector2D.x (Agent.position
      (@Agent.updatePhysics rationalMath config (restingAgent (-1) 300 50) 1)) = 800%Q.
Proof.
  split; [|split].
  - apply (proj1 (@toroidal_wrap_strict rationalMath config (restingAgent 800 300 50) 1)).
    vm_compute. done.
  - apply (proj1 (proj2 (@toroidal_wrap_strict rationalMath config
                           (restingAgent 801 300 50) 1))); vm_compute; done.
  - apply (proj1 (proj2 (proj2 (@toroidal_wrap_strict rationalMath config
                                  (restingAgent (-1) 300 50) 1)))); vm_compute; done.
Defined.

(** C2 as stated fails: an agent at rest at [x = worldWidth = 800] is still
    at [x = 800] after [updatePhysics], not at 0. *)
Lemma toroidal_wrap_boundary_fails :
  ¬ (∀ (M : MathLib) (C : Config) (a : Agent.t) (movementMultiplier : Q),
       (Vector2D.x (Agent.integratedPosition a movementMultiplier) == worldWidth)%Q →
       (Vector2D.x (Agent.position (Agent.updatePhysics a movementMultiplier)) == 0)%Q).
Proof.
  intros Hclaim.
  specialize (Hclaim rationalMath config (restingAgent 800 300 50) 1%Q).
  vm_compute in Hclaim. specialize (Hclaim eq_refl). discriminate Hclaim.
Qed.

(** ** The ancestry ledger (evolution/lineage.ts) *)

Section Lineage.
Import LineageTracker.

(** [keyedById] is an invariant of the class: the constructor establishes
    it and every method keeps it. *)
Lemma keyedById_new : keyedById new.
Proof. intros k r Hk. simpl in Hk. by rewrite lookup_empty in Hk. Qed.

Lemma keyedById_insert (lt : t) (r : AgentAncestry.t) :
  keyedById lt →
  keyedById (withRecords lt (<[AgentAncestry.id r := r]> (ancestryRecords lt))).
Proof.
  intros Hkeyed k r' Hk. simpl in Hk.
  destruct (decide (AgentAncestry.id r = k)) as [<-|Hne].
  - rewrite lookup_insert_eq in Hk. by inversion Hk.
  - rewrite lookup_insert_ne in Hk by done. by apply Hkeyed.
Qed.

Lemma keyedById_registerBirth (lt : t) parentIds speciesId :
  keyedById lt → keyedById (registerBirth lt parentIds speciesId).1.
Proof.
  intros Hkeyed k r Hk. simpl in Hk.
  destruct (decide (nextAgentId lt = k)) as [<-|Hne].
  - rewrite lookup_insert_eq in Hk. by inversion Hk.
  - rewrite lookup_insert_ne in Hk by done. by apply Hkeyed.
Qed.

Lemma keyedById_registerDeath (lt : t) agentId finalFitness :
  keyedById lt → keyedById (registerDeath lt agentId finalFitness).
Proof.
  intros Hkeyed. unfold registerDeath.
  destruct (ancestryRecords lt !! agentId) as [record|] eqn:Hrec; [|done].
  intros k r Hk. simpl in Hk.
  destruct (decide (agentId = k)) as [<-|Hne].
  - rewrite lookup_insert_eq in Hk. inversion Hk. simpl. by apply Hkeyed.
  - rewrite lookup_insert_ne in Hk by done. by apply Hkeyed.
Qed.

Lemma keyedById_updateFitness (lt : t) agentId fitness :
  keyedById lt → keyedById (updateFitness lt agentId fitness).
Proof.
  intros Hkeyed. unfold updateFitness.
  destruct (ancestryRecords lt !! agentId) as [record|] eqn:Hrec; [|done].
  intros k r Hk. simpl in Hk.
  destruct (decide (agentId = k)) as [<-|Hne].
  - rewrite lookup_insert_eq in Hk. inversion Hk. simpl. by apply Hkeyed.
  - rewrite lookup_insert_ne in Hk by done. by apply Hkeyed.
Qed.

Lemma keyedById_addRecordDirect (lt : t) record :
  keyedById lt → keyedById (addRecordDirect lt record).
Proof. apply keyedById_insert. Qed.

Lemma keyedById_clearAllRecords (lt : t) : keyedById (clearAllRecords lt).
Proof. intros k r Hk. simpl in Hk. by rewrite lookup_empty in Hk. Qed.

(** The ids of a finite map of records are bounded below. *)
Lemma records_lower_bound (records : gmap Z AgentAncestry.t) :
  ∃ lb, ∀ k r, records !! k = Some r → lb <= k.
Proof.
  induction records as [|k r records Hfresh _ [lb Hlb]] using map_first_key_ind.
  - exists 0. intros k r Hk. by rewrite lookup_empty in Hk.
  - exists (Z.min lb k). intros k' r' Hk'.
    destruct (decide (k = k')) as [<-|Hne]; [lia|].
    rewrite lookup_insert_ne in Hk' by done.
    specialize (Hlb k' r' Hk'). lia.
Qed.

Lemma QueueCost_app records q1 q2 n1 n2 :
  QueueCost records q1 n1 → QueueCost records q2 n2 →
  QueueCost records (q1 ++ q2) (n1 + n2).
Proof.
  intros H1 H2. induction H1 as [|p queue n Hp _ IH|p r queue m n Hp Hm _ _ IH]; simpl.
  - done.
  - by apply cost_unknown.
  - replace (S (m + n + n2)) with (S (m + (n + n2))) by lia.
    by eapply cost_record.
Qed.

Section Invariants.
Variable lt : t.
Hypothesis Hkeyed : keyedById lt.
Hypothesis Hbelow : parentsBelow lt.

(** Under the two invariants every queue has a cost. *)
Lemma every_id_has_cost (p : Z) : ∃ n, QueueCost (ancestryRecords lt) [p] n.
Proof.
  destruct (records_lower_bound (ancestryRecords lt)) as [lb Hlb].
  induction (Z.lt_wf lb p) as [p _ IH].
  destruct (ancestryRecords lt !! p) as [r|] eqn:Hrec.
  - assert (Hparents : ∃ m, QueueCost (ancestryRecords lt) (AgentAncestry.parentIds r) m).
    { pose proof (Hbelow p r Hrec) as Hlt.
      rewrite (Hkeyed p r Hrec) in Hlt.
      induction Hlt as [|p' ps Hp' _ IHps].
      - exists O. constructor.
      - destruct IHps as [m Hm].
        assert (Hone : ∃ n, QueueCost (ancestryRecords lt) [p'] n).
        { destruct (ancestryRecords lt !! p') as [r'|] eqn:Hrec'.
          - apply IH. split; [by eapply Hlb | done].
          - exists 1%nat. apply cost_unknown; [done | constructor]. }
        destruct Hone as [n Hn]. exists (n + m)%nat.
        by apply (QueueCost_app _ [p'] ps). }
    destruct Hparents as [m Hm]. exists (S (m + 0)).
    eapply cost_record; [done.. | constructor].
  - exists 1%nat. apply cost_unknown; [done | constructor].
Qed.

Lemma every_queue_has_cost (queue : list Z) :
  ∃ n, QueueCost (ancestryRecords lt) queue n.
Proof.
  induction queue as [|p queue [n Hn]]; [exists O; constructor|].
  destruct (every_id_has_cost p) as [m Hm]. exists (m + n)%nat.
  by apply (QueueCost_app _ [p] queue).
Qed.

(** With fuel for its cost the loop empties the queue; records reached from
    ids below [bound] have ids below [bound]. *)
Lemma walkQueue_terminates (n : nat) :
  ∀ queue ancestors bound,
    QueueCost (ancestryRecords lt) queue n →
    Forall (λ p, p < bound) queue →
    Forall (λ r, AgentAncestry.id r < bound) ancestors →
    ∃ result,
      (∀ fuel, (n <= fuel)%nat →
         walkQueue (ancestryRecords lt) fuel queue ancestors = Some result)
      ∧ Forall (λ r, AgentAncestry.id r < bound) result.
Proof.
  induction n as [n IH] using lt_wf_ind.
  intros queue ancestors bound Hcost Hqueue Hanc.
  inversion Hcost as [|p queue' n' Hp Hrest|p r queue' m n' Hp Hm Hrest]; subst.
  - exists ancestors. split; [|done]. by intros [|fuel] _.
  - apply Forall_cons in Hqueue as [_ Hqueue].
    destruct (IH n' ltac:(lia) queue' ancestors bound Hrest Hqueue Hanc)
      as (result & Hrun & Hres).
    exists result. split; [|done].
    intros [|fuel] Hfuel; [lia|]. simpl. rewrite Hp. apply Hrun. lia.
  - apply Forall_cons in Hqueue as [Hpb Hqueue].
    assert (Hparents : Forall (λ p', p' < bound) (AgentAncestry.parentIds r)).
    { pose proof (Hbelow p r Hp) as Hlt. rewrite (Hkeyed p r Hp) in Hlt.
      eapply Forall_impl; [exact Hlt|]. simpl. lia. }
    destruct (IH (n' + m)%nat ltac:(lia) (queue' ++ AgentAncestry.parentIds r)
                (ancestors ++ [r]) bound) as (result & Hrun & Hres).
    + by apply QueueCost_app.
    + by apply Forall_app.
    + apply Forall_app. split; [done|]. apply Forall_singleton.
      by rewrite (Hkeyed p r Hp).
    + exists result. split; [|done].
      intros [|fuel] Hfuel; [lia|]. simpl. rewrite Hp. apply Hrun. lia.
Qed.
End Invariants.
End Lineage.

(** C8. When every stored record's parents have ids strictly below the
    record's own id (and, as the class maintains, every record is stored
    under its id), the loop of [getAncestors] ends for every queried id:
    some amount of fuel, and any larger one, yields the same list, and
    every record of that list has an id strictly below the queried id. *)
Theorem getAncestors_terminates (lt : LineageTracker.t) (agentId : Z) :
  LineageTracker.keyedById lt → LineageTracker.parentsBelow lt →
  ∃ (enough : nat) (ancestors : list AgentAncestry.t),
    (∀ fuel, (enough <= fuel)%nat →
       LineageTracker.getAncestors lt fuel agentId = Some ancestors)
    ∧ Forall (λ r, AgentAncestry.id r < agentId) ancestors.
Proof.
  intros Hkeyed Hbelow. unfold LineageTracker.getAncestors.
  destruct (LineageTracker.ancestryRecords lt !! agentId) as [record|] eqn:Hrec.
  - destruct (every_queue_has_cost lt Hkeyed Hbelow (AgentAncestry.parentIds record))
      as [n Hn].
    assert (Hparents : Forall (λ p, p < agentId) (AgentAncestry.parentIds record)).
    { pose proof (Hbelow agentId record Hrec) as Hlt.
      by rewrite (Hkeyed agentId record Hrec) in Hlt. }
    destruct (walkQueue_terminates lt Hkeyed Hbelow n _ [] agentId Hn Hparents
                ltac:(constructor)) as (result & Hrun & Hres).
    by exists n, result.
  - exists O, []. split; [done | constructor].
Qed.

Lemma getAncestors_terminates_witness :
  ∃ (enough : nat) (ancestors : list AgentAncestry.t),
    (∀ fuel, (enough <= fuel)%nat →
       LineageTracker.getAncestors exampleLedger fuel 3 = Some ancestors)
    ∧ Forall (λ r, AgentAncestry.id r < 3) ancestors.
Proof.
  apply getAncestors_terminates.
  - apply (bool_decide_unpack
             (map_Forall (λ k r, AgentAncestry.id r = k)
                (LineageTracker.ancestryRecords exampleLedger))).
    vm_compute. exact I.
  - apply (bool_decide_unpack
             (map_Forall (λ (k : Z) r,
                            Forall (λ p, p < AgentAncestry.id r)
                              (AgentAncestry.parentIds r))
                (LineageTracker.ancestryRecords exampleLedger))).
    vm_compute. exact I.
Defined.

(** C9. [registerDeath] and [updateFitness] on an id without a record
    return the tracker as it was (they have no failing outcome), and
    [getAncestors] of such an id is the empty list, whatever the fuel. *)
Theorem lineage_tolerates_unknown_id (lt : LineageTracker.t) (agentId : Z)
    (fitness : Q) (fuel : nat) :
  LineageTracker.ancestryRecords lt !! agentId = None →
  LineageTracker.registerDeath lt agentId fitness = lt
  ∧ LineageTracker.updateFitness lt agentId fitness = lt
  ∧ LineageTracker.getAncestors lt fuel agentId = Some [].
Proof.
  intros Hmissing.
  unfold LineageTracker.registerDeath, LineageTracker.updateFitness,
    LineageTracker.getAncestors.
  by rewrite Hmissing.
Qed.

Lemma lineage_tolerates_unknown_id_witness :
  LineageTracker.registerDeath exampleLedger 7 12 = exampleLedger
  ∧ LineageTracker.updateFitness exampleLedger 7 12 = exampleLedger
  ∧ LineageTracker.getAncestors exampleLedger 0 7 = Some [].
Proof.
  apply lineage_tolerates_unknown_id. vm_compute. reflexivity.
Defined.

(** ** The tape monad *)

Lemma bind_Returns {A B} (m : Rand A) (k : A → Rand B) (tape : Tape) b rest :
  bind m k tape = Returns b rest ↔
  ∃ a mid, m tape = Returns a mid ∧ k a mid = Returns b rest.
Proof.
  unfold bind. destruct (m tape) as [a mid|e].
  - split; [eauto|]. by intros (a' & mid' & [= <- <-] & Hk).
  - split; [done|]. by intros (a' & mid' & [=] & _).
Qed.

Lemma ret_Returns {A} (a : A) (tape : Tape) b rest :
  ret a tape = Returns b rest ↔ a = b ∧ tape = rest.
Proof. unfold ret. split; [by intros [= <- <-] | by intros [-> ->]]. Qed.

Lemma Math_random_Returns (tape : Tape) u rest :
  Math_random tape = Returns u rest ↔ tape = u :: rest ∧ validDraw u = true.
Proof.
  unfold Math_random. destruct tape as [|v tape]; [by split; [|intros [[=] _]]|].
  destruct (validDraw v) eqn:Hv.
  - split; [by intros [= <- <-] | by intros [[= <- <-] _]].
  - split; [done | intros [[= <- <-] Hu]; congruence].
Qed.

Lemma validDraw_range (u : Q) : validDraw u = true ↔ (0 <= u)%Q ∧ (u < 1)%Q.
Proof. unfold validDraw. by rewrite andb_true_iff, Qle_bool_iff, Qltb_lt. Qed.

(** A draw that is valid and not zero. *)
Definition properDraw (u : Q) : Prop := (0 < u)%Q ∧ (u < 1)%Q.

Lemma Math_random_proper (u : Q) (tape : Tape) :
  properDraw u → Math_random (u :: tape) = Returns u tape.
Proof.
  intros [H0 H1]. unfold Math_random.
  assert (Hv : validDraw u = true) by (apply validDraw_range; split; [lra | done]).
  by rewrite Hv.
Qed.

Lemma drawNonZero_proper (u : Q) (tape : Tape) :
  properDraw u → drawNonZero (u :: tape) = Returns u tape.
Proof.
  intros [H0 H1]. simpl.
  assert (Hv : validDraw u = true) by (apply validDraw_range; split; [lra | done]).
  rewrite Hv. destruct (u =? 0)%Q eqn:E; [|done].
  apply Qeq_bool_iff in E. lra.
Qed.

(** ** Self-adaptive mutation (evolution/genome.ts) *)

Definition rateInRange (g : Genome.t) : Prop :=
  (1 # 1000 <= Genome.mutationRate g)%Q ∧ (Genome.mutationRate g <= 3 # 10)%Q.

Section SelfAdaptiveMutation.
Context `{MathLib}.

Lemma clamped_rate_in_range (r : Q) :
  (1 # 1000 <= Qmax (1 # 1000) (Qmin (3 # 10) r))%Q
  ∧ (Qmax (1 # 1000) (Qmin (3 # 10) r) <= 3 # 10)%Q.
Proof.
  split; [apply Q.le_max_l|].
  apply Q.max_lub; [lra | apply Q.le_min_l].
Qed.

Lemma mutate_rate (g : Genome.t) (tape : Tape) g' rest :
  Genome.mutate g tape = Returns g' rest →
  Genome.mutationRate g' = Genome.mutationRate g
  ∨ ∃ r, Genome.mutationRate g' = Qmax (1 # 1000) (Qmin (3 # 10) r).
Proof.
  unfold Genome.mutate. intros Hrun.
  apply bind_Returns in Hrun as (roll & t1 & _ & Hrun).
  apply bind_Returns in Hrun as (newGenome & t2 & Hnew & Hrun).
  apply bind_Returns in Hrun as (ws & t3 & _ & Hrun).
  apply ret_Returns in Hrun as [<- _]. simpl.
  destruct (roll <? 1 # 10)%Q.
  - apply bind_Returns in Hnew as (u & t1' & _ & Hnew).
    apply ret_Returns in Hnew as [<- _]. simpl. eauto.
  - apply ret_Returns in Hnew as [<- _]. by left.
Qed.

Lemma mutate_keeps_rate_in_range (g : Genome.t) (tape : Tape) g' rest :
  rateInRange g → Genome.mutate g tape = Returns g' rest → rateInRange g'.
Proof.
  intros Hin Hrun. unfold rateInRange.
  destruct (mutate_rate g tape g' rest Hrun) as [-> | [r ->]]; [exact Hin|].
  apply clamped_rate_in_range.
Qed.

Lemma mutateTimes_keeps_rate_in_range (n : nat) :
  ∀ (g : Genome.t) (tape : Tape) g' rest,
    rateInRange g → Genome.mutateTimes n g tape = Returns g' rest → rateInRange g'.
Proof.
  induction n as [|n IH]; intros g tape g' rest Hin Hrun; simpl in Hrun.
  - by apply ret_Returns in Hrun as [<- _].
  - apply bind_Returns in Hrun as (g1 & t1 & Hstep & Hrun).
    eapply IH; [|exact Hrun]. by eapply mutate_keeps_rate_in_range.
Qed.

(** Termination: the weight loop takes at most three draws per weight. *)
Lemma mutateWeights_returns (rate : Q) (ws : list Q) :
  ∀ tape, Forall properDraw tape → (3 * length ws <= length tape)%nat →
    ∃ ws' rest, Genome.mutateWeights rate ws tape = Returns ws' rest
                ∧ Forall properDraw rest
                ∧ (length tape <= length rest + 3 * length ws)%nat.
Proof.
  induction ws as [|w ws IH]; intros tape Hproper Hlen.
  - exists [], tape. simpl. split; [done|]. split; [done | lia].
  - cbn [length] in Hlen.
    destruct tape as [|u [|u1 [|u2 tape]]]; cbn [length] in Hlen; try lia.
    apply Forall_cons in Hproper as [Hu Hproper].
    apply Forall_cons in Hproper as [Hu1 Hproper].
    apply Forall_cons in Hproper as [Hu2 Hproper].
    cbn [Genome.mutateWeights]. unfold bind at 1.
    rewrite (Math_random_proper u _ Hu).
    destruct (u <? rate)%Q.
    + unfold bind at 1. unfold Genome.randomNormal. unfold bind at 1. unfold bind at 1.
      rewrite (drawNonZero_proper u1 _ Hu1). unfold bind at 1.
      rewrite (drawNonZero_proper u2 _ Hu2). unfold ret at 1. unfold ret at 1.
      destruct (IH tape Hproper ltac:(cbn [length] in *; lia)) as (ws' & rest & Hrun & Hrest & Hcount).
      unfold bind at 1. rewrite Hrun. eexists _, rest. unfold ret.
      split; [reflexivity|]. split; [exact Hrest | cbn [length] in *; lia].
    + unfold bind at 1. unfold ret at 1.
      destruct (IH (u1 :: u2 :: tape)) as (ws' & rest & Hrun & Hrest & Hcount).
      { apply Forall_cons_2; [exact Hu1|]. apply Forall_cons_2; [exact Hu2 | exact Hproper]. }
      { cbn [length] in *. lia. }
      unfold bind at 1. rewrite Hrun. eexists _, rest. unfold ret.
      split; [reflexivity|]. split; [exact Hrest | cbn [length] in *; lia].
Qed.

Lemma mutate_returns (g : Genome.t) (tape : Tape) :
  Forall properDraw tape →
  (2 + 3 * length (Genome.weights g) <= length tape)%nat →
  ∃ g' rest, Genome.mutate g tape = Returns g' rest.
Proof.
  intros Hproper Hlen.
  destruct tape as [|roll [|u tape]]; cbn [length] in Hlen; try lia.
  apply Forall_cons in Hproper as [Hroll Hproper].
  pose proof Hproper as Hproper'.
  apply Forall_cons in Hproper as [Hu Hproper].
  unfold Genome.mutate. unfold bind at 1. rewrite (Math_random_proper roll _ Hroll).
  destruct (roll <? 1 # 10)%Q.
  - unfold bind at 1. unfold bind at 1. rewrite (Math_random_proper u _ Hu).
    unfold ret at 1.
    destruct (mutateWeights_returns
                (Genome.mutationRate
                   (Genome.withMutationRate (Genome.copy g)
                      (Qmax (1 # 1000)
                         (Qmin (3 # 10)
                            (Genome.mutationRate g
                             + (u * 2 - 1) * (5 # 10) * Genome.mutationRate g)))))
                (Genome.weights g) tape Hproper ltac:(lia))
      as (ws' & rest & Hrun & _).
    unfold bind at 1. cbn [Genome.mutationRate Genome.weights Genome.withMutationRate
      Genome.copy] in Hrun |- *. rewrite Hrun. eexists _, _. reflexivity.
  - unfold bind at 1. unfold ret at 1.
    destruct (mutateWeights_returns (Genome.mutationRate (Genome.copy g))
                (Genome.weights g) (u :: tape) Hproper' ltac:(cbn [length] in *; lia))
      as (ws' & rest & Hrun & _).
    unfold bind at 1. cbn [Genome.mutationRate Genome.weights Genome.copy] in Hrun |- *.
    rewrite Hrun. eexists _, _. reflexivity.
Qed.
End SelfAdaptiveMutation.

(** C7. A genome whose mutation rate lies in [0.001, 0.3] keeps a rate in
    that range through the self-adaptive [mutate], and so through any
    number of successive self-adaptive mutations; [mutate] does return on
    every tape that holds two draws and three per weight, none of them
    zero. *)
Theorem mutation_rate_stays_in_range `{MathLib} (g : Genome.t) :
  rateInRange g →
  (∀ tape g' rest, Genome.mutate g tape = Returns g' rest → rateInRange g')
  ∧ (∀ n tape g' rest, Genome.mutateTimes n g tape = Returns g' rest → rateInRange g')
  ∧ (∀ tape, Forall properDraw tape →
       (2 + 3 * length (Genome.weights g) <= length tape)%nat →
       ∃ g' rest, Genome.mutate g tape = Returns g' rest).
Proof.
  intros Hin. split; [|split].
  - intros tape g' rest. by apply mutate_keeps_rate_in_range.
  - intros n tape g' rest. by apply mutateTimes_keeps_rate_in_range.
  - apply mutate_returns.
Qed.

(** ** More on the ancestry ledger (evolution/lineage.ts) *)


Section LedgerGrowth.
Import LineageTracker.

(** [registerBirth] answers the counter, files the new record under it with
    no death and no fitness yet, moves the counter by one and leaves every
    other record as it was. *)
Theorem registerBirth_files_record (lt : t) (parentIds : list Z) (speciesId : Z) :
  let '(lt', id_) := registerBirth lt parentIds speciesId in
  id_ = nextAgentId lt
  ∧ nextAgentId lt' = nextAgentId lt + 1
  ∧ getAncestryRecord lt' id_
    = Some (AgentAncestry.mk id_ parentIds (currentGeneration lt) speciesId
              (currentTick lt) None 0)
  ∧ (∀ k, k ≠ id_ → getAncestryRecord lt' k = getAncestryRecord lt k)
  ∧ (registerBirth lt' parentIds speciesId).2 = id_ + 1.
Proof.
  simpl. unfold getAncestryRecord. simpl.
  repeat split.
  - apply lookup_insert_eq.
  - intros k Hk. by apply lookup_insert_ne.
Qed.

(** X1. [updateFitness] keeps every record in place and only ever raises its
    [maxFitness]; the record of the agent ends at least at the reported
    fitness. *)
Theorem updateFitness_only_raises (lt : t) (agentId : Z) (fitness : Q) k r :
  getAncestryRecord lt k = Some r →
  ∃ r', getAncestryRecord (updateFitness lt agentId fitness) k = Some r'
        ∧ (AgentAncestry.maxFitness r <= AgentAncestry.maxFitness r')%Q
        ∧ (k = agentId → (fitness <= AgentAncestry.maxFitness r')%Q)
        ∧ (k ≠ agentId → r' = r)
        ∧ AgentAncestry.id r' = AgentAncestry.id r
        ∧ AgentAncestry.parentIds r' = AgentAncestry.parentIds r
        ∧ AgentAncestry.generation r' = AgentAncestry.generation r
        ∧ AgentAncestry.speciesId r' = AgentAncestry.speciesId r
        ∧ AgentAncestry.birthTick r' = AgentAncestry.birthTick r
        ∧ AgentAncestry.deathTick r' = AgentAncestry.deathTick r.
Proof.
  unfold getAncestryRecord, updateFitness. intros Hk.
  destruct (ancestryRecords lt !! agentId) as [record|] eqn:Hrec.
  - destruct (decide (k = agentId)) as [->|Hne].
    + rewrite Hk in Hrec. injection Hrec as <-.
      eexists. cbn [ancestryRecords withRecords]. rewrite lookup_insert_eq.
      split; [reflexivity|]. cbn [AgentAncestry.maxFitness AgentAncestry.id
        AgentAncestry.parentIds AgentAncestry.generation AgentAncestry.speciesId
        AgentAncestry.birthTick AgentAncestry.deathTick].
      split; [apply Q.le_max_l|]. split; [intros _; apply Q.le_max_r|].
      split; [intros Hne; by destruct Hne|]. repeat split.
    + exists r. cbn [ancestryRecords withRecords].
      rewrite lookup_insert_ne by (intros E; by apply Hne).
      split; [exact Hk|]. split; [apply Qle_refl|].
      split; [intros E; by destruct Hne|]. repeat split.
  - exists r. split; [exact Hk|]. split; [apply Qle_refl|].
    split; [intros ->; rewrite Hk in Hrec; discriminate|]. repeat split.
Qed.

(** [registerDeath] stamps the record of the agent with the current tick,
    also when it already carried a death tick, raises its [maxFitness] to
    the final fitness if that is higher, and touches no other record. *)
Theorem registerDeath_stamps_tick (lt : t) (agentId : Z) (finalFitness : Q) r :
  getAncestryRecord lt agentId = Some r →
  getAncestryRecord (registerDeath lt agentId finalFitness) agentId
  = Some (AgentAncestry.mk (AgentAncestry.id r) (AgentAncestry.parentIds r)
            (AgentAncestry.generation r) (AgentAncestry.speciesId r)
            (AgentAncestry.birthTick r) (Some (currentTick lt))
            (Qmax (AgentAncestry.maxFitness r) finalFitness))
  ∧ (AgentAncestry.maxFitness r <= Qmax (AgentAncestry.maxFitness r) finalFitness)%Q
  ∧ (finalFitness <= Qmax (AgentAncestry.maxFitness r) finalFitness)%Q
  ∧ (∀ k, k ≠ agentId →
       getAncestryRecord (registerDeath lt agentId finalFitness) k
       = getAncestryRecord lt k)
  ∧ nextAgentId (registerDeath lt agentId finalFitness) = nextAgentId lt.
Proof.
  unfold getAncestryRecord, registerDeath. intros Hk. rewrite Hk.
  cbn [ancestryRecords withRecords nextAgentId].
  split; [apply lookup_insert_eq|].
  split; [apply Q.le_max_l|]. split; [apply Q.le_max_r|].
  split; [|reflexivity].
  intros k Hne. apply lookup_insert_ne. intros E. by apply Hne.
Qed.

Lemma issuedBelowCounter_new : issuedBelowCounter new.
Proof. intros k r Hk. simpl in Hk. by rewrite lookup_empty in Hk. Qed.

Lemma parentsBelow_new : parentsBelow new.
Proof. intros k r Hk. simpl in Hk. by rewrite lookup_empty in Hk. Qed.

(** X2. A birth whose parents were issued before keeps the ledger a DAG: the
    three invariants under which [getAncestors] terminates carry over. *)
Theorem registerBirth_keeps_ledger_acyclic (lt : t) (parentIds : list Z) (speciesId : Z) :
  keyedById lt → parentsBelow lt → issuedBelowCounter lt →
  Forall (λ p, p < nextAgentId lt) parentIds →
  keyedById (registerBirth lt parentIds speciesId).1
  ∧ parentsBelow (registerBirth lt parentIds speciesId).1
  ∧ issuedBelowCounter (registerBirth lt parentIds speciesId).1.
Proof.
  intros Hkeyed Hbelow Hissued Hparents.
  split; [by apply keyedById_registerBirth|]. split.
  - intros k r Hk. cbn [registerBirth fst ancestryRecords] in Hk.
    destruct (decide (nextAgentId lt = k)) as [<-|Hne].
    + rewrite lookup_insert_eq in Hk. injection Hk as <-. exact Hparents.
    + rewrite lookup_insert_ne in Hk by done. by apply (Hbelow k).
  - intros k r Hk. cbn [registerBirth fst ancestryRecords nextAgentId] in Hk |- *.
    destruct (decide (nextAgentId lt = k)) as [<-|Hne]; [lia|].
    rewrite lookup_insert_ne in Hk by done.
    pose proof (Hissued k r Hk). lia.
Qed.

(** X3. [addRecordDirect] leaves the counter where it was, so a restored
    record that sits at the counter is replaced by the next birth. *)
Theorem registerBirth_replaces_restored_record (lt : t) (record : AgentAncestry.t)
    (parentIds : list Z) (speciesId : Z) :
  AgentAncestry.id record = nextAgentId lt →
  let restored := addRecordDirect lt record in
  nextAgentId restored = nextAgentId lt
  ∧ getAncestryRecord restored (AgentAncestry.id record) = Some record
  ∧ (registerBirth restored parentIds speciesId).2 = AgentAncestry.id record
  ∧ getAncestryRecord (registerBirth restored parentIds speciesId).1
      (AgentAncestry.id record)
    = Some (AgentAncestry.mk (AgentAncestry.id record) parentIds
              (currentGeneration lt) speciesId (currentTick lt) None 0).
Proof.
  intros Hid restored. subst restored. unfold getAncestryRecord.
  cbn [addRecordDirect withRecords registerBirth fst snd ancestryRecords
       nextAgentId currentGeneration currentTick].
  split; [reflexivity|]. split; [apply lookup_insert_eq|].
  split; [by rewrite Hid|].
  rewrite <- Hid. rewrite lookup_insert_eq. reflexivity.
Qed.
End LedgerGrowth.

Lemma updateFitness_only_raises_witness :
  ∃ r', LineageTracker.getAncestryRecord
          (LineageTracker.updateFitness exampleLedger 2 (7 # 2)) 2 = Some r'
        ∧ (7 # 2 <= AgentAncestry.maxFitness r')%Q.
Proof.
  destruct (updateFitness_only_raises exampleLedger 2 (7 # 2) 2
              (AgentAncestry.mk 2 [1] 1 0 0 None 0) ltac:(vm_compute; reflexivity))
    as (r' & Hget & _ & Hfit & _).
  exists r'. split; [exact Hget | exact (Hfit eq_refl)].
Defined.

Lemma registerDeath_stamps_tick_witness :
  AgentAncestry.deathTick
    <$> LineageTracker.getAncestryRecord
          (LineageTracker.registerDeath
             (LineageTracker.registerDeath (LineageTracker.updateTick exampleLedger 5) 2 1)
             2 1) 2
  = Some (Some 5).
Proof.
  pose proof (proj1 (registerDeath_stamps_tick
             (LineageTracker.registerDeath (LineageTracker.updateTick exampleLedger 5) 2 1)
             2 1 _ ltac:(vm_compute; reflexivity))) as Hget.
  rewrite Hget. reflexivity.
Defined.

Lemma registerBirth_keeps_ledger_acyclic_witness :
  LineageTracker.keyedById
    (LineageTracker.registerBirth
       (LineageTracker.registerBirth LineageTracker.new [] 0).1 [1] 0).1
  ∧ LineageTracker.parentsBelow
      (LineageTracker.registerBirth
         (LineageTracker.registerBirth LineageTracker.new [] 0).1 [1] 0).1
  ∧ issuedBelowCounter
      (LineageTracker.registerBirth
         (LineageTracker.registerBirth LineageTracker.new [] 0).1 [1] 0).1.
Proof.
  apply registerBirth_keeps_ledger_acyclic.
  - apply (bool_decide_unpack
             (map_Forall (λ k r, AgentAncestry.id r = k)
                (LineageTracker.ancestryRecords
                   (LineageTracker.registerBirth LineageTracker.new [] 0).1))).
    vm_compute. exact I.
  - apply (bool_decide_unpack
             (map_Forall (λ (k : Z) r,
                            Forall (λ p, p < AgentAncestry.id r)
                              (AgentAncestry.parentIds r))
                (LineageTracker.ancestryRecords
                   (LineageTracker.registerBirth LineageTracker.new [] 0).1))).
    vm_compute. exact I.
  - apply (bool_decide_unpack
             (map_Forall (λ (k : Z) (r : AgentAncestry.t), k < 2)
                (LineageTracker.ancestryRecords
                   (LineageTracker.registerBirth LineageTracker.new [] 0).1))).
    vm_compute. exact I.
  - apply Forall_cons_2; [vm_compute; reflexivity | apply Forall_nil_2].
Defined.

Lemma registerBirth_replaces_restored_record_witness :
  LineageTracker.getAncestryRecord
    (LineageTracker.registerBirth
       (LineageTracker.addRecordDirect LineageTracker.new
          (AgentAncestry.mk 1 [] 3 2 40 (Some 90) 55)) [] 0).1 1
  = Some (AgentAncestry.mk 1 [] 1 0 0 None 0).
Proof.
  exact (proj2 (proj2 (proj2 (registerBirth_replaces_restored_record LineageTracker.new
                  (AgentAncestry.mk 1 [] 3 2 40 (Some 90) 55) [] 0 eq_refl)))).
Defined.

(** ** Species and their manager (evolution/species.ts) *)



Section SumSquaredDiff.

Lemma sumSquaredDiff_fold_nonneg (l : list (Q * Q)) :
  ∀ acc, (0 <= acc)%Q →
    (0 <= fold_left (λ acc p, acc + (p.1 - p.2) * (p.1 - p.2)) l acc)%Q.
Proof.
  induction l as [|[a b] l IH]; intros acc Hacc; [exact Hacc|].
  cbn [fold_left fst snd]. apply IH.
  assert (Hsq : (0 <= (a - b) * (a - b))%Q).
  { destruct (Qlt_le_dec (a - b) 0) as [Hneg|Hpos].
    - assert (E : ((a - b) * (a - b) == (b - a) * (b - a))%Q) by ring.
      rewrite E. apply Qmult_le_0_compat; lra.
    - by apply Qmult_le_0_compat. }
  lra.
Qed.

Lemma sumSquaredDiff_fold_sym (wa : list Q) :
  ∀ wb acc acc', (acc == acc')%Q →
    (fold_left (λ acc p, acc + (p.1 - p.2) * (p.1 - p.2)) (zip wa wb) acc
     == fold_left (λ acc p, acc + (p.1 - p.2) * (p.1 - p.2)) (zip wb wa) acc')%Q.
Proof.
  induction wa as [|a wa IH]; intros [|b wb] acc acc' Hacc; try exact Hacc.
  cbn [zip zip_with fold_left fst snd]. apply IH. rewrite Hacc. ring.
Qed.

Lemma sumSquaredDiff_fold_self (w : list Q) :
  ∀ acc, (fold_left (λ acc p, acc + (p.1 - p.2) * (p.1 - p.2)) (zip w w) acc == acc)%Q.
Proof.
  induction w as [|a w IH]; intros acc; [reflexivity|].
  cbn [zip zip_with fold_left fst snd]. rewrite IH. ring.
Qed.
End SumSquaredDiff.

(** X5. [geneticDistance] throws exactly when the two weight arrays differ in
    length and otherwise returns without reading a draw; the sum under its
    square root is never negative, does not depend on the order of the two
    genomes and is zero for a genome and itself. *)
Theorem geneticDistance_length_check `{MathLib} (genomeA genomeB : Genome.t) (tape : Tape) :
  (length (Genome.weights genomeA) ≠ length (Genome.weights genomeB) →
   geneticDistance genomeA genomeB tape = Throws LengthMismatch)
  ∧ (length (Genome.weights genomeA) = length (Genome.weights genomeB) →
     geneticDistance genomeA genomeB tape
     = Returns (Math_sqrt (sumSquaredDiff (Genome.weights genomeA)
                             (Genome.weights genomeB))) tape)
  ∧ (0 <= sumSquaredDiff (Genome.weights genomeA) (Genome.weights genomeB))%Q
  ∧ (sumSquaredDiff (Genome.weights genomeA) (Genome.weights genomeB)
     == sumSquaredDiff (Genome.weights genomeB) (Genome.weights genomeA))%Q
  ∧ (sumSquaredDiff (Genome.weights genomeA) (Genome.weights genomeA) == 0)%Q.
Proof.
  unfold geneticDistance, sumSquaredDiff.
  split; [|split; [|split; [|split]]].
  - intros Hne. apply Nat.eqb_neq in Hne. by rewrite Hne.
  - intros Heq. apply Nat.eqb_eq in Heq. by rewrite Heq.
  - apply sumSquaredDiff_fold_nonneg. apply Qle_refl.
  - apply sumSquaredDiff_fold_sym. reflexivity.
  - apply sumSquaredDiff_fold_self.
Qed.

Lemma geneticDistance_length_check_witness :
  @geneticDistance rationalMath (Genome.mk [1; 2]%Q (5 # 100)) (Genome.mk [1]%Q (5 # 100)) []
  = Throws LengthMismatch
  ∧ @geneticDistance rationalMath (Genome.mk [0; 0]%Q (5 # 100))
      (Genome.mk [3; 4]%Q (5 # 100)) []
    = Returns 5%Q [].
Proof.
  split.
  - apply (proj1 (@geneticDistance_length_check rationalMath
                    (Genome.mk [1; 2]%Q (5 # 100)) (Genome.mk [1]%Q (5 # 100)) [])).
    simpl. lia.
  - rewrite (proj1 (proj2 (@geneticDistance_length_check rationalMath
                             (Genome.mk [0; 0]%Q (5 # 100))
                             (Genome.mk [3; 4]%Q (5 # 100)) [])) eq_refl).
    vm_compute. reflexivity.
Defined.

Section SpeciesFacts.
Context `{MathLib}.

Lemma findSpecies_first_match (genome : Genome.t) (pre : list Species.t) :
  ∀ (s : Species.t) (post : list Species.t) (i : nat) (tape : Tape),
    Forall (λ s', ∃ d, distanceIs genome s' d ∧ (4 <= d)%Q) pre →
    (∃ d, distanceIs genome s d ∧ (d < 4)%Q) →
    SpeciesManager.findSpecies genome (pre ++ s :: post) i tape
    = Returns (Some (i + length pre)%nat) tape.
Proof.
  induction pre as [|s' pre IH]; intros s post i tape Hfar (d & Hd & Hclose).
  - cbn [app SpeciesManager.findSpecies length]. unfold bind. rewrite (Hd tape).
    unfold SpeciesManager.distanceThreshold.
    apply Qltb_lt in Hclose. rewrite Hclose. unfold ret. f_equal. f_equal. lia.
  - apply Forall_cons in Hfar as [(d' & Hd' & Hfar') Hfar].
    cbn [app SpeciesManager.findSpecies length]. unfold bind at 1. rewrite (Hd' tape).
    unfold SpeciesManager.distanceThreshold at 1.
    apply Qltb_ge in Hfar'. rewrite Hfar'.
    rewrite (IH s post (S i) tape Hfar (ex_intro _ d (conj Hd Hclose))).
    f_equal. f_equal. lia.
Qed.

Lemma findSpecies_no_match (genome : Genome.t) (l : list Species.t) :
  ∀ (i : nat) (tape : Tape),
    Forall (λ s', ∃ d, distanceIs genome s' d ∧ (4 <= d)%Q) l →
    SpeciesManager.findSpecies genome l i tape = Returns None tape.
Proof.
  induction l as [|s' l IH]; intros i tape Hfar; [reflexivity|].
  apply Forall_cons in Hfar as [(d' & Hd' & Hfar') Hfar].
  cbn [SpeciesManager.findSpecies]. unfold bind at 1. rewrite (Hd' tape).
  unfold SpeciesManager.distanceThreshold at 1.
  apply Qltb_ge in Hfar'. rewrite Hfar'. by apply IH.
Qed.

(** What the scan answers, whatever the species: nothing, or a position of
    the array; it never reads a draw. *)
Lemma findSpecies_Returns (genome : Genome.t) (l : list Species.t) :
  ∀ (i : nat) (tape : Tape) found rest,
    SpeciesManager.findSpecies genome l i tape = Returns found rest →
    rest = tape ∧ match found with
                  | Some k => (i <= k < i + length l)%nat
                  | None => True
                  end.
Proof.
  induction l as [|s' l IH]; intros i tape found rest Hrun.
  - cbn [SpeciesManager.findSpecies] in Hrun.
    apply ret_Returns in Hrun as [<- <-]. done.
  - cbn [SpeciesManager.findSpecies] in Hrun.
    apply bind_Returns in Hrun as (d & mid & Hd & Hrun).
    unfold geneticDistance in Hd.
    destruct (negb _); [discriminate Hd|].
    apply ret_Returns in Hd as [_ <-].
    destruct (d <? SpeciesManager.distanceThreshold)%Q.
    + apply ret_Returns in Hrun as [<- <-]. split; [done|]. cbn [length]. lia.
    + apply IH in Hrun as [-> Hfound]. split; [done|].
      destruct found; [cbn [length]; lia | done].
Qed.
End SpeciesFacts.

(** X6. [assignSpecies] joins the first species of the array, in creation
    order, whose representative is closer than 4: the agent becomes a
    member there, nothing else changes, no draw is read and the position of
    that species is the answer. *)
Theorem assignSpecies_joins_first_match `{MathLib} (sm : SpeciesManager.t)
    (genome : Genome.t) (agentId : Z) (pre post : list Species.t) (s : Species.t)
    (tape : Tape) :
  SpeciesManager.species sm = pre ++ s :: post →
  Forall (λ s', ∃ d, distanceIs genome s' d ∧ (4 <= d)%Q) pre →
  (∃ d, distanceIs genome s d ∧ (d < 4)%Q) →
  SpeciesManager.assignSpecies sm genome agentId tape
  = Returns (SpeciesManager.mk (pre ++ Species.addMember s agentId :: post)
               (SpeciesManager.nextSpeciesId sm) (SpeciesManager.currentGeneration sm),
             length pre) tape.
Proof.
  intros Hsp Hfar Hclose. unfold SpeciesManager.assignSpecies.
  unfold bind. rewrite Hsp.
  rewrite (findSpecies_first_match genome pre s post 0 tape Hfar Hclose).
  cbn [Nat.add]. unfold ret. f_equal. f_equal. f_equal.
  rewrite (alter_app_r_alt _ pre (s :: post) (length pre)) by lia.
  by rewrite Nat.sub_diag.
Qed.

(** X7. When no representative is closer than 4, [assignSpecies] appends a new
    species: its id is the counter, which moves by one, its representative
    has the weights and rate of the genome, the agent is its only member,
    and the species already there are untouched; one draw is read, for the
    colour. *)
Theorem assignSpecies_founds_species `{MathLib} (sm : SpeciesManager.t)
    (genome : Genome.t) (agentId : Z) (u : Q) (rest : Tape) :
  Forall (λ s', ∃ d, distanceIs genome s' d ∧ (4 <= d)%Q) (SpeciesManager.species sm) →
  validDraw u = true →
  ∃ created,
    SpeciesManager.assignSpecies sm genome agentId (u :: rest)
    = Returns (SpeciesManager.mk (SpeciesManager.species sm ++ [created])
                 (SpeciesManager.nextSpeciesId sm + 1)
                 (SpeciesManager.currentGeneration sm),
               length (SpeciesManager.species sm)) rest
    ∧ Species.id created = SpeciesManager.nextSpeciesId sm
    ∧ Species.representative created = genome
    ∧ Species.members created = [agentId]
    ∧ Species.creationGeneration created = SpeciesManager.currentGeneration sm
    ∧ Species.bestFitness created = 0%Q.
Proof.
  intros Hfar Hu. unfold SpeciesManager.assignSpecies.
  unfold bind at 1. rewrite (findSpecies_no_match genome _ 0 (u :: rest) Hfar).
  unfold bind at 1. unfold Species.new. unfold bind at 1.
  unfold Math_random. rewrite Hu. unfold ret.
  eexists. split; [reflexivity|].
  cbn [Species.id Species.representative Species.members Species.creationGeneration
       Species.bestFitness].
  repeat split. by destruct genome.
Qed.

Section SpeciesIds.
Context `{MathLib}.

Lemma Species_new_Returns (id_ : Z) (rep : Genome.t) (gen first : Z) (tape : Tape)
    created rest :
  Species.new id_ rep gen first tape = Returns created rest →
  Species.id created = id_
  ∧ Species.members created = [first]
  ∧ Species.representative created = rep
  ∧ Species.creationGeneration created = gen
  ∧ Species.bestFitness created = 0%Q
  ∧ ∃ u, tape = u :: rest ∧ validDraw u = true.
Proof.
  unfold Species.new. intros Hrun.
  apply bind_Returns in Hrun as (u & mid & Hu & Hrun).
  apply Math_random_Returns in Hu as [-> Hu].
  apply ret_Returns in Hrun as [<- <-].
  cbn [Species.id Species.members Species.representative Species.creationGeneration
       Species.bestFitness].
  repeat split; [by destruct rep | by exists u].
Qed.

Lemma map_alter_same {A B} (g : A → B) (f : A → A) (l : list A) :
  (∀ a, g (f a) = g a) → ∀ i, map g (alter f i l) = map g l.
Proof.
  intros Hgf. induction l as [|a l IH]; intros [|i]; cbn [alter list_alter map];
    [done | done | by rewrite Hgf | by rewrite IH].
Qed.

Lemma addMember_id (s : Species.t) (agentId : Z) :
  Species.id (Species.addMember s agentId) = Species.id s.
Proof. unfold Species.addMember. by destruct (bool_decide _). Qed.

Lemma addMember_representative (s : Species.t) (agentId : Z) :
  Species.representative (Species.addMember s agentId) = Species.representative s.
Proof. unfold Species.addMember. by destruct (bool_decide _). Qed.

Lemma addMember_elem (s : Species.t) (agentId : Z) :
  agentId ∈ Species.members (Species.addMember s agentId).
Proof.
  unfold Species.addMember. destruct (bool_decide _) eqn:E.
  - by apply bool_decide_eq_true in E.
  - cbn [Species.members Species.withMembers]. apply elem_of_app. right.
    apply list_elem_of_singleton. reflexivity.
Qed.
End SpeciesIds.

(** X8. [assignSpecies] keeps the ids of the array pairwise distinct and below
    the counter, never alters the id or the representative of a species
    that is already there, and answers a position of the array whose
    species has the agent among its members. *)
Theorem assignSpecies_keeps_ids_unique `{MathLib} (sm : SpeciesManager.t)
    (genome : Genome.t) (agentId : Z) (tape : Tape) sm' k rest :
  speciesIdsUnique sm →
  SpeciesManager.assignSpecies sm genome agentId tape = Returns (sm', k) rest →
  speciesIdsUnique sm'
  ∧ map Species.id (take (length (SpeciesManager.species sm)) (SpeciesManager.species sm'))
    = map Species.id (SpeciesManager.species sm)
  ∧ map Species.representative
      (take (length (SpeciesManager.species sm)) (SpeciesManager.species sm'))
    = map Species.representative (SpeciesManager.species sm)
  ∧ ∃ s, SpeciesManager.species sm' !! k = Some s ∧ agentId ∈ Species.members s.
Proof.
  intros [Hbelow Hnodup] Hrun. unfold SpeciesManager.assignSpecies in Hrun.
  apply bind_Returns in Hrun as (found & mid & Hfind & Hrun).
  apply findSpecies_Returns in Hfind as [-> Hfound].
  destruct found as [i|].
  - apply ret_Returns in Hrun as [[= <- <-] <-].
    cbn [SpeciesManager.species SpeciesManager.nextSpeciesId].
    assert (Hi : (i < length (SpeciesManager.species sm))%nat) by (simpl in Hfound; lia).
    destruct (lookup_lt_is_Some_2 _ _ Hi) as [s Hs].
    split; [split|split; [|split]].
    + unfold SpeciesManager.idsBelowNext.
      cbn [SpeciesManager.species SpeciesManager.nextSpeciesId].
      apply Forall_alter; [exact Hbelow|]. intros s' _ Hs'. by rewrite addMember_id.
    + cbn [SpeciesManager.species].
      rewrite map_alter_same; [exact Hnodup | intros; apply addMember_id].
    + rewrite <- (length_alter (λ s, Species.addMember s agentId)
                    (SpeciesManager.species sm) i) at 1.
      rewrite firstn_all. apply map_alter_same. intros; apply addMember_id.
    + rewrite <- (length_alter (λ s, Species.addMember s agentId)
                    (SpeciesManager.species sm) i) at 1.
      rewrite firstn_all. apply map_alter_same. intros; apply addMember_representative.
    + exists (Species.addMember s agentId). split; [|apply addMember_elem].
      rewrite list_lookup_alter_eq, Hs. reflexivity.
  - apply bind_Returns in Hrun as (created & mid & Hnew & Hrun).
    apply Species_new_Returns in Hnew as (Hid & Hmem & Hrep & _ & _ & _).
    apply ret_Returns in Hrun as [[= <- <-] <-].
    cbn [SpeciesManager.species SpeciesManager.nextSpeciesId].
    split; [split|split; [|split]].
    + unfold SpeciesManager.idsBelowNext.
      cbn [SpeciesManager.species SpeciesManager.nextSpeciesId].
      apply Forall_app. split.
      * eapply Forall_impl; [exact Hbelow|]. cbn beta. intros s' Hs'. lia.
      * apply Forall_singleton. lia.
    + cbn [SpeciesManager.species]. rewrite map_app. apply NoDup_app.
      split; [exact Hnodup|]. split; [|apply NoDup_singleton].
      intros x Hx Hx'. cbn [map] in Hx'. apply list_elem_of_singleton in Hx'. subst x.
      apply list_elem_of_In, in_map_iff in Hx as (s' & Hs' & Hin).
      apply list_elem_of_In in Hin.
      pose proof (proj1 (Forall_forall _ _) Hbelow s' Hin) as Hlt. cbn beta in Hlt. lia.
    + by rewrite take_app_length.
    + by rewrite take_app_length.
    + exists created. split.
      * rewrite lookup_app_r by lia. by rewrite Nat.sub_diag.
      * rewrite Hmem. apply list_elem_of_singleton. reflexivity.
Qed.

Lemma assignSpecies_joins_first_match_witness :
  @SpeciesManager.assignSpecies rationalMath exampleManager
    (Genome.mk [10; 3]%Q (5 # 100)) 9 []
  = Returns (SpeciesManager.mk
               [speciesAt 1 [0; 0]%Q;
                Species.addMember (speciesAt 2 [10; 0]%Q) 9;
                speciesAt 3 [10; 1]%Q] 4 1, 1%nat) [].
Proof.
  apply (@assignSpecies_joins_first_match rationalMath exampleManager
           (Genome.mk [10; 3]%Q (5 # 100)) 9 [speciesAt 1 [0; 0]%Q]
           [speciesAt 3 [10; 1]%Q] (speciesAt 2 [10; 0]%Q) []).
  - reflexivity.
  - apply Forall_cons_2; [|apply Forall_nil_2].
    eexists. split; [intros tape; reflexivity|].
    vm_compute. intros E. discriminate E.
  - eexists. split; [intros tape; reflexivity|]. vm_compute. reflexivity.
Defined.

Lemma assignSpecies_founds_species_witness :
  ∃ created,
    @SpeciesManager.assignSpecies rationalMath exampleManager
      (Genome.mk [30; 0]%Q (5 # 100)) 9 [1 # 2]%Q
    = Returns (SpeciesManager.mk (SpeciesManager.species exampleManager ++ [created]) 5 1,
               3%nat) []
    ∧ Species.id created = 4.
Proof.
  destruct (@assignSpecies_founds_species rationalMath exampleManager
              (Genome.mk [30; 0]%Q (5 # 100)) 9 (1 # 2)%Q [])
    as (created & Hrun & Hid & _).
  - repeat (apply Forall_cons_2;
            [eexists; split; [intros tape; reflexivity|];
             vm_compute; intros E; discriminate E|]).
    apply Forall_nil_2.
  - reflexivity.
  - exists created. split; [exact Hrun | exact Hid].
Defined.

Lemma assignSpecies_keeps_ids_unique_witness :
  ∃ sm' k,
    @SpeciesManager.assignSpecies rationalMath exampleManager
      (Genome.mk [10; 3]%Q (5 # 100)) 9 [] = Returns (sm', k) []
    ∧ speciesIdsUnique sm'.
Proof.
  eexists _, _. split; [vm_compute; reflexivity|].
  eapply (@assignSpecies_keeps_ids_unique rationalMath exampleManager
            (Genome.mk [10; 3]%Q (5 # 100)) 9 []).
  - split.
    + repeat (apply Forall_cons_2; [vm_compute; reflexivity|]). apply Forall_nil_2.
    + apply (bool_decide_unpack (NoDup (map Species.id (SpeciesManager.species exampleManager)))).
      vm_compute. exact I.
  - vm_compute. reflexivity.
Defined.

(** X9. [createSpecies], the restore path, files a species under the id it is
    given, with the phantom member 0, and never moves the counter: an id at
    or above the counter leaves the array with an id that a later
    [assignSpecies] will issue again. *)
Theorem createSpecies_keeps_counter (sm : SpeciesManager.t) (id_ : Z)
    (representative_ : Genome.t) (creationGeneration_ : Z) (tape : Tape) sm' k rest :
  SpeciesManager.createSpecies sm id_ representative_ creationGeneration_ tape
  = Returns (sm', k) rest →
  SpeciesManager.nextSpeciesId sm' = SpeciesManager.nextSpeciesId sm
  ∧ k = length (SpeciesManager.species sm)
  ∧ (∃ created,
       SpeciesManager.species sm' = SpeciesManager.species sm ++ [created]
       ∧ Species.id created = id_
       ∧ Species.members created = [0]
       ∧ Species.representative created = representative_)
  ∧ (SpeciesManager.nextSpeciesId sm <= id_ → ¬ SpeciesManager.idsBelowNext sm').
Proof.
  unfold SpeciesManager.createSpecies. intros Hrun.
  apply bind_Returns in Hrun as (created & mid & Hnew & Hrun).
  apply Species_new_Returns in Hnew as (Hid & Hmem & Hrep & _).
  apply ret_Returns in Hrun as [[= <- <-] <-].
  cbn [SpeciesManager.species SpeciesManager.nextSpeciesId].
  split; [reflexivity|]. split; [reflexivity|]. split.
  - by exists created.
  - intros Hge Hbelow. unfold SpeciesManager.idsBelowNext in Hbelow.
    cbn [SpeciesManager.species SpeciesManager.nextSpeciesId] in Hbelow.
    apply Forall_app in Hbelow as [_ Hbelow].
    apply Forall_inv in Hbelow. lia.
Qed.

Lemma createSpecies_keeps_counter_witness :
  ∃ sm' k,
    SpeciesManager.createSpecies SpeciesManager.new 1 (Genome.mk [0; 0]%Q (5 # 100)) 1
      [1 # 2]%Q = Returns (sm', k) []
    ∧ SpeciesManager.nextSpeciesId sm' = 1
    ∧ ¬ SpeciesManager.idsBelowNext sm'.
Proof.
  eexists _, _. split; [vm_compute; reflexivity|].
  destruct (createSpecies_keeps_counter SpeciesManager.new 1
              (Genome.mk [0; 0]%Q (5 # 100)) 1 [1 # 2]%Q _ _ [] eq_refl)
    as (Hnext & _ & _ & Hbreak).
  split; [exact Hnext | apply Hbreak; reflexivity].
Defined.

(** [advanceGeneration] empties every member list and counts the
    generation; the species stay, dormant, with their ids, representatives
    and best fitness, and the id counter stays. *)
Theorem advanceGeneration_keeps_species (sm : SpeciesManager.t) :
  let sm' := SpeciesManager.advanceGeneration sm in
  SpeciesManager.currentGeneration sm' = SpeciesManager.currentGeneration sm + 1
  ∧ SpeciesManager.nextSpeciesId sm' = SpeciesManager.nextSpeciesId sm
  ∧ map Species.id (SpeciesManager.species sm') = map Species.id (SpeciesManager.species sm)
  ∧ map Species.representative (SpeciesManager.species sm')
    = map Species.representative (SpeciesManager.species sm)
  ∧ map Species.bestFitness (SpeciesManager.species sm')
    = map Species.bestFitness (SpeciesManager.species sm)
  ∧ Forall (λ s, Species.members s = []) (SpeciesManager.species sm')
  ∧ SpeciesManager.getActiveSpecies sm' = [].
Proof.
  cbn zeta. unfold SpeciesManager.advanceGeneration, SpeciesManager.getActiveSpecies.
  cbn [SpeciesManager.species SpeciesManager.nextSpeciesId
       SpeciesManager.currentGeneration].
  split; [reflexivity|]. split; [reflexivity|].
  induction (SpeciesManager.species sm) as [|s l (IH1 & IH2 & IH3 & IH4 & IH5)].
  - repeat split; constructor.
  - cbn [map]. rewrite IH1, IH2, IH3. repeat split.
    + apply Forall_cons_2; [reflexivity | exact IH4].
    + rewrite filter_cons_False; [exact IH5|]. cbn [Species.members Species.withMembers].
      intros Hne. by apply Hne.
Qed.

(** A member list without duplicates stays so under [addMember]; the agent
    is a member afterwards, adding it again changes nothing, and
    [updateFitness] of a species never lowers its best fitness. *)
Theorem species_bookkeeping (s : Species.t) (agentId : Z) (fitness : Q) :
  (NoDup (Species.members s) → NoDup (Species.members (Species.addMember s agentId)))
  ∧ agentId ∈ Species.members (Species.addMember s agentId)
  ∧ Species.addMember (Species.addMember s agentId) agentId = Species.addMember s agentId
  ∧ (∀ a, a ∈ Species.members s → a ∈ Species.members (Species.addMember s agentId))
  ∧ (Species.bestFitness s <= Species.bestFitness (Species.updateFitness s fitness))%Q
  ∧ (fitness <= Species.bestFitness (Species.updateFitness s fitness))%Q
  ∧ Species.members (Species.updateFitness s fitness) = Species.members s.
Proof.
  split; [|split; [|split; [|split; [|split; [|split]]]]].
  - intros Hnodup. unfold Species.addMember.
    destruct (bool_decide _) eqn:E; [exact Hnodup|].
    apply bool_decide_eq_false in E.
    cbn [Species.members Species.withMembers]. apply NoDup_app.
    split; [exact Hnodup|]. split; [|apply NoDup_singleton].
    intros x Hx Hx'. apply list_elem_of_singleton in Hx'. by subst x.
  - apply addMember_elem.
  - unfold Species.addMember at 1.
    rewrite bool_decide_eq_true_2; [reflexivity | apply addMember_elem].
  - intros a Ha. unfold Species.addMember. destruct (bool_decide _); [exact Ha|].
    cbn [Species.members Species.withMembers]. apply elem_of_app. by left.
  - unfold Species.updateFitness. destruct (fitness >? Species.bestFitness s)%Q eqn:E.
    + apply Qgtb_gt in E. cbn [Species.bestFitness Species.withBestFitness]. lra.
    + apply Qle_refl.
  - unfold Species.updateFitness. destruct (fitness >? Species.bestFitness s)%Q eqn:E.
    + cbn [Species.bestFitness Species.withBestFitness]. apply Qle_refl.
    + by apply Qgtb_le in E.
  - unfold Species.updateFitness. by destruct (fitness >? Species.bestFitness s)%Q.
Qed.

Lemma species_bookkeeping_witness :
  NoDup (Species.members (Species.addMember (speciesAt 2 [10; 0]%Q) 9)).
Proof.
  apply (proj1 (species_bookkeeping (speciesAt 2 [10; 0]%Q) 9 0)).
  apply (bool_decide_unpack (NoDup (Species.members (speciesAt 2 [10; 0]%Q)))).
  vm_compute. exact I.
Defined.

(** ** What [getAncestors] collects (evolution/lineage.ts) *)

Lemma walkQueue_collects (records : gmap Z AgentAncestry.t) (fuel : nat) :
  ∀ queue ancestors result,
    LineageTracker.walkQueue records fuel queue ancestors = Some result →
    ∀ a, a ∈ result ↔ a ∈ ancestors ∨ ∃ p, p ∈ queue ∧ reachable records p a.
Proof.
  induction fuel as [|fuel IH]; intros queue ancestors result Hrun a.
  - destruct queue as [|p queue]; [|discriminate Hrun].
    injection Hrun as <-. split; [by left|].
    intros [Ha|(p & Hp & _)]; [exact Ha | by apply elem_of_nil in Hp].
  - destruct queue as [|p queue].
    + injection Hrun as <-. split; [by left|].
      intros [Ha|(p & Hp & _)]; [exact Ha | by apply elem_of_nil in Hp].
    + cbn [LineageTracker.walkQueue] in Hrun.
      destruct (records !! p) as [r|] eqn:Hrec.
      * rewrite (IH _ _ _ Hrun a). rewrite elem_of_app, list_elem_of_singleton.
        split.
        -- intros [[Ha| ->]|(p' & Hp' & Hreach)].
           ++ by left.
           ++ right. exists p. split; [apply list_elem_of_here | by apply reach_here].
           ++ right. apply elem_of_app in Hp' as [Hp'|Hp'].
              ** exists p'. split; [by apply list_elem_of_further | exact Hreach].
              ** exists p. split; [apply list_elem_of_here|].
                 by eapply reach_up.
        -- intros [Ha|(p' & Hp' & Hreach)]; [by left; left|].
           apply elem_of_cons in Hp' as [->|Hp'].
           ++ inversion Hreach as [p0 r0 Hr0|p0 r0 p1 a0 Hr0 Hp1 Hup]; subst.
              ** rewrite Hrec in Hr0. injection Hr0 as ->. left. by right.
              ** rewrite Hrec in Hr0. injection Hr0 as <-.
                 right. exists p1. split; [|exact Hup]. apply elem_of_app. by right.
           ++ right. exists p'. split; [|exact Hreach]. apply elem_of_app. by left.
      * rewrite (IH _ _ _ Hrun a). split.
        -- intros [Ha|(p' & Hp' & Hreach)]; [by left|].
           right. exists p'. split; [by apply list_elem_of_further | exact Hreach].
        -- intros [Ha|(p' & Hp' & Hreach)]; [by left|].
           apply elem_of_cons in Hp' as [->|Hp'].
           ++ inversion Hreach as [p0 r0 Hr0|p0 r0 p1 a0 Hr0 Hp1 Hup]; subst;
                rewrite Hrec in Hr0; discriminate Hr0.
           ++ right. by exists p'.
Qed.

(** X4. Whenever the loop of [getAncestors] ends, the list it returns holds
    exactly the ancestors of the agent: the records of its parents, of
    their parents, and so on, and no other record. *)
Theorem getAncestors_collects_ancestors (lt : LineageTracker.t) (fuel : nat)
    (agentId : Z) (ancestors : list AgentAncestry.t) :
  LineageTracker.getAncestors lt fuel agentId = Some ancestors →
  ∀ a, a ∈ ancestors ↔ isAncestor (LineageTracker.ancestryRecords lt) agentId a.
Proof.
  unfold LineageTracker.getAncestors, isAncestor. intros Hrun a.
  destruct (LineageTracker.ancestryRecords lt !! agentId) as [record|] eqn:Hrec.
  - rewrite (walkQueue_collects _ _ _ _ _ Hrun a). split.
    + intros [Ha|(p & Hp & Hreach)]; [by apply elem_of_nil in Ha|].
      by exists record, p.
    + intros (r & p & [= <-] & Hp & Hreach). right. by exists p.
  - injection Hrun as <-. split; [intros Ha; by apply elem_of_nil in Ha|].
    intros (r & p & Hr & _). discriminate Hr.
Qed.

Lemma getAncestors_collects_ancestors_witness :
  isAncestor (LineageTracker.ancestryRecords exampleLedger) 3
    (AgentAncestry.mk 1 [] 1 0 0 None 0).
Proof.
  apply (getAncestors_collects_ancestors exampleLedger 5 3
           [AgentAncestry.mk 1 [] 1 0 0 None 0;
            AgentAncestry.mk 2 [1] 1 0 0 None 0;
            AgentAncestry.mk 1 [] 1 0 0 None 0]).
  - vm_compute. reflexivity.
  - apply list_elem_of_here.
Defined.

(** ** Draws and indices *)

Lemma randomIndex_range (u : Q) (n : nat) :
  validDraw u = true →
  0 <= Qfloor (u * inject_Z (Z.of_nat n)) <= Z.of_nat n
  ∧ ((0 < n)%nat → Qfloor (u * inject_Z (Z.of_nat n)) < Z.of_nat n).
Proof.
  intros Hu. apply validDraw_range in Hu as [H0 H1].
  assert (Hn : (0 <= inject_Z (Z.of_nat n))%Q).
  { rewrite <- (Zle_Qle 0). lia. }
  split; [split|].
  - rewrite <- (Qfloor_Z 0). apply Qfloor_resp_le.
    change (inject_Z 0) with 0%Q. by apply Qmult_le_0_compat.
  - rewrite Zle_Qle. eapply Qle_trans; [apply Qfloor_le|].
    assert (Hle : (u <= 1)%Q) by lra.
    pose proof (Qmult_le_compat_r u 1 _ Hle Hn) as Hmul. lra.
  - intros Hpos.
    assert (Hn' : (0 < inject_Z (Z.of_nat n))%Q).
    { rewrite <- (Zlt_Qlt 0). lia. }
    rewrite Zlt_Qlt.
    eapply Qle_lt_trans; [apply Qfloor_le|].
    pose proof (Qmult_lt_compat_r u 1 _ Hn' H1) as Hlt. lra.
Qed.

Lemma randomIndex_Returns (n : nat) (tape : Tape) k rest :
  randomIndex n tape = Returns k rest →
  ∃ u, tape = u :: rest ∧ validDraw u = true
       ∧ k = Qfloor (u * inject_Z (Z.of_nat n))
       ∧ 0 <= k <= Z.of_nat n ∧ ((0 < n)%nat → k < Z.of_nat n).
Proof.
  unfold randomIndex. intros Hrun.
  apply bind_Returns in Hrun as (u & mid & Hu & Hrun).
  apply Math_random_Returns in Hu as [-> Hu].
  apply ret_Returns in Hrun as [<- <-].
  exists u. split; [reflexivity|]. split; [exact Hu|]. split; [reflexivity|].
  by apply randomIndex_range.
Qed.

(** ** Arrays *)

Lemma Array_slice_take {A} (l : list A) (k : Z) :
  0 <= k → Array_slice l 0 k = take (Z.to_nat k) l.
Proof.
  intros Hk. unfold Array_slice, sliceIndex.
  destruct (Z.ltb_spec k 0); [lia|]. cbn [Z.ltb Z.compare].
  replace (Z.min 0 (Z.of_nat (length l))) with 0 by lia.
  change (Z.to_nat 0) with 0%nat. rewrite drop_0.
  rewrite Z.sub_0_r.
  destruct (Z.le_ge_cases k (Z.of_nat (length l))).
  - by replace (Z.min k (Z.of_nat (length l))) with k by lia.
  - replace (Z.min k (Z.of_nat (length l))) with (Z.of_nat (length l)) by lia.
    rewrite Nat2Z.id.
    rewrite firstn_all. symmetry. apply take_ge. lia.
Qed.

Lemma Array_sliceFrom_drop {A} (l : list A) (k : Z) :
  0 <= k → Array_sliceFrom l k = drop (Z.to_nat k) l.
Proof.
  intros Hk. unfold Array_sliceFrom, Array_slice, sliceIndex.
  destruct (Z.ltb_spec k 0); [lia|].
  destruct (Z.ltb_spec (Z.of_nat (length l)) 0); [lia|].
  replace (Z.min (Z.of_nat (length l)) (Z.of_nat (length l)))
    with (Z.of_nat (length l)) by lia.
  destruct (Z.le_ge_cases k (Z.of_nat (length l))).
  - replace (Z.min k (Z.of_nat (length l))) with k by lia.
    apply take_ge. rewrite length_drop. lia.
  - replace (Z.min k (Z.of_nat (length l))) with (Z.of_nat (length l)) by lia.
    rewrite Nat2Z.id.
    rewrite drop_all. rewrite (drop_ge l (Z.to_nat k)) by lia. by rewrite take_nil.
Qed.

Lemma overwriteFrom_length {A} (src : list A) (count : nat) :
  ∀ dst i, length (overwriteFrom dst src i count) = length dst.
Proof.
  induction count as [|count IH]; intros dst i; [reflexivity|].
  cbn [overwriteFrom]. rewrite IH. destruct (src !! i); [apply length_insert | reflexivity].
Qed.

Lemma overwriteFrom_lookup {A} (src : list A) (count : nat) :
  ∀ dst i j, length src = length dst →
    overwriteFrom dst src i count !! j
    = if bool_decide (i <= j < i + count)%nat then src !! j else dst !! j.
Proof.
  induction count as [|count IH]; intros dst i j Hlen.
  - cbn [overwriteFrom]. rewrite bool_decide_eq_false_2; [reflexivity | lia].
  - cbn [overwriteFrom].
    destruct (src !! i) as [v|] eqn:Hv.
    + rewrite IH by (by rewrite length_insert).
      destruct (decide (i = j)) as [->|Hne].
      * rewrite bool_decide_eq_false_2 by lia.
        rewrite bool_decide_eq_true_2 by lia.
        rewrite list_lookup_insert_eq; [by rewrite Hv|].
        apply lookup_lt_Some in Hv. lia.
      * rewrite list_lookup_insert_ne by done.
        destruct (decide (S i <= j < S i + count)%nat).
        -- rewrite !bool_decide_eq_true_2 by lia. reflexivity.
        -- rewrite !bool_decide_eq_false_2 by lia. reflexivity.
    + rewrite IH by done.
      apply lookup_ge_None in Hv.
      destruct (decide (S i <= j < S i + count)%nat).
      * rewrite !bool_decide_eq_true_2 by lia. reflexivity.
      * destruct (decide (i = j)) as [->|Hne].
        -- rewrite bool_decide_eq_false_2 by lia.
           rewrite bool_decide_eq_true_2 by lia.
           rewrite (proj2 (lookup_ge_None dst j)) by lia.
           by rewrite (proj2 (lookup_ge_None src j)) by lia.
        -- rewrite !bool_decide_eq_false_2 by lia. reflexivity.
Qed.

(** ** The genetic operators (evolution/mutation.ts) *)

Section Operators.

Lemma uniformGenes_from_parents (w1 : list Q) :
  ∀ w2 tape ws rest,
    length w1 = length w2 →
    Mutation.uniformGenes w1 w2 tape = Returns ws rest →
    genesFromParents w1 w2 ws.
Proof.
  induction w1 as [|g1 w1 IH]; intros [|g2 w2] tape ws rest Hlen Hrun;
    try discriminate Hlen.
  - apply ret_Returns in Hrun as [<- _]. split; [reflexivity|].
    intros i g Hg. by rewrite lookup_nil in Hg.
  - cbn [Mutation.uniformGenes] in Hrun.
    apply bind_Returns in Hrun as (u & t1 & _ & Hrun).
    apply bind_Returns in Hrun as (ws' & t2 & Hrest & Hrun).
    apply ret_Returns in Hrun as [<- _].
    injection Hlen as Hlen.
    destruct (IH w2 t1 ws' t2 Hlen Hrest) as [Hl Hfrom].
    split; [cbn [length]; by rewrite Hl|].
    intros [|i] g Hg.
    + cbn [lookup list_lookup] in Hg |- *. injection Hg as <-.
      destruct (u <? 1 # 2)%Q; [by left | by right].
    + cbn [lookup list_lookup] in Hg |- *. by apply Hfrom.
Qed.

Lemma applyPoints_from_parents (w1 w2 : list Q) (points : list Z) :
  length w1 = length w2 →
  ∀ child toSecond,
    genesFromParents w1 w2 child →
    genesFromParents w1 w2 (Mutation.applyPoints child w1 w2 toSecond points).
Proof.
  intros Hlen. induction points as [|point points IH]; intros child toSecond Hchild;
    [exact Hchild|].
  cbn [Mutation.applyPoints]. apply IH.
  destruct Hchild as [Hl Hfrom]. split; [by rewrite overwriteFrom_length|].
  intros i g Hg.
  rewrite overwriteFrom_lookup in Hg by (destruct toSecond; congruence).
  destruct (bool_decide _); [|by apply Hfrom].
  destruct toSecond; [by right | by left].
Qed.
End Operators.

Lemma uniformGenes_returns (w1 : list Q) :
  ∀ w2 tape, validTape tape → (length w1 <= length tape)%nat →
    ∃ ws rest, Mutation.uniformGenes w1 w2 tape = Returns ws rest.
Proof.
  induction w1 as [|g1 w1 IH]; intros w2 tape Hvalid Hlen.
  - by exists [], tape.
  - destruct w2 as [|g2 w2]; [by exists [], tape|].
    destruct tape as [|u tape]; [cbn [length] in Hlen; lia|].
    apply Forall_cons in Hvalid as [Hu Hvalid].
    destruct (IH w2 tape Hvalid ltac:(cbn [length] in Hlen; lia)) as (ws & rest & Hrun).
    cbn [Mutation.uniformGenes]. unfold bind at 1. unfold Math_random. rewrite Hu.
    unfold bind at 1. rewrite Hrun. by eexists _, _.
Qed.

Lemma replicateM_randomIndex_returns (n len : nat) :
  ∀ tape, validTape tape → (n <= length tape)%nat →
    ∃ ks rest, replicateM n (randomIndex len) tape = Returns ks rest.
Proof.
  induction n as [|n IH]; intros tape Hvalid Hlen.
  - by exists [], tape.
  - destruct tape as [|u tape]; [cbn [length] in Hlen; lia|].
    apply Forall_cons in Hvalid as [Hu Hvalid].
    destruct (IH tape Hvalid ltac:(cbn [length] in Hlen; lia)) as (ks & rest & Hrun).
    cbn [replicateM]. unfold bind at 1. unfold randomIndex at 1. unfold bind at 1.
    unfold Math_random. rewrite Hu. unfold ret at 1.
    unfold bind at 1. rewrite Hrun. by eexists _, _.
Qed.

(** X10. [crossover] fails on the parents only when their weight arrays differ
    in length: it then throws for every strategy, before any draw; for
    parents of one length it returns a child on every tape of valid draws
    that holds one draw per weight and five more. *)
Theorem crossover_fails_only_on_mismatch (parent1 parent2 : Genome.t)
    (crossoverType : CrossoverType) (tape : Tape) :
  (length (Genome.weights parent1) ≠ length (Genome.weights parent2) →
   Mutation.crossover parent1 parent2 crossoverType tape = Throws LengthMismatch)
  ∧ (length (Genome.weights parent1) = length (Genome.weights parent2) →
     validTape tape →
     (length (Genome.weights parent1) + 5 <= length tape)%nat →
     ∃ child rest, Mutation.crossover parent1 parent2 crossoverType tape
                   = Returns child rest).
Proof.
  unfold Mutation.crossover. split.
  - intros Hne. apply Nat.eqb_neq in Hne. by rewrite Hne.
  - intros Heq Hvalid Hlen. apply Nat.eqb_eq in Heq. rewrite Heq. cbn [negb].
    destruct crossoverType.
    + destruct (uniformGenes_returns (Genome.weights parent1) (Genome.weights parent2)
                  tape Hvalid ltac:(lia)) as (ws & rest & Hrun).
      unfold bind. rewrite Hrun. by eexists _, _.
    + destruct tape as [|u tape]; [cbn [length] in Hlen; lia|].
      apply Forall_cons in Hvalid as [Hu Hvalid].
      unfold bind, randomIndex, bind, Math_random. rewrite Hu. by eexists _, _.
    + destruct tape as [|u tape]; [cbn [length] in Hlen; lia|].
      apply Forall_cons in Hvalid as [Hu Hvalid].
      unfold bind at 1. unfold Math_random. rewrite Hu.
      destruct (randomIndex_range u 3 Hu) as [[Hlo _] Hhi].
      specialize (Hhi ltac:(lia)).
      assert (Hthree : inject_Z (Z.of_nat 3) = 3%Q) by reflexivity.
      rewrite Hthree in Hlo, Hhi.
      destruct (replicateM_randomIndex_returns (Z.to_nat (Qfloor (u * 3) + 2))
                  (length (Genome.weights parent1)) tape Hvalid
                  ltac:(cbn [length] in Hlen; lia)) as (ks & rest & Hrun).
      unfold bind at 1. rewrite Hrun. by eexists _, _.
Qed.

Lemma crossover_fails_only_on_mismatch_witness :
  Mutation.crossover (Genome.mk [1; 1]%Q (5 # 100)) (Genome.mk [0]%Q (5 # 100))
    UNIFORM [1 # 2; 1 # 2]%Q
  = Throws LengthMismatch
  ∧ ∃ child rest,
      Mutation.crossover (Genome.mk [1; 1]%Q (5 # 100)) (Genome.mk [0; 0]%Q (5 # 100))
        MULTI_POINT (repeat (1 # 2)%Q 7)
      = Returns child rest.
Proof.
  split.
  - apply (proj1 (crossover_fails_only_on_mismatch (Genome.mk [1; 1]%Q (5 # 100))
                    (Genome.mk [0]%Q (5 # 100)) UNIFORM [1 # 2; 1 # 2]%Q)).
    simpl. lia.
  - apply (proj2 (crossover_fails_only_on_mismatch (Genome.mk [1; 1]%Q (5 # 100))
                    (Genome.mk [0; 0]%Q (5 # 100)) MULTI_POINT (repeat (1 # 2)%Q 7))).
    + reflexivity.
    + apply (bool_decide_unpack (Forall (λ u, validDraw u = true) (repeat (1 # 2)%Q 7))).
      vm_compute. exact I.
    + simpl. lia.
Defined.

Lemma crossover_child_genes (parent1 parent2 : Genome.t)
    (crossoverType : CrossoverType) (tape : Tape) child rest :
  Mutation.crossover parent1 parent2 crossoverType tape = Returns child rest →
  genesFromParents (Genome.weights parent1) (Genome.weights parent2)
    (Genome.weights child)
  ∧ Genome.mutationRate child = (5 # 100)%Q.
Proof.
  unfold Mutation.crossover. intros Hrun.
  destruct (length (Genome.weights parent1) =? length (Genome.weights parent2))%nat
    eqn:Hlen; [|discriminate Hrun].
  apply Nat.eqb_eq in Hlen. cbn [negb] in Hrun.
  destruct crossoverType.
  - apply bind_Returns in Hrun as (ws & t1 & Hws & Hrun).
    apply ret_Returns in Hrun as [<- _]. split; [|reflexivity].
    cbn [Genome.weights Genome.withWeights].
    by eapply uniformGenes_from_parents.
  - apply bind_Returns in Hrun as (k & t1 & Hk & Hrun).
    apply randomIndex_Returns in Hk as (u & _ & _ & _ & [Hk0 Hkn] & Hklt).
    apply ret_Returns in Hrun as [<- _]. split; [|reflexivity].
    cbn [Genome.weights Genome.withWeights].
    rewrite Array_slice_take, Array_sliceFrom_drop by done.
    assert (Hk' : (Z.to_nat k <= length (Genome.weights parent1))%nat) by lia.
    split.
    + rewrite length_app, length_take, length_drop. lia.
    + intros i g Hg. destruct (decide (i < Z.to_nat k)%nat) as [Hi|Hi].
      * left. rewrite lookup_app_l in Hg by (rewrite length_take; lia).
        by rewrite lookup_take_lt in Hg.
      * right. rewrite lookup_app_r in Hg by (rewrite length_take; lia).
        rewrite lookup_drop in Hg. rewrite length_take in Hg.
        replace (Z.to_nat k + (i - Z.to_nat k `min` length (Genome.weights parent1)))%nat
          with i in Hg by lia.
        exact Hg.
  - apply bind_Returns in Hrun as (u & t1 & _ & Hrun).
    apply bind_Returns in Hrun as (points & t2 & _ & Hrun).
    apply ret_Returns in Hrun as [<- _]. split; [|reflexivity].
    cbn [Genome.weights Genome.withWeights].
    apply applyPoints_from_parents; [exact Hlen|].
    split; [reflexivity | intros i g Hg; by left].
Qed.

(** X11. The child of [crossover] has as many weights as its parents, each of
    its weights is the weight of one of the parents at the same position,
    whatever the strategy, and its mutation rate is the default 0.05, not a
    rate of the parents. *)
Theorem crossover_genes_from_parents (parent1 parent2 : Genome.t)
    (crossoverType : CrossoverType) (tape : Tape) child rest :
  Mutation.crossover parent1 parent2 crossoverType tape = Returns child rest →
  length (Genome.weights child) = length (Genome.weights parent1)
  ∧ (∀ i g, Genome.weights child !! i = Some g →
       Genome.weights parent1 !! i = Some g ∨ Genome.weights parent2 !! i = Some g)
  ∧ Genome.mutationRate child = (5 # 100)%Q.
Proof.
  intros Hrun.
  destruct (crossover_child_genes _ _ _ _ _ _ Hrun) as [[Hl Hfrom] Hrate].
  by repeat split.
Qed.

Lemma crossover_genes_from_parents_witness :
  Mutation.crossover (Genome.mk [1; 1; 1; 1; 1]%Q (7 # 100))
    (Genome.mk [0; 0; 0; 0; 0]%Q (9 # 100)) MULTI_POINT [0; 3 # 5; 1 # 5]%Q
  = Returns (Genome.mk [1; 0; 0; 1; 1]%Q (5 # 100)) []
  ∧ length [1; 0; 0; 1; 1]%Q = 5%nat.
Proof.
  split; [vm_compute; reflexivity|].
  apply (proj1 (crossover_genes_from_parents (Genome.mk [1; 1; 1; 1; 1]%Q (7 # 100))
                  (Genome.mk [0; 0; 0; 0; 0]%Q (9 # 100)) MULTI_POINT
                  [0; 3 # 5; 1 # 5]%Q (Genome.mk [1; 0; 0; 1; 1]%Q (5 # 100)) []
                  eq_refl)).
Defined.

(** The single-point strategy splices the parents at one index: with the
    draw [u] the child is the first [floor (u * length)] weights of parent 1
    followed by the weights of parent 2 from that index on. *)
Theorem crossover_single_point_splices (parent1 parent2 : Genome.t) (u : Q) (rest : Tape) :
  length (Genome.weights parent1) = length (Genome.weights parent2) →
  validDraw u = true →
  let crossPoint :=
    Z.to_nat (Qfloor (u * inject_Z (Z.of_nat (length (Genome.weights parent1))))) in
  Mutation.crossover parent1 parent2 SINGLE_POINT (u :: rest)
  = Returns (Genome.mk (take crossPoint (Genome.weights parent1)
                        ++ drop crossPoint (Genome.weights parent2)) (5 # 100)) rest.
Proof.
  intros Hlen Hu crossPoint. subst crossPoint. unfold Mutation.crossover.
  apply Nat.eqb_eq in Hlen. rewrite Hlen. cbn [negb].
  unfold bind, randomIndex, bind, Math_random. rewrite Hu. unfold ret.
  destruct (randomIndex_range u (length (Genome.weights parent1)) Hu) as [[Hlo _] _].
  rewrite Array_slice_take, Array_sliceFrom_drop by exact Hlo. reflexivity.
Qed.

Lemma crossover_single_point_splices_witness :
  Mutation.crossover (Genome.mk [1; 1; 1; 1; 1]%Q (5 # 100))
    (Genome.mk [0; 0; 0; 0; 0]%Q (5 # 100)) SINGLE_POINT [2 # 5]%Q
  = Returns (Genome.mk [1; 1; 0; 0; 0]%Q (5 # 100)) [].
Proof.
  exact (crossover_single_point_splices (Genome.mk [1; 1; 1; 1; 1]%Q (5 # 100))
           (Genome.mk [0; 0; 0; 0; 0]%Q (5 # 100)) (2 # 5)%Q [] eq_refl eq_refl).
Defined.

Section OperatorMutate.

End OperatorMutate.



(** ** Genomes (evolution/genome.ts) *)

Lemma bind_run {A B} (m : Rand A) (k : A → Rand B) (tape : Tape) a mid :
  m tape = Returns a mid → bind m k tape = k a mid.
Proof. unfold bind. by intros ->. Qed.

Lemma Math_random_valid (u : Q) (tape : Tape) :
  validDraw u = true → Math_random (u :: tape) = Returns u tape.
Proof. unfold Math_random. by intros ->. Qed.

Section GenomeFacts.
Context `{MathLib}.

Lemma randomWeights_returns (size : nat) :
  ∀ tape, validTape tape → (size <= length tape)%nat →
    replicateM size (do u <- Math_random; ret (u * 2 - 1)%Q) tape
    = Returns (map (λ u, u * 2 - 1)%Q (take size tape)) (drop size tape).
Proof.
  induction size as [|size IH]; intros tape Hvalid Hlen.
  - by rewrite take_0, drop_0.
  - destruct tape as [|u tape]; [cbn [length] in Hlen; lia|].
    apply Forall_cons in Hvalid as [Hu Hvalid].
    cbn [replicateM].
    erewrite bind_run;
      [|erewrite bind_run; [|by apply Math_random_valid]; reflexivity].
    erewrite bind_run; [|apply (IH tape Hvalid); cbn [length] in Hlen; lia].
    reflexivity.
Qed.

Lemma selfAdaptive_mutateWeights_length (rate : Q) (ws : list Q) :
  ∀ tape ws' rest,
    Genome.mutateWeights rate ws tape = Returns ws' rest → length ws' = length ws.
Proof.
  induction ws as [|w ws IH]; intros tape ws' rest Hrun.
  - by apply ret_Returns in Hrun as [<- _].
  - cbn [Genome.mutateWeights] in Hrun.
    apply bind_Returns in Hrun as (u & t1 & _ & Hrun).
    apply bind_Returns in Hrun as (w' & t2 & _ & Hrun).
    apply bind_Returns in Hrun as (tail & t3 & Htail & Hrun).
    apply ret_Returns in Hrun as [<- _]. cbn [length]. f_equal. by eapply IH.
Qed.

Lemma clamped_rate_band (r x : Q) :
  (1 # 1000 <= r)%Q → (r <= 3 # 10)%Q → (r / 2 <= x)%Q → (x <= 3 * r / 2)%Q →
  (r / 2 <= Qmax (1 # 1000) (Qmin (3 # 10) x))%Q
  ∧ (Qmax (1 # 1000) (Qmin (3 # 10) x) <= 3 * r / 2)%Q.
Proof.
  intros Hlo Hhi Hx1 Hx2.
  unfold Qdiv in *. change (/ 2)%Q with (1 # 2)%Q in *.
  set (m := Qmin (3 # 10) x).
  assert (Hm : (r * (1 # 2) <= m)%Q ∧ (m <= 3 * r * (1 # 2))%Q).
  { subst m. destruct (Q.min_spec (3 # 10) x) as [[Hc Emin]|[Hc Emin]];
      rewrite Emin; split; lra. }
  destruct Hm as [Hm1 Hm2].
  destruct (Q.max_spec (1 # 1000) m) as [[Hcmp Emax]|[Hcmp Emax]];
    rewrite Emax; split; lra.
Qed.
End GenomeFacts.

(** [Genome.random(size)] reads [size] draws, in order, and returns the
    genome whose weights are those draws rescaled to [-1, 1), with the
    default mutation rate 0.05. *)
Theorem random_genome_weights (size : nat) (tape : Tape) :
  validTape tape → (size <= length tape)%nat →
  ∃ g, Genome.random size tape = Returns g (drop size tape)
       ∧ Genome.weights g = map (λ u, u * 2 - 1)%Q (take size tape)
       ∧ length (Genome.weights g) = size
       ∧ Forall (λ w, (-1 <= w)%Q ∧ (w < 1)%Q) (Genome.weights g)
       ∧ Genome.mutationRate g = (5 # 100)%Q.
Proof.
  intros Hvalid Hlen. unfold Genome.random.
  erewrite bind_run; [|by apply randomWeights_returns]. unfold ret.
  eexists. split; [reflexivity|].
  cbn [Genome.new Genome.weights Genome.mutationRate default from_option]. unfold id.
  split; [reflexivity|]. split; [|split; [|reflexivity]].
  - rewrite List.length_map, length_take. lia.
  - apply Forall_forall. intros w Hw.
    apply list_elem_of_In, in_map_iff in Hw as (u & <- & Hu).
    apply list_elem_of_In in Hu.
    assert (Hin : u ∈ tape).
    { apply elem_of_take in Hu as (i & Hi & _). by eapply list_elem_of_lookup_2. }
    pose proof (proj1 (Forall_forall _ _) Hvalid u Hin) as Hv. cbn beta in Hv.
    apply validDraw_range in Hv as [H0 H1]. split; lra.
Qed.

Lemma random_genome_weights_witness :
  ∃ g, Genome.random 2 [0; 3 # 4; 1 # 2]%Q = Returns g [1 # 2]%Q
       ∧ length (Genome.weights g) = 2%nat.
Proof.
  destruct (random_genome_weights 2 [0; 3 # 4; 1 # 2]%Q) as (g & Hrun & _ & Hlen & _).
  - apply (bool_decide_unpack (Forall (λ u, validDraw u = true) [0; 3 # 4; 1 # 2]%Q)).
    vm_compute. exact I.
  - simpl. lia.
  - exists g. split; [exact Hrun | exact Hlen].
Defined.

(** X13. One self-adaptive [mutate] of a genome whose rate lies in
    [0.001, 0.3] keeps the number of weights and moves the rate by at most
    half of its value. *)
Theorem selfAdaptive_mutate_rate_band `{MathLib} (genome : Genome.t) (tape : Tape)
    genome' rest :
  rateInRange genome →
  Genome.mutate genome tape = Returns genome' rest →
  length (Genome.weights genome') = length (Genome.weights genome)
  ∧ (Genome.mutationRate genome / 2 <= Genome.mutationRate genome')%Q
  ∧ (Genome.mutationRate genome' <= 3 * Genome.mutationRate genome / 2)%Q.
Proof.
  intros [Hlo Hhi] Hrun. unfold Genome.mutate in Hrun.
  apply bind_Returns in Hrun as (roll & t1 & _ & Hrun).
  apply bind_Returns in Hrun as (newGenome & t2 & Hnew & Hrun).
  apply bind_Returns in Hrun as (ws & t3 & Hws & Hrun).
  apply ret_Returns in Hrun as [<- _].
  cbn [Genome.weights Genome.mutationRate Genome.withWeights].
  apply selfAdaptive_mutateWeights_length in Hws. rewrite Hws.
  destruct (roll <? 1 # 10)%Q.
  - apply bind_Returns in Hnew as (u & t1' & Hu & Hnew).
    apply Math_random_Returns in Hu as [_ Hu]. apply validDraw_range in Hu as [Hu0 Hu1].
    apply ret_Returns in Hnew as [<- _].
    cbn [Genome.weights Genome.mutationRate Genome.withMutationRate Genome.copy].
    split; [reflexivity|].
    apply clamped_rate_band; [exact Hlo | exact Hhi | |];
      unfold Qdiv; change (/ 2)%Q with (1 # 2)%Q; nra.
  - apply ret_Returns in Hnew as [<- _].
    cbn [Genome.weights Genome.mutationRate Genome.copy].
    split; [reflexivity|].
    unfold Qdiv; change (/ 2)%Q with (1 # 2)%Q. split; lra.
Qed.

Lemma selfAdaptive_mutate_rate_band_witness :
  ∃ genome' rest,
    @Genome.mutate rationalMath exampleGenome [5 # 100; 9 # 10; 9 # 10; 9 # 10]%Q
    = Returns genome' rest
    ∧ (Genome.mutationRate genome' <= 3 * (5 # 100) / 2)%Q.
Proof.
  eexists _, _. split; [vm_compute; reflexivity|].
  assert (Hin : rateInRange exampleGenome) by (split; vm_compute; intros E; discriminate E).
  exact (proj2 (proj2 (@selfAdaptive_mutate_rate_band rationalMath exampleGenome
                         [5 # 100; 9 # 10; 9 # 10; 9 # 10]%Q _ _ Hin eq_refl))).
Defined.

(** ** Sorting and selection (core/sim.ts, [startNewGeneration]) *)

Section SortByKey.
Context {A : Type} (key : A → Q).

Lemma insertBy_perm (compare : A → A → Q) (a : A) (l : list A) :
  insertBy compare a l ≡ₚ a :: l.
Proof.
  induction l as [|b l IH]; [reflexivity|].
  cbn [insertBy]. destruct (compare a b <=? 0)%Q; [reflexivity|].
  rewrite IH. apply Permutation_swap.
Qed.

Lemma Array_sort_perm (compare : A → A → Q) (l : list A) :
  Array_sort compare l ≡ₚ l.
Proof.
  induction l as [|a l IH]; [reflexivity|].
  cbn [Array_sort foldr]. rewrite insertBy_perm. by constructor.
Qed.

(** Descending by [key]: every element is at least as large as all the
    elements after it. *)
Lemma insertBy_descending (a : A) (l : list A) :
  StronglySorted (λ x y, (key y <= key x)%Q) l →
  StronglySorted (λ x y, (key y <= key x)%Q) (insertBy (λ x y, (key y - key x)%Q) a l).
Proof.
  induction 1 as [|b l Hsorted IH Hb]; [repeat constructor|].
  cbn [insertBy]. destruct (key b - key a <=? 0)%Q eqn:E.
  - apply Qle_bool_iff in E. constructor; [by constructor|].
    constructor; [lra|].
    eapply Forall_impl; [exact Hb|]. cbn beta. intros y Hy. lra.
  - apply Qleb_gt in E. constructor; [exact IH|].
    rewrite insertBy_perm. constructor; [lra | exact Hb].
Qed.

Lemma Array_sort_descending (l : list A) :
  StronglySorted (λ x y, (key y <= key x)%Q) (Array_sort (λ x y, (key y - key x)%Q) l).
Proof.
  induction l as [|a l IH]; [constructor|].
  cbn [Array_sort foldr]. by apply insertBy_descending.
Qed.

Lemma descending_take_drop (l : list A) (k : nat) :
  StronglySorted (λ x y, (key y <= key x)%Q) l →
  ∀ x y, x ∈ take k l → y ∈ drop k l → (key y <= key x)%Q.
Proof.
  intros Hsorted. revert k. induction Hsorted as [|a l Hsorted IH Ha]; intros k x y Hx Hy.
  - rewrite take_nil in Hx. by apply elem_of_nil in Hx.
  - destruct k as [|k]; [by apply elem_of_nil in Hx|].
    cbn [take drop] in Hx, Hy. apply elem_of_cons in Hx as [->|Hx].
    + apply (proj1 (Forall_forall _ _) Ha).
      apply list_elem_of_lookup in Hy as [i Hi]. rewrite lookup_drop in Hi.
      by eapply list_elem_of_lookup_2.
    + by eapply IH.
Qed.
End SortByKey.

Lemma ceilDiv4_le (n : nat) : (ceilDiv4 n <= n)%nat.
Proof.
  unfold ceilDiv4. destruct n as [|n]; [reflexivity|].
  apply Nat.Div0.div_le_upper_bound. lia.
Qed.

Lemma ceilDiv4_pos (n : nat) : (0 < n)%nat → (0 < ceilDiv4 n)%nat.
Proof.
  intros Hn. unfold ceilDiv4. apply Nat.div_str_pos. lia.
Qed.

Lemma selectSurvivors_take (agents : list Agent.t) :
  Simulation.selectSurvivors agents
  = take (ceilDiv4 (length agents)) (Simulation.sortByFitness agents).
Proof.
  unfold Simulation.selectSurvivors.
  rewrite Array_slice_take by lia. rewrite Nat2Z.id.
  unfold Simulation.sortByFitness. by rewrite (Permutation_length (Array_sort_perm _ agents)).
Qed.

(** X23. The survivors of a generation are the top quarter, rounded up, of the
    roster by fitness: [ceil (n / 4)] agents of the roster, none of them
    less fit than an agent left out, and at least one when the roster is
    not empty. *)
Theorem selectSurvivors_top_quarter (agents : list Agent.t) :
  let survivors := Simulation.selectSurvivors agents in
  let others := drop (ceilDiv4 (length agents)) (Simulation.sortByFitness agents) in
  length survivors = ceilDiv4 (length agents)
  ∧ survivors ++ others ≡ₚ agents
  ∧ (∀ s o, s ∈ survivors → o ∈ others → (Agent.fitness o <= Agent.fitness s)%Q)
  ∧ (agents ≠ [] → survivors ≠ []).
Proof.
  cbn zeta. rewrite selectSurvivors_take.
  assert (Hlen : length (Simulation.sortByFitness agents) = length agents).
  { unfold Simulation.sortByFitness. apply Permutation_length, Array_sort_perm. }
  split; [|split; [|split]].
  - rewrite length_take, Hlen. pose proof (ceilDiv4_le (length agents)). lia.
  - rewrite take_drop. apply Array_sort_perm.
  - intros s o. apply (descending_take_drop Agent.fitness).
    apply (Array_sort_descending Agent.fitness).
  - intros Hne Hnil. apply (f_equal length) in Hnil.
    rewrite length_take, Hlen in Hnil. cbn [length] in Hnil.
    assert (0 < length agents)%nat by (destruct agents; [done | cbn [length]; lia]).
    pose proof (ceilDiv4_pos (length agents) ltac:(lia)).
    pose proof (ceilDiv4_le (length agents)). lia.
Qed.

(** ** Agents (entities/agent.ts) *)



Section AgentFacts.
Context `{MathLib} `{NeuralEvaluator} `{Config}.

End AgentFacts.



Lemma wrapAround_range (c bound : Q) :
  (0 <= bound)%Q →
  (0 <= Agent.wrapAround c bound)%Q ∧ (Agent.wrapAround c bound <= bound)%Q.
Proof.
  intros Hb. unfold Agent.wrapAround.
  destruct (c <? 0)%Q eqn:E1.
  - destruct (bound >? bound)%Q eqn:E2; [apply Qgtb_gt in E2; lra|]. split; lra.
  - apply Qltb_ge in E1. destruct (c >? bound)%Q eqn:E2; [split; lra|].
    apply Qgtb_le in E2. split; lra.
Qed.

(** X15. [updatePhysics] leaves the agent inside the world, borders included,
    and changes nothing but its position and velocity: an agent that only
    gets the physics step of a tick neither ages nor spends energy. *)
Theorem updatePhysics_stays_in_world `{MathLib} `{Config} (a : Agent.t)
    (movementMultiplier : Q) :
  (0 <= worldWidth)%Q → (0 <= worldHeight)%Q →
  let a' := Agent.updatePhysics a movementMultiplier in
  (0 <= Vector2D.x (Agent.position a'))%Q
  ∧ (Vector2D.x (Agent.position a') <= worldWidth)%Q
  ∧ (0 <= Vector2D.y (Agent.position a'))%Q
  ∧ (Vector2D.y (Agent.position a') <= worldHeight)%Q
  ∧ a' = Agent.withPosition (Agent.withVelocity a (Agent.velocity a')) (Agent.position a')
  ∧ Agent.energy a' = Agent.energy a
  ∧ Agent.age a' = Agent.age a
  ∧ Agent.dead a' = Agent.dead a
  ∧ Agent.fitness a' = Agent.fitness a.
Proof.
  intros HW HH. cbn zeta. rewrite updatePhysics_position.
  cbn [Vector2D.x Vector2D.y].
  destruct (wrapAround_range
              (Vector2D.x (Agent.integratedPosition a movementMultiplier)) worldWidth HW).
  destruct (wrapAround_range
              (Vector2D.y (Agent.integratedPosition a movementMultiplier)) worldHeight HH).
  repeat split; assumption.
Qed.

Lemma updatePhysics_stays_in_world_witness :
  (Vector2D.x (Agent.position
     (@Agent.updatePhysics rationalMath config (restingAgent 900 (-3) 50) 1)) <= 800)%Q
  ∧ (0 <= Vector2D.y (Agent.position
       (@Agent.updatePhysics rationalMath config (restingAgent 900 (-3) 50) 1)))%Q.
Proof.
  destruct (@updatePhysics_stays_in_world rationalMath config (restingAgent 900 (-3) 50) 1
              ltac:(vm_compute; intros E; discriminate E)
              ltac:(vm_compute; intros E; discriminate E))
    as (_ & Hx & Hy & _).
  split; [exact Hx | exact Hy].
Defined.

Section Feeding.
Context `{MathLib} `{Config}.

Lemma nearbyFoods_spec (a : Agent.t) (foods : list Food.t) (i : nat) :
  i ∈ Agent.nearbyFoods a foods ↔
  ∃ food, foods !! i = Some food ∧ Agent.isNearby a food = true.
Proof.
  unfold Agent.nearbyFoods. rewrite list_elem_of_In, in_map_iff. split.
  - intros ([j food] & <- & Hin). apply List.filter_In in Hin as [Hin Hnear].
    apply list_elem_of_In, elem_of_lookup_imap in Hin as (k & food' & [= -> ->] & Hk).
    by exists food'.
  - intros (food & Hi & Hnear). exists (i, food). split; [reflexivity|].
    apply List.filter_In. split; [|exact Hnear].
    apply list_elem_of_In, elem_of_lookup_imap. by exists i, food.
Qed.

Lemma isNearby_unconsumed (a : Agent.t) (food : Food.t) :
  Agent.isNearby a food = true → Food.isConsumed food = false.
Proof. unfold Agent.isNearby. by destruct (Food.isConsumed food). Qed.

Lemma eat_energy_bound (a : Agent.t) (food : Food.t) :
  Agent.eat a food = Agent.withEnergy a (Agent.energy (Agent.eat a food))
  ∧ (Agent.energy (Agent.eat a food) <= agentMaxEnergy)%Q
  ∧ (Food.type food = POISON → (1 <= agentMaxEnergy)%Q →
     (1 <= Agent.energy (Agent.eat a food))%Q).
Proof.
  unfold Agent.eat. cbn [Agent.energy Agent.withEnergy].
  split; [reflexivity|]. split.
  - match goal with
    | |- context [(?x >? agentMaxEnergy)%Q] =>
        destruct (x >? agentMaxEnergy)%Q eqn:E
    end; [apply Qle_refl | by apply Qgtb_le in E].
  - intros Hpoison Hmax. rewrite Hpoison.
    destruct (Agent.energy a + Food.energy food <? 1)%Q eqn:E1; cbn [andb].
    + destruct (1 >? agentMaxEnergy)%Q; [exact Hmax | lra].
    + apply Qltb_ge in E1.
      destruct (Agent.energy a + Food.energy food >? agentMaxEnergy)%Q;
        [exact Hmax | exact E1].
Qed.

Lemma feeding_loop_invariant (a : Agent.t) (foods : list Food.t) (indices : list nat) :
  (∀ i, i ∈ indices → ∃ food, foods !! i = Some food ∧ Agent.isNearby a food = true) →
  ∀ st,
    st.1 = Agent.withEnergy a (Agent.energy st.1) →
    Forall2 (λ food food',
               food' = food
               ∨ (food' = Food.consume food ∧ Food.isConsumed food = false
                  ∧ Agent.reaches a food = true)) foods st.2 →
    (Agent.energy st.1 <= Qmax (Agent.energy a) agentMaxEnergy)%Q →
    (st = (a, foods) ∨ st.2 ≠ foods) →
    let st' :=
      fold_left
        (λ st i,
           match st.2 !! i with
           | Some food =>
               if Agent.reaches st.1 food
               then (Agent.eat st.1 food, <[i := Food.consume food]> st.2)
               else st
           | None => st
           end) indices st in
    st'.1 = Agent.withEnergy a (Agent.energy st'.1)
    ∧ Forall2 (λ food food',
                 food' = food
                 ∨ (food' = Food.consume food ∧ Food.isConsumed food = false
                    ∧ Agent.reaches a food = true)) foods st'.2
    ∧ (Agent.energy st'.1 <= Qmax (Agent.energy a) agentMaxEnergy)%Q
    ∧ (st' = (a, foods) ∨ st'.2 ≠ foods).
Proof.
  induction indices as [|i indices IH]; intros Hnear [a1 foods1] Ha Hfoods Hen Hsame.
  - cbn [fold_left]. by repeat split.
  - cbn [fold_left]. cbn [fst snd] in *.
    assert (Hrest : ∀ j, j ∈ indices →
              ∃ food, foods !! j = Some food ∧ Agent.isNearby a food = true).
    { intros j Hj. apply Hnear. by apply list_elem_of_further. }
    destruct (Hnear i (list_elem_of_here _ _)) as (food & Hfood & Hnearby).
    destruct (Forall2_lookup_l _ _ _ _ _ Hfoods Hfood) as (food1 & Hfood1 & Hrel).
    rewrite Hfood1.
    destruct (Agent.reaches a1 food1) eqn:Hreach; [|by apply IH].
    assert (Hreach' : Agent.reaches a food = true).
    { rewrite Ha in Hreach. unfold Agent.reaches in *.
      cbn [Agent.position Agent.size Agent.withEnergy] in Hreach.
      destruct Hrel as [->|(-> & _ & _)]; exact Hreach. }
    assert (Hconsume : Food.consume food1 = Food.consume food).
    { destruct Hrel as [->|(-> & _ & _)]; reflexivity. }
    apply IH; [exact Hrest | ..]; cbn [fst snd].
    + destruct (eat_energy_bound a1 food1) as [Heat _]. rewrite Heat, Ha. reflexivity.
    + apply Forall2_lookup. intros j. destruct (decide (i = j)) as [<-|Hne].
      * rewrite Hfood, list_lookup_insert_eq by (by eapply lookup_lt_Some).
        constructor. right. rewrite Hconsume.
        split; [reflexivity|].
        split; [by apply (isNearby_unconsumed a) | exact Hreach'].
      * rewrite list_lookup_insert_ne by done.
        by apply (proj1 (Forall2_lookup _ _ _) Hfoods).
    + destruct (eat_energy_bound a1 food1) as (_ & Hmax & _).
      eapply Qle_trans; [exact Hmax | apply Q.le_max_r].
    + right. intros Heq. apply (f_equal (λ l, l !! i)) in Heq. cbn beta in Heq.
      rewrite Hfood, list_lookup_insert_eq in Heq by (by eapply lookup_lt_Some).
      injection Heq as Heq. rewrite Hconsume in Heq.
      apply (isNearby_unconsumed a) in Hnearby.
      apply (f_equal Food.isConsumed) in Heq. cbn [Food.consume Food.isConsumed] in Heq.
      congruence.
Qed.
End Feeding.

Lemma checkFoodConsumption_facts `{MathLib} `{Config} (a : Agent.t)
    (foods : list Food.t) :
  (Agent.checkFoodConsumption a foods).1
  = Agent.withEnergy a (Agent.energy (Agent.checkFoodConsumption a foods).1)
  ∧ Forall2 (λ food food',
               food' = food
               ∨ (food' = Food.consume food ∧ Food.isConsumed food = false
                  ∧ Agent.reaches a food = true))
      foods (Agent.checkFoodConsumption a foods).2
  ∧ (Agent.energy (Agent.checkFoodConsumption a foods).1
     <= Qmax (Agent.energy a) agentMaxEnergy)%Q
  ∧ ((Agent.checkFoodConsumption a foods).2 = foods →
     (Agent.checkFoodConsumption a foods).1 = a).
Proof.
  unfold Agent.checkFoodConsumption.
  destruct (feeding_loop_invariant a foods (Agent.nearbyFoods a foods)
              (λ i, proj1 (nearbyFoods_spec a foods i)) (a, foods))
    as (Ha & Hfoods & Hen & Hsame); cbn [fst snd].
  - by destruct a.
  - apply Forall2_lookup. intros i. destruct (foods !! i); constructor. by left.
  - apply Q.le_max_l.
  - by left.
  - split; [exact Ha|]. split; [exact Hfoods|]. split; [exact Hen|].
    intros Heq. destruct Hsame as [Hst|Hne]; [by rewrite Hst | by destruct Hne].
Qed.

Lemma checkFoodConsumption_out_of_reach `{MathLib} `{Config} (a : Agent.t)
    (foods : list Food.t) :
  Forall (λ food, Food.isConsumed food = true ∨ Agent.reaches a food = false) foods →
  Agent.checkFoodConsumption a foods = (a, foods).
Proof.
  intros Hfar.
  destruct (checkFoodConsumption_facts a foods) as (_ & Hfoods & _ & Hsame).
  assert (Heq : (Agent.checkFoodConsumption a foods).2 = foods).
  { revert Hfar. generalize dependent (Agent.checkFoodConsumption a foods).2.
    intros foods' Hfoods _.
    induction Hfoods as [|food food' foods0 foods0' Hrel _ IH]; intros Hfar;
      [reflexivity|].
    apply Forall_cons_1 in Hfar as [Hfood Hfar].
    rewrite (IH Hfar). f_equal.
    destruct Hrel as [->|(_ & Hfresh & Hreach)]; [reflexivity|].
    destruct Hfood; congruence. }
  rewrite (surjective_pairing (Agent.checkFoodConsumption a foods)).
  by rewrite Heq, (Hsame Heq).
Qed.

(** X16. [checkFoodConsumption] changes nothing of the agent but its energy and
    nothing of a food item but its [isConsumed] flag, which it only sets,
    and only on items that were not yet consumed and lie within reach; the
    energy ends at most at the larger of its old value and
    [agentMaxEnergy]; with no unconsumed item in reach, agent and food list
    come back as they were. *)
Theorem checkFoodConsumption_marks_reached `{MathLib} `{Config} (a : Agent.t)
    (foods : list Food.t) :
  let a' := (Agent.checkFoodConsumption a foods).1 in
  let foods' := (Agent.checkFoodConsumption a foods).2 in
  a' = Agent.withEnergy a (Agent.energy a')
  ∧ Forall2 (λ food food',
               food' = food
               ∨ (food' = Food.consume food ∧ Food.isConsumed food = false
                  ∧ Agent.reaches a food = true)) foods foods'
  ∧ (Agent.energy a' <= Qmax (Agent.energy a) agentMaxEnergy)%Q
  ∧ (Forall (λ food, Food.isConsumed food = true ∨ Agent.reaches a food = false) foods →
     a' = a ∧ foods' = foods).
Proof.
  cbn zeta.
  destruct (checkFoodConsumption_facts a foods) as (Ha & Hfoods & Hen & _).
  split; [exact Ha|]. split; [exact Hfoods|]. split; [exact Hen|].
  intros Hfar. by rewrite (checkFoodConsumption_out_of_reach a foods Hfar).
Qed.

Section Collisions.
Context `{MathLib}.


End Collisions.



Section UpdateFacts.
Context `{MathLib} `{NeuralEvaluator} `{Config}.

Lemma closestFood_all_consumed (a : Agent.t) (foods : list Food.t) :
  Forall (λ food, Food.isConsumed food = true) foods →
  Agent.closestFood a foods = (None, None).
Proof.
  unfold Agent.closestFood. generalize (@None Food.t, @None Q).
  intros st Hall. revert st.
  induction Hall as [|food foods Hfood _ IH]; intros st; [reflexivity|].
  cbn [fold_left]. rewrite Hfood. apply IH.
Qed.

Lemma getSensoryInputs_Returns (a : Agent.t) (foods : list Food.t)
    (obstacles : list Obstacle.t) (tape : Tape) inputs rest :
  Agent.getSensoryInputs a foods obstacles tape = Returns inputs rest →
  ∃ noise foodInputs obstacleInputs,
    tape = noise :: rest ∧ validDraw noise = true
    ∧ length foodInputs = 4%nat ∧ length obstacleInputs = 3%nat
    ∧ inputs = [(Vector2D.x (Agent.position a) / worldWidth)%Q;
                (Vector2D.y (Agent.position a) / worldHeight)%Q;
                (magnitudeVector (Agent.velocity a) / agentMaxSpeed)%Q;
                (Agent.energy a / agentMaxEnergy)%Q]
               ++ foodInputs ++ obstacleInputs ++ [noise]
    ∧ (Forall (λ food, Food.isConsumed food = true) foods →
       foodInputs = [0; 0; 1; 5 # 10]%Q)
    ∧ (obstacles = [] → obstacleInputs = [0; 0; 1]%Q).
Proof.
  unfold Agent.getSensoryInputs. intros Hrun.
  apply bind_Returns in Hrun as (noise & mid & Hnoise & Hrun).
  apply Math_random_Returns in Hnoise as [-> Hnoise].
  apply ret_Returns in Hrun as [<- <-].
  eexists noise, _, _. split; [reflexivity|]. split; [exact Hnoise|].
  split; [|split; [|split; [reflexivity|split]]].
  - destruct (Agent.closestFood a foods) as [[food|] [d|]]; reflexivity.
  - destruct (Agent.closestObstacle a obstacles) as [[obstacle|] [d|]];
      [destruct (d <? 150)%Q|..]; reflexivity.
  - intros Hall. by rewrite closestFood_all_consumed.
  - by intros ->.
Qed.

Lemma metabolise_energy (a : Agent.t) :
  Agent.energy (Agent.metabolise a)
  = (Agent.energy a - agentMetabolismRate * Agent.metabolismMultiplier a)%Q.
Proof. reflexivity. Qed.

End UpdateFacts.

(** X18. [getSensoryInputs] hands the network twelve numbers, the
    [inputNeurons] of cfg.ts, at the cost of exactly one draw, which is the
    last input; the first four are position, speed and energy scaled by the
    configuration; with no unconsumed food the food inputs are the
    defaults 0, 0, 1, 0.5 and without obstacles the obstacle inputs are
    0, 0, 1. *)
Theorem getSensoryInputs_twelve_inputs `{MathLib} `{Config} (a : Agent.t)
    (foods : list Food.t) (obstacles : list Obstacle.t) (tape : Tape) inputs rest :
  Agent.getSensoryInputs a foods obstacles tape = Returns inputs rest →
  length inputs = 12%nat
  ∧ (∃ noise, tape = noise :: rest ∧ inputs !! 11%nat = Some noise)
  ∧ take 4 inputs = [(Vector2D.x (Agent.position a) / worldWidth)%Q;
                     (Vector2D.y (Agent.position a) / worldHeight)%Q;
                     (magnitudeVector (Agent.velocity a) / agentMaxSpeed)%Q;
                     (Agent.energy a / agentMaxEnergy)%Q]
  ∧ (Forall (λ food, Food.isConsumed food = true) foods →
     take 4 (drop 4 inputs) = [0; 0; 1; 5 # 10]%Q)
  ∧ (obstacles = [] → take 3 (drop 8 inputs) = [0; 0; 1]%Q).
Proof.
  intros Hrun.
  apply getSensoryInputs_Returns in Hrun
    as (noise & foodInputs & obstacleInputs & -> & _ & Hf & Ho & -> & Hnofood & Hnoobst).
  destruct foodInputs as [|f1 [|f2 [|f3 [|f4 [|]]]]]; try discriminate Hf.
  destruct obstacleInputs as [|o1 [|o2 [|o3 [|]]]]; try discriminate Ho.
  split; [reflexivity|]. split; [by exists noise|]. split; [reflexivity|].
  split.
  - intros Hall. by rewrite <- (Hnofood Hall).
  - intros Hnone. by rewrite <- (Hnoobst Hnone).
Qed.

Lemma getSensoryInputs_twelve_inputs_witness :
  @inputNeurons config = 12%nat
  ∧ ∃ inputs,
      @Agent.getSensoryInputs rationalMath config (restingAgent 400 300 50) [] []
        [1 # 4]%Q
      = Returns inputs []
      ∧ length inputs = 12%nat.
Proof.
  split; [reflexivity|].
  eexists. split; [vm_compute; reflexivity|].
  apply (proj1 (@getSensoryInputs_twelve_inputs rationalMath config
                  (restingAgent 400 300 50) [] [] [1 # 4]%Q _ [] eq_refl)).
Defined.

(** X19. An agent whose energy does not outlast the metabolism of the tick dies
    in [update]: it is marked dead and aged by one tick, nothing is drawn,
    it neither moves nor eats, the food is untouched, and its fitness is
    left at the value of the tick before. *)
Theorem update_starving_agent_dies `{MathLib} `{NeuralEvaluator} `{Config}
    (a : Agent.t) (foods : list Food.t) (obstacles : list Obstacle.t)
    (movementMultiplier : Q) (tape : Tape) :
  (Agent.energy a <= agentMetabolismRate * Agent.metabolismMultiplier a)%Q →
  ∃ a',
    Agent.update a foods obstacles movementMultiplier tape = Returns (a', foods) tape
    ∧ Agent.dead a' = true
    ∧ Agent.age a' = Agent.age a + 1
    ∧ Agent.fitness a' = Agent.fitness a
    ∧ Agent.position a' = Agent.position a
    ∧ Agent.velocity a' = Agent.velocity a
    ∧ (Agent.energy a' <= 0)%Q.
Proof.
  intros Hstarve. unfold Agent.update.
  destruct (Agent.energy (Agent.metabolise a) <=? 0)%Q eqn:E.
  - eexists. split; [reflexivity|]. repeat (split; [reflexivity|]).
    cbn [Agent.withDead Agent.energy]. rewrite metabolise_energy. lra.
  - apply Qleb_gt in E. rewrite metabolise_energy in E. lra.
Qed.

Lemma update_starving_agent_dies_witness :
  ∃ a',
    @Agent.update rationalMath steadyEvaluator config (restingAgent 100 100 (1 # 10))
      [] [] 1 []
    = Returns (a', []) []
    ∧ Agent.dead a' = true.
Proof.
  destruct (@update_starving_agent_dies rationalMath steadyEvaluator config
              (restingAgent 100 100 (1 # 10)) [] [] 1 []
              ltac:(vm_compute; intros E; discriminate E))
    as (a' & Hrun & Hdead & _).
  exists a'. by split.
Defined.


Section ReproduceFacts.
Context `{MathLib} `{NeuralEvaluator} `{Config}.


End ReproduceFacts.





Section SimulationFacts.
Context `{MathLib} `{NeuralEvaluator} `{Config}.

Lemma spawnFood_Returns (count : nat) :
  ∀ foods_ tape foods' rest,
    Simulation.spawnFood count foods_ tape = Returns foods' rest →
    ∃ spawned,
      foods' = foods_ ++ spawned
      ∧ length spawned = count
      ∧ Forall (λ food,
                  Food.isConsumed food = false
                  ∧ ∃ ux uy, validDraw ux = true ∧ validDraw uy = true
                      ∧ Food.position food
                        = createVector (ux * worldWidth) (uy * worldHeight)) spawned
      ∧ length tape = (3 * count + length rest)%nat.
Proof.
  induction count as [|count IH]; intros foods_ tape foods' rest Hrun.
  - apply ret_Returns in Hrun as [<- <-]. exists [].
    rewrite app_nil_r. by repeat split.
  - cbn [Simulation.spawnFood] in Hrun.
    apply bind_Returns in Hrun as (ux & t1 & Hux & Hrun).
    apply Math_random_Returns in Hux as [-> Hux].
    apply bind_Returns in Hrun as (uy & t2 & Huy & Hrun).
    apply Math_random_Returns in Huy as [-> Huy].
    apply bind_Returns in Hrun as (roll & t3 & Hroll & Hrun).
    apply Math_random_Returns in Hroll as [-> Hroll].
    apply IH in Hrun as (spawned & -> & Hlen & Hall & Htape).
    eexists (_ :: spawned). split; [by rewrite <- app_assoc|].
    split; [cbn [length]; by rewrite Hlen|]. split.
    + apply Forall_cons_2; [|exact Hall]. split.
      * by destruct (roll <? 1 # 10)%Q, (roll <? 2 # 10)%Q.
      * exists ux, uy. split; [exact Hux|]. split; [exact Huy|].
        by destruct (roll <? 1 # 10)%Q, (roll <? 2 # 10)%Q.
    + cbn [length]. lia.
Qed.

Lemma spawnFood_total (count : nat) :
  ∀ foods_ tape,
    validTape tape → (3 * count <= length tape)%nat →
    ∃ foods', Simulation.spawnFood count foods_ tape
              = Returns foods' (drop (3 * count) tape).
Proof.
  induction count as [|count IH]; intros foods_ tape Hvalid Hlen.
  - exists foods_. reflexivity.
  - destruct tape as [|ux [|uy [|roll tape]]]; cbn [length] in Hlen; try lia.
    apply Forall_cons_1 in Hvalid as [Hux Hvalid].
    apply Forall_cons_1 in Hvalid as [Huy Hvalid].
    apply Forall_cons_1 in Hvalid as [Hroll Hvalid].
    cbn [Simulation.spawnFood].
    erewrite bind_run; [|by apply Math_random_valid].
    erewrite bind_run; [|by apply Math_random_valid].
    erewrite bind_run; [|by apply Math_random_valid].
    replace (3 * S count)%nat with (S (S (S (3 * count)))) by lia.
    cbn [drop]. apply IH; [exact Hvalid | lia].
Qed.
End SimulationFacts.

(** X24. [spawnFood(count)] pushes exactly [count] items behind the items the
    array holds, none of them consumed and each at a position inside the
    world, and uses three draws per item; it returns whenever the tape
    holds that many draws. *)
Theorem spawnFood_appends_fresh_items `{Config} (count : nat) (foods_ : list Food.t)
    (tape : Tape) :
  (0 < worldWidth)%Q → (0 < worldHeight)%Q →
  (∀ foods' rest,
     Simulation.spawnFood count foods_ tape = Returns foods' rest →
     take (length foods_) foods' = foods_
     ∧ length foods' = (length foods_ + count)%nat
     ∧ Forall (λ food,
                 Food.isConsumed food = false
                 ∧ (0 <= Vector2D.x (Food.position food))%Q
                 ∧ (Vector2D.x (Food.position food) < worldWidth)%Q
                 ∧ (0 <= Vector2D.y (Food.position food))%Q
                 ∧ (Vector2D.y (Food.position food) < worldHeight)%Q)
         (drop (length foods_) foods')
     ∧ length tape = (3 * count + length rest)%nat)
  ∧ (validTape tape → (3 * count <= length tape)%nat →
     ∃ foods', Simulation.spawnFood count foods_ tape
               = Returns foods' (drop (3 * count) tape)).
Proof.
  intros Hwidth Hheight. split; [|apply spawnFood_total].
  intros foods' rest Hrun.
  apply spawnFood_Returns in Hrun as (spawned & -> & Hlen & Hall & Htape).
  split; [by rewrite take_app_length|].
  split; [by rewrite length_app, Hlen|].
  split; [|exact Htape].
  rewrite drop_app_length.
  eapply Forall_impl; [exact Hall|].
  intros food (Hfresh & ux & uy & Hux & Huy & ->).
  apply validDraw_range in Hux as [Hux0 Hux1].
  apply validDraw_range in Huy as [Huy0 Huy1].
  split; [exact Hfresh|]. unfold createVector. cbn [Vector2D.x Vector2D.y].
  repeat split; nra.
Qed.

Lemma spawnFood_appends_fresh_items_witness :
  ∃ foods',
    @Simulation.spawnFood config 2 [] [1 # 2; 1 # 4; 5 # 100; 1 # 8; 3 # 4; 9 # 10]%Q
    = Returns foods' []
    ∧ map Food.type foods' = [SUPER; BASIC].
Proof.
  destruct (proj2 (@spawnFood_appends_fresh_items config 2 []
                     [1 # 2; 1 # 4; 5 # 100; 1 # 8; 3 # 4; 9 # 10]%Q
                     ltac:(vm_compute; reflexivity) ltac:(vm_compute; reflexivity)))
    as [foods' Hrun].
  - unfold validTape. repeat (apply Forall_cons_2; [vm_compute; reflexivity|]).
    apply Forall_nil_2.
  - cbn [length]. lia.
  - exists foods'. split; [exact Hrun|].
    vm_compute in Hrun. by injection Hrun as <-.
Defined.
Section TickFacts.
Context `{MathLib} `{NeuralEvaluator} `{Config}.




End TickFacts.




Section GenerationFacts.
Context `{MathLib} `{Config}.








Lemma registeredNewcomer_later (parentPool : list Z) (lt1 lt2 : LineageTracker.t)
    (generation_ tick : Z) (a : Agent.t) :
  LineageTracker.ancestryRecords lt2 !! Agent.id a
  = LineageTracker.ancestryRecords lt1 !! Agent.id a →
  registeredNewcomer parentPool lt1 generation_ tick a →
  registeredNewcomer parentPool lt2 generation_ tick a.
Proof.
  intros Hkeep (Hdead & Hage & Hen & Hlen & Hpool & Hrecord).
  unfold registeredNewcomer. rewrite Hkeep. by repeat split.
Qed.


End GenerationFacts.



Section UpdateTickFacts.
Context `{MathLib} `{NeuralEvaluator} `{Config}.






End UpdateTickFacts.



Section GridFacts.
Context {T : Type} (position : T → Vector2D.t).

Lemma insert_cellSize (g : SpatialGrid.t) (item : T) :
  SpatialGrid.cellSize (SpatialGrid.insert position g item) = SpatialGrid.cellSize g.
Proof. reflexivity. Qed.

Lemma insertAll_cellSize (items : list T) :
  ∀ g : SpatialGrid.t,
    SpatialGrid.cellSize (SpatialGrid.insertAll position g items)
    = SpatialGrid.cellSize g.
Proof.
  induction items as [|item items IH]; intros g; [reflexivity|].
  unfold SpatialGrid.insertAll in *. cbn [fold_left]. by rewrite IH.
Qed.

Lemma insert_cellAt (g : SpatialGrid.t) (item : T) (key : Z * Z) :
  SpatialGrid.cellAt (SpatialGrid.insert position g item) key
  = if decide (key = SpatialGrid.getCellKey g (Vector2D.x (position item))
                       (Vector2D.y (position item)))
    then SpatialGrid.cellAt g key ++ [item]
    else SpatialGrid.cellAt g key.
Proof.
  unfold SpatialGrid.insert, SpatialGrid.cellAt at 1. cbn [SpatialGrid.cells].
  destruct (decide _) as [->|Hne].
  - by rewrite lookup_insert_eq.
  - by rewrite lookup_insert_ne.
Qed.

(** Every cell holds the inserted items whose position falls into it. *)
Lemma insertAll_cellAt (items : list T) :
  ∀ (g : SpatialGrid.t) (key : Z * Z) (item : T),
    item ∈ SpatialGrid.cellAt (SpatialGrid.insertAll position g items) key
    ↔ item ∈ SpatialGrid.cellAt g key
      ∨ (item ∈ items
         ∧ key = SpatialGrid.getCellKey g (Vector2D.x (position item))
                   (Vector2D.y (position item))).
Proof.
  induction items as [|item0 items IH]; intros g key item.
  - unfold SpatialGrid.insertAll. cbn [fold_left]. split; [by left|].
    intros [Hin|[Hin _]]; [exact Hin | by apply elem_of_nil in Hin].
  - unfold SpatialGrid.insertAll in *. cbn [fold_left]. rewrite IH.
    rewrite insert_cellAt.
    change (SpatialGrid.getCellKey (SpatialGrid.insert position g item0))
      with (SpatialGrid.getCellKey g).
    rewrite elem_of_cons.
    destruct (decide _) as [Hkey|Hkey].
    + rewrite elem_of_app, list_elem_of_singleton. split.
      * intros [[Hin| ->]|[Hin Hk]]; [by left | right; by split; [left|] | right].
        by split; [right|].
      * intros [Hin|[[-> |Hin] Hk]]; [by left; left | by left; right | right; by split].
    + split.
      * intros [Hin|[Hin Hk]]; [by left | right; by split; [right|]].
      * intros [Hin|[[-> |Hin] Hk]]; [by left | by destruct Hkey | right; by split].
Qed.

Lemma cellRange_elem (min max c : Z) :
  c ∈ SpatialGrid.cellRange min max ↔ min <= c <= max.
Proof. unfold SpatialGrid.cellRange. rewrite elem_of_seqZ. lia. Qed.

Lemma getNearby_elem (g : SpatialGrid.t) (position_ : Vector2D.t) (radius : Q) (item : T) :
  item ∈ SpatialGrid.getNearby g position_ radius
  ↔ ∃ cellX cellY,
      Qfloor ((Vector2D.x position_ - radius) / SpatialGrid.cellSize g) <= cellX
      ∧ cellX <= Qfloor ((Vector2D.x position_ + radius) / SpatialGrid.cellSize g)
      ∧ Qfloor ((Vector2D.y position_ - radius) / SpatialGrid.cellSize g) <= cellY
      ∧ cellY <= Qfloor ((Vector2D.y position_ + radius) / SpatialGrid.cellSize g)
      ∧ item ∈ SpatialGrid.cellAt g (cellX, cellY).
Proof.
  unfold SpatialGrid.getNearby. rewrite list_elem_of_In, in_flat_map. split.
  - intros (cellX & HcellX & Hin). apply in_flat_map in Hin as (cellY & HcellY & Hin).
    apply list_elem_of_In, cellRange_elem in HcellX.
    apply list_elem_of_In, cellRange_elem in HcellY.
    exists cellX, cellY. rewrite list_elem_of_In. by repeat split; try apply HcellX;
      try apply HcellY.
  - intros (cellX & cellY & Hx1 & Hx2 & Hy1 & Hy2 & Hin).
    exists cellX. split; [apply list_elem_of_In, cellRange_elem; lia|].
    apply in_flat_map. exists cellY.
    split; [apply list_elem_of_In, cellRange_elem; lia | by apply list_elem_of_In].
Qed.

Lemma floor_div_le (a b c : Q) :
  (0 < c)%Q → (a <= b)%Q → Qfloor (a / c) <= Qfloor (b / c).
Proof.
  intros Hc Hab. apply Qfloor_resp_le. unfold Qdiv.
  apply Qmult_le_compat_r; [exact Hab|]. apply Qlt_le_weak, Qinv_lt_0_compat, Hc.
Qed.

Lemma floor_div_lower (a c : Q) :
  (0 < c)%Q → (a - c < inject_Z (Qfloor (a / c)) * c)%Q.
Proof.
  intros Hc. pose proof (Qlt_floor (a / c)) as Hlt.
  rewrite inject_Z_plus in Hlt. change (inject_Z 1) with 1%Q in Hlt.
  assert (Ha : (a == a / c * c)%Q) by (field; lra).
  rewrite Ha at 1. nra.
Qed.

Lemma floor_div_upper (a c : Q) :
  (0 < c)%Q → (inject_Z (Qfloor (a / c)) * c <= a)%Q.
Proof.
  intros Hc. pose proof (Qfloor_le (a / c)) as Hle.
  assert (Ha : (a == a / c * c)%Q) by (field; lra).
  rewrite Ha at 2. nra.
Qed.
End GridFacts.

(** X28. A grid filled by [insert] misses nothing: [getNearby] returns every
    inserted item whose position lies within [radius] of the query point
    on both axes, hence every item within that distance. What it returns
    has been inserted, and lies less than [radius] plus one cell size from
    the point on either axis. *)
Theorem getNearby_finds_all_within_radius {T : Type} (position : T → Vector2D.t)
    (cellSize_ : Q) (items : list T) (point : Vector2D.t) (radius : Q) (item : T) :
  (0 < cellSize_)%Q →
  let g := SpatialGrid.insertAll position (SpatialGrid.new (Some cellSize_)) items in
  let x := Vector2D.x (position item) in
  let y := Vector2D.y (position item) in
  (item ∈ items →
   (Vector2D.x point - radius <= x)%Q → (x <= Vector2D.x point + radius)%Q →
   (Vector2D.y point - radius <= y)%Q → (y <= Vector2D.y point + radius)%Q →
   item ∈ SpatialGrid.getNearby g point radius)
  ∧ (item ∈ SpatialGrid.getNearby g point radius →
     item ∈ items
     ∧ (Vector2D.x point - radius - cellSize_ < x)%Q
     ∧ (x < Vector2D.x point + radius + cellSize_)%Q
     ∧ (Vector2D.y point - radius - cellSize_ < y)%Q
     ∧ (y < Vector2D.y point + radius + cellSize_)%Q).
Proof.
  intros Hsize. cbn zeta.
  set (g := SpatialGrid.insertAll position (SpatialGrid.new (Some cellSize_)) items).
  assert (Hg : SpatialGrid.cellSize g = cellSize_).
  { unfold g. by rewrite insertAll_cellSize. }
  split.
  - intros Hitem Hx1 Hx2 Hy1 Hy2. apply getNearby_elem. rewrite Hg.
    exists (Qfloor (Vector2D.x (position item) / cellSize_)),
      (Qfloor (Vector2D.y (position item) / cellSize_)).
    split; [by apply floor_div_le|]. split; [by apply floor_div_le|].
    split; [by apply floor_div_le|]. split; [by apply floor_div_le|].
    apply insertAll_cellAt. right. by split.
  - intros Hnear. apply getNearby_elem in Hnear
      as (cellX & cellY & Hx1 & Hx2 & Hy1 & Hy2 & Hin).
    rewrite Hg in Hx1, Hx2, Hy1, Hy2.
    apply insertAll_cellAt in Hin as [Hin|[Hin Hkey]];
      [by apply elem_of_nil in Hin|].
    split; [exact Hin|].
    change (SpatialGrid.getCellKey (SpatialGrid.new (Some cellSize_))
              (Vector2D.x (position item)) (Vector2D.y (position item)))
      with (Qfloor (Vector2D.x (position item) / cellSize_),
            Qfloor (Vector2D.y (position item) / cellSize_)) in Hkey.
    apply pair_equal_spec in Hkey as [-> ->].
    rewrite Zle_Qle in Hx1, Hx2, Hy1, Hy2.
    pose proof (floor_div_lower (Vector2D.x point - radius) cellSize_ Hsize).
    pose proof (floor_div_upper (Vector2D.x point + radius) cellSize_ Hsize).
    pose proof (floor_div_lower (Vector2D.y point - radius) cellSize_ Hsize).
    pose proof (floor_div_upper (Vector2D.y point + radius) cellSize_ Hsize).
    pose proof (floor_div_lower (Vector2D.x (position item)) cellSize_ Hsize).
    pose proof (floor_div_upper (Vector2D.x (position item)) cellSize_ Hsize).
    pose proof (floor_div_lower (Vector2D.y (position item)) cellSize_ Hsize).
    pose proof (floor_div_upper (Vector2D.y (position item)) cellSize_ Hsize).
    repeat split; nra.
Qed.

Lemma getNearby_finds_all_within_radius_witness :
  Food.new (createVector 120 80) BASIC
  ∈ SpatialGrid.getNearby
      (SpatialGrid.insertAll Food.position (SpatialGrid.new (Some 50%Q))
         [Food.new (createVector 10 10) BASIC; Food.new (createVector 120 80) BASIC])
      (createVector 100 100) 30.
Proof.
  apply (proj1 (getNearby_finds_all_within_radius Food.position 50
                  [Food.new (createVector 10 10) BASIC;
                   Food.new (createVector 120 80) BASIC]
                  (createVector 100 100) 30 (Food.new (createVector 120 80) BASIC)
                  ltac:(vm_compute; reflexivity))).
  - apply list_elem_of_further, list_elem_of_here.
  - vm_compute. intros E. discriminate E.
  - vm_compute. intros E. discriminate E.
  - vm_compute. intros E. discriminate E.
  - vm_compute. intros E. discriminate E.
Defined.

Section CycleFacts.

Lemma cycle_ticks (n : nat) (c : EnvironmentCycle.t) :
  EnvironmentCycle.totalTicks (Nat.iter n EnvironmentCycle.update c)
  = EnvironmentCycle.totalTicks c + Z.of_nat n.
Proof.
  induction n as [|n IH]; [cbn; lia|].
  rewrite Nat.iter_succ. cbn [EnvironmentCycle.update EnvironmentCycle.totalTicks].
  rewrite IH. lia.
Qed.

Lemma getTimeOfDay_mod (c : EnvironmentCycle.t) :
  0 <= EnvironmentCycle.totalTicks c →
  EnvironmentCycle.getTimeOfDay c
  = if EnvironmentCycle.totalTicks c mod 1000 <? 500 then DAY else NIGHT.
Proof.
  intros Hticks. unfold EnvironmentCycle.getTimeOfDay, EnvironmentCycle.dayLength.
  change (500 * 2) with 1000. by rewrite Z.rem_mod_nonneg by lia.
Qed.
End CycleFacts.

(** X29. Day and night alternate every 500 ticks: [n] ticks after a cycle
    with a tick count of [t >= 0] it is day exactly when [(t + n) mod 1000]
    is below 500, so that the time of day is the other one 500 ticks later
    and the same 1000 ticks later, the length of a generation. The
    day-night ratio stays between 0 and 1, and movement is slowed to 0.7
    and visibility to 0.3 at night and at no other time. *)
Theorem day_and_night_alternate (c : EnvironmentCycle.t) (n : nat) :
  0 <= EnvironmentCycle.totalTicks c →
  let later k := Nat.iter k EnvironmentCycle.update c in
  (EnvironmentCycle.getTimeOfDay (later n) = DAY
   ↔ (EnvironmentCycle.totalTicks c + Z.of_nat n) mod 1000 < 500)
  ∧ EnvironmentCycle.getTimeOfDay (later (n + 500)%nat)
    ≠ EnvironmentCycle.getTimeOfDay (later n)
  ∧ EnvironmentCycle.getTimeOfDay (later (n + 1000)%nat)
    = EnvironmentCycle.getTimeOfDay (later n)
  ∧ (0 <= EnvironmentCycle.getDayNightRatio (later n) <= 1)%Q
  ∧ (EnvironmentCycle.getMovementMultiplier (later n)
     = if (EnvironmentCycle.totalTicks c + Z.of_nat n) mod 1000 <? 500
       then 1%Q else (7 # 10)%Q)
  ∧ (EnvironmentCycle.getVisibilityMultiplier (later n)
     = if (EnvironmentCycle.totalTicks c + Z.of_nat n) mod 1000 <? 500
       then 1%Q else (3 # 10)%Q).
Proof.
  intros Hticks. cbn zeta.
  assert (Hlater : ∀ k, 0 <= EnvironmentCycle.totalTicks
                               (Nat.iter k EnvironmentCycle.update c)).
  { intros k. rewrite cycle_ticks. lia. }
  rewrite !getTimeOfDay_mod by apply Hlater. rewrite !cycle_ticks.
  set (t := EnvironmentCycle.totalTicks c + Z.of_nat n).
  replace (EnvironmentCycle.totalTicks c + Z.of_nat (n + 500)) with (t + 500) by lia.
  replace (EnvironmentCycle.totalTicks c + Z.of_nat (n + 1000)) with (t + 1 * 1000) by lia.
  rewrite Z.mod_add by lia.
  pose proof (Z.mod_pos_bound t 1000 ltac:(lia)) as Hbound.
  assert (Hhalf : (t + 500) mod 1000
                  = if t mod 1000 <? 500 then t mod 1000 + 500 else t mod 1000 - 500).
  { destruct (t mod 1000 <? 500) eqn:E.
    - apply Z.ltb_lt in E. symmetry. apply (Z.mod_unique_pos _ _ (t / 1000)); [lia|].
      pose proof (Z.div_mod t 1000 ltac:(lia)). lia.
    - apply Z.ltb_ge in E. symmetry. apply (Z.mod_unique_pos _ _ (t / 1000 + 1)); [lia|].
      pose proof (Z.div_mod t 1000 ltac:(lia)). lia. }
  split.
  { destruct (t mod 1000 <? 500) eqn:E.
    - apply Z.ltb_lt in E. by split.
    - apply Z.ltb_ge in E. split; [discriminate | lia]. }
  split.
  { rewrite Hhalf. destruct (t mod 1000 <? 500) eqn:E.
    - apply Z.ltb_lt in E.
      destruct (t mod 1000 + 500 <? 500) eqn:E'; [apply Z.ltb_lt in E'; lia | discriminate].
    - apply Z.ltb_ge in E.
      destruct (t mod 1000 - 500 <? 500) eqn:E'; [discriminate | apply Z.ltb_ge in E'; lia]. }
  split; [reflexivity|]. split.
  { unfold EnvironmentCycle.getDayNightRatio, EnvironmentCycle.dayLength.
    change (500 * 2) with 1000.
    rewrite Z.rem_mod_nonneg by (try apply Hlater; lia). rewrite cycle_ticks.
    fold t. change (inject_Z 500) with 500%Q.
    assert (H0 : (0 <= inject_Z (t mod 1000))%Q).
    { change 0%Q with (inject_Z 0). rewrite <- Zle_Qle. lia. }
    destruct (t mod 1000 <? 500) eqn:E.
    - apply Z.ltb_lt in E.
      assert (H1 : (inject_Z (t mod 1000) <= 500)%Q).
      { change 500%Q with (inject_Z 500). rewrite <- Zle_Qle. lia. }
      unfold Qdiv. change (/ 500)%Q with (1 # 500)%Q. split; lra.
    - apply Z.ltb_ge in E.
      assert (H1 : (500 <= inject_Z (t mod 1000))%Q).
      { change 500%Q with (inject_Z 500). rewrite <- Zle_Qle. lia. }
      assert (H2 : (inject_Z (t mod 1000) <= 1000)%Q).
      { change 1000%Q with (inject_Z 1000). rewrite <- Zle_Qle. lia. }
      unfold Qdiv. change (/ 500)%Q with (1 # 500)%Q. split; lra. }
  unfold EnvironmentCycle.getMovementMultiplier, EnvironmentCycle.getVisibilityMultiplier.
  rewrite !getTimeOfDay_mod by apply Hlater. rewrite !cycle_ticks. fold t.
  by destruct (t mod 1000 <? 500).
Qed.

Lemma day_and_night_alternate_witness :
  EnvironmentCycle.getTimeOfDay (Nat.iter 500 EnvironmentCycle.update EnvironmentCycle.new)
  ≠ EnvironmentCycle.getTimeOfDay (Nat.iter 0 EnvironmentCycle.update EnvironmentCycle.new).
Proof.
  apply (proj1 (proj2 (day_and_night_alternate EnvironmentCycle.new 0
                         ltac:(vm_compute; intros E; discriminate E)))).
Defined.

(** [setTimeOfDay] puts the cycle in the middle of the day or of the
    night that was asked for, 250 ticks away from the next change. *)
Theorem setTimeOfDay_round_trip (c : EnvironmentCycle.t) (timeOfDay : TimeOfDay) (n : nat) :
  let c' := EnvironmentCycle.setTimeOfDay c timeOfDay in
  EnvironmentCycle.getTimeOfDay (Nat.iter n EnvironmentCycle.update c')
  = timeOfDay ↔ (Z.of_nat n mod 1000 < 250 ∨ 750 <= Z.of_nat n mod 1000).
Proof.
  cbn zeta.
  assert (Hticks : 0 <= EnvironmentCycle.totalTicks
                          (Nat.iter n EnvironmentCycle.update
                             (EnvironmentCycle.setTimeOfDay c timeOfDay))).
  { rewrite cycle_ticks. destruct timeOfDay; vm_compute (EnvironmentCycle.totalTicks _); lia. }
  rewrite getTimeOfDay_mod by exact Hticks. rewrite cycle_ticks.
  pose proof (Z.mod_pos_bound (Z.of_nat n) 1000 ltac:(lia)) as Hbound.
  pose proof (Z.div_mod (Z.of_nat n) 1000 ltac:(lia)) as Hdiv.
  destruct timeOfDay.
  - change (EnvironmentCycle.totalTicks (EnvironmentCycle.setTimeOfDay c DAY)) with 250.
    destruct (Z_lt_dec (Z.of_nat n mod 1000) 750) as [Hlt|Hge].
    + rewrite <- (Z.mod_unique_pos (250 + Z.of_nat n) 1000 (Z.of_nat n / 1000)
                    (Z.of_nat n mod 1000 + 250)) by lia.
      destruct (_ <? 500) eqn:E; [apply Z.ltb_lt in E | apply Z.ltb_ge in E];
        split; try discriminate; try lia; intros; reflexivity.
    + rewrite <- (Z.mod_unique_pos (250 + Z.of_nat n) 1000 (Z.of_nat n / 1000 + 1)
                    (Z.of_nat n mod 1000 - 750)) by lia.
      destruct (_ <? 500) eqn:E; [apply Z.ltb_lt in E | apply Z.ltb_ge in E];
        split; try discriminate; try lia; intros; reflexivity.
  - change (EnvironmentCycle.totalTicks (EnvironmentCycle.setTimeOfDay c NIGHT)) with 750.
    destruct (Z_lt_dec (Z.of_nat n mod 1000) 250) as [Hlt|Hge].
    + rewrite <- (Z.mod_unique_pos (750 + Z.of_nat n) 1000 (Z.of_nat n / 1000)
                    (Z.of_nat n mod 1000 + 750)) by lia.
      destruct (_ <? 500) eqn:E; [apply Z.ltb_lt in E | apply Z.ltb_ge in E];
        split; try discriminate; try lia; intros; reflexivity.
    + rewrite <- (Z.mod_unique_pos (750 + Z.of_nat n) 1000 (Z.of_nat n / 1000 + 1)
                    (Z.of_nat n mod 1000 - 250)) by lia.
      destruct (_ <? 500) eqn:E; [apply Z.ltb_lt in E | apply Z.ltb_ge in E];
        split; try discriminate; try lia; intros; reflexivity.
Qed.

Section TimeFacts.
Context {S : Type} (tickRate simulationSpeed : Q).
Hypothesis tickRate_positive : (0 < tickRate)%Q.


End TimeFacts.


